(** * The field layer of RNTuple (tree/ntuple/v7/src/RField.cxx)

    A shallow embedding of the member functions of [RFieldBase] and of the
    field kinds built on it, followed by the properties proved about them.
    Objects are records of their data members; a member function that
    mutates [this] and may throw is a computation in a state-and-exception
    monad over that record.  Machine integers are [Z] with the wrap-around
    written out (LP64: 64-bit [size_t] and pointers, 32-bit [int]). *)

From stdpp Require Import base numbers list strings pretty.
From Stdlib Require Import ZArith Lia.

(** ** Machine integers *)

Definition wrap64 (z : Z) : Z := z mod 2 ^ 64.

(** Conversion of an integer value to (signed, 32-bit) [int]. *)
Definition to_int (z : Z) : Z := (z + 2 ^ 31) mod 2 ^ 32 - 2 ^ 31.

(** Conversion of an integer value to (signed, 8-bit) [char]. *)
Definition to_char (z : Z) : Z := (z + 2 ^ 7) mod 2 ^ 8 - 2 ^ 7.

(** Conversion of an integer value to [std::uint32_t]. *)
Definition to_uint32 (z : Z) : Z := z mod 2 ^ 32.

Definition sizeof_voidp : Z := 8.
Definition sizeof_int32 : Z := 4.

(** [for (i = lo; i < hi; ++i)]: the values the loop variable takes. *)
Definition loop_range (lo hi : Z) : list Z :=
  (fun k : nat => (lo + Z.of_nat k)%Z) <$> seq 0 (Z.to_nat (hi - lo)).

(** ** Exceptions and assertions

    [Throw] is a thrown [RException] carrying the message given to
    [R__FAIL]; [Fatal] is a failed [R__ASSERT]. *)

Inductive Outcome (A : Type) : Type :=
| Normal (a : A)
| Throw (what : string)
| Fatal (expr : string).
Arguments Normal {A} a.
Arguments Throw {A} what.
Arguments Fatal {A} expr.

(** A member function over an object of type [S]: the object as the call
    leaves it, also when the call does not return normally. *)
Definition Method (S A : Type) : Type := S -> Outcome A * S.

#[global] Instance Method_ret (S : Type) : MRet (Method S) :=
  fun A a s => (Normal a, s).

#[global] Instance Method_bind (S : Type) : MBind (Method S) :=
  fun A B k m s =>
    match m s with
    | (Normal a, s') => k a s'
    | (Throw what, s') => (Throw what, s')
    | (Fatal expr, s') => (Fatal expr, s')
    end.

Definition this {S : Type} : Method S S := fun s => (Normal s, s).
Definition assign {S : Type} (f : S -> S) : Method S unit := fun s => (Normal tt, f s).
Definition throw {S A : Type} (what : string) : Method S A := fun s => (Throw what, s).
Definition R__ASSERT {S : Type} (cond : bool) (expr : string) : Method S unit :=
  fun s => if cond then (Normal tt, s) else (Fatal expr, s).

Definition returns {S A : Type} (r : Outcome A * S) : bool :=
  match r.1 with Normal _ => true | _ => false end.
Definition throws {S A : Type} (r : Outcome A * S) : bool :=
  match r.1 with Throw _ => true | _ => false end.

(** ** Column types and column representations *)

(** The enumerators of [EColumnType] that RField.cxx names. *)
Inductive EColumnType : Set :=
| kIndex64 | kIndex32 | kSwitch | kChar | kBit
| kReal64 | kReal32
| kInt64 | kUInt64 | kInt32 | kUInt32 | kInt16 | kUInt16 | kInt8 | kUInt8
| kSplitIndex64 | kSplitIndex32 | kSplitReal64 | kSplitReal32
| kSplitInt64 | kSplitUInt64 | kSplitInt32 | kSplitUInt32 | kSplitInt16 | kSplitUInt16.

#[global] Instance EColumnType_eq_dec : EqDecision EColumnType.
Proof. solve_decision. Defined.

Abbreviation ColumnRepresentation_t := (list EColumnType) (only parsing).
Abbreviation TypesList_t := (list (list EColumnType)) (only parsing).

Record RColumnRepresentations : Type := {
  fSerializationTypes : TypesList_t;
  fDeserializationTypes : TypesList_t
}.

Module RColumnRepresentations.

(** [RColumnRepresentations()]: a single representation with no column. *)
Definition default_ctor : RColumnRepresentations :=
  {| fSerializationTypes := [ [] ]; fDeserializationTypes := [ [] ] |}.

(** [RColumnRepresentations(serializationTypes, deserializationExtraTypes)]. *)
Definition ctor (serializationTypes deserializationExtraTypes : TypesList_t)
  : RColumnRepresentations :=
  {| fSerializationTypes := serializationTypes;
     fDeserializationTypes := serializationTypes ++ deserializationExtraTypes |}.

Definition GetSerializationTypes (r : RColumnRepresentations) : TypesList_t :=
  fSerializationTypes r.
Definition GetDeserializationTypes (r : RColumnRepresentations) : TypesList_t :=
  fDeserializationTypes r.

(** [fSerializationTypes[0]]; every table of the file has a first row. *)
Definition GetSerializationDefault (r : RColumnRepresentations) : ColumnRepresentation_t :=
  default [] (fSerializationTypes r !! 0%nat).

End RColumnRepresentations.

(** The static tables returned by the overrides of
    [GetColumnRepresentations], one per field kind. *)
Module Representations.
Import RColumnRepresentations.

Definition index_kinds : RColumnRepresentations :=
  ctor [ [kSplitIndex64]; [kIndex64]; [kSplitIndex32]; [kIndex32] ] [].

Definition RFieldBase_ : RColumnRepresentations := default_ctor.
Definition RField_ClusterSize_t : RColumnRepresentations := index_kinds.
Definition RCardinalityField : RColumnRepresentations := index_kinds.
Definition RField_char : RColumnRepresentations := ctor [ [kChar] ] [ [] ].
Definition RField_int8 : RColumnRepresentations := ctor [ [kInt8] ] [ [kUInt8] ].
Definition RField_uint8 : RColumnRepresentations := ctor [ [kUInt8] ] [ [kInt8] ].
Definition RField_bool : RColumnRepresentations := ctor [ [kBit] ] [].
Definition RField_float : RColumnRepresentations :=
  ctor [ [kSplitReal32]; [kReal32] ] [].
Definition RField_double : RColumnRepresentations :=
  ctor [ [kSplitReal64]; [kReal64]; [kSplitReal32]; [kReal32] ] [].
Definition RField_int16 : RColumnRepresentations :=
  ctor [ [kSplitInt16]; [kInt16] ] [ [kSplitUInt16]; [kUInt16] ].
Definition RField_uint16 : RColumnRepresentations :=
  ctor [ [kSplitUInt16]; [kUInt16] ] [ [kSplitInt16]; [kInt16] ].
Definition RField_int32 : RColumnRepresentations :=
  ctor [ [kSplitInt32]; [kInt32] ] [ [kSplitUInt32]; [kUInt32] ].
Definition RField_uint32 : RColumnRepresentations :=
  ctor [ [kSplitUInt32]; [kUInt32] ] [ [kSplitInt32]; [kInt32] ].
Definition RField_uint64 : RColumnRepresentations :=
  ctor [ [kSplitUInt64]; [kUInt64] ] [ [kSplitInt64]; [kInt64] ].
Definition RField_int64 : RColumnRepresentations :=
  ctor [ [kSplitInt64]; [kInt64] ]
       [ [kSplitUInt64]; [kUInt64]; [kInt32]; [kSplitInt32]; [kUInt32]; [kSplitUInt32] ].
Definition RField_string : RColumnRepresentations :=
  ctor [ [kSplitIndex64; kChar]; [kIndex64; kChar];
         [kSplitIndex32; kChar]; [kIndex32; kChar] ] [].
Definition RCollectionClassField : RColumnRepresentations := index_kinds.
Definition RVectorField : RColumnRepresentations := index_kinds.
Definition RRVecField : RColumnRepresentations := index_kinds.
Definition RField_vector_bool : RColumnRepresentations := index_kinds.
Definition RBitsetField : RColumnRepresentations := ctor [ [kBit] ] [].
Definition RVariantField : RColumnRepresentations := ctor [ [kSwitch] ] [ [] ].
Definition RNullableField : RColumnRepresentations :=
  ctor [ [kSplitIndex64]; [kIndex64]; [kSplitIndex32]; [kIndex32]; [kBit] ] [].
Definition RCollectionField : RColumnRepresentations := index_kinds.

End Representations.

(** ** The data members of [RFieldBase] *)

Inductive ENTupleStructure : Set := kLeaf | kCollection | kRecord | kVariant.

#[global] Instance ENTupleStructure_eq_dec : EqDecision ENTupleStructure.
Proof. solve_decision. Defined.

(** Modelled from the spec: [kInvalidDescriptorId] is declared in a header
    that is not among the sources.  The spec calls [onDiskId] optional; the
    code tests it against this sentinel, taken here to be the all-ones
    64-bit value.  No property below depends on the number chosen. *)
Definition kInvalidDescriptorId : Z := 2 ^ 64 - 1.

(** Modelled from the spec: [kInvalidTypeVersion], the initial value of
    the optional [onDiskTypeVersion], is declared in RField.hxx, which is
    not among the sources; it is taken to be the all-ones 32-bit value. *)
Definition kInvalidTypeVersion : Z := 2 ^ 32 - 1.

(** What a column is bound to once [RColumn::Connect] has been called. *)
Inductive Connection : Set :=
| ToSink (fieldId firstElementIndex : Z)
| ToSource (fieldId : Z).

(** A column as the field layer sees it: the element type of its model,
    its index within the field and its binding. *)
Record RColumn : Set := {
  colType : EColumnType;
  colIndex : Z;
  colConnection : option Connection
}.

(** [fColumnRepresentative] points into one of the two vectors of the
    kind's static [RColumnRepresentations]; the pointer is the vector and
    the position in it. *)
Inductive RepresentativePtr : Set :=
| SerializationRow (i : nat)
| DeserializationRow (i : nat).

#[global] Instance RepresentativePtr_eq_dec : EqDecision RepresentativePtr.
Proof. solve_decision. Defined.

Record RFieldBase : Type := {
  fName : string;
  fType : string;
  fStructure : ENTupleStructure;
  fNRepetitions : Z;
  fIsSimple : bool;
  fTraits : Z;
  fTypeAlias : string;
  fDescription : string;
  fOnDiskId : Z;
  fOnDiskTypeVersion : Z;
  fColumnRepresentative : option RepresentativePtr;
  fColumns : list RColumn;
  fPrincipalColumn : option nat
}.

Definition set_fColumnRepresentative (p : option RepresentativePtr) (f : RFieldBase) : RFieldBase :=
  {| fName := fName f; fType := fType f; fStructure := fStructure f;
     fNRepetitions := fNRepetitions f; fIsSimple := fIsSimple f; fTraits := fTraits f;
     fTypeAlias := fTypeAlias f; fDescription := fDescription f;
     fOnDiskId := fOnDiskId f; fOnDiskTypeVersion := fOnDiskTypeVersion f;
     fColumnRepresentative := p; fColumns := fColumns f;
     fPrincipalColumn := fPrincipalColumn f |}.

Definition set_fColumns (cs : list RColumn) (f : RFieldBase) : RFieldBase :=
  {| fName := fName f; fType := fType f; fStructure := fStructure f;
     fNRepetitions := fNRepetitions f; fIsSimple := fIsSimple f; fTraits := fTraits f;
     fTypeAlias := fTypeAlias f; fDescription := fDescription f;
     fOnDiskId := fOnDiskId f; fOnDiskTypeVersion := fOnDiskTypeVersion f;
     fColumnRepresentative := fColumnRepresentative f; fColumns := cs;
     fPrincipalColumn := fPrincipalColumn f |}.

Definition set_fPrincipalColumn (p : option nat) (f : RFieldBase) : RFieldBase :=
  {| fName := fName f; fType := fType f; fStructure := fStructure f;
     fNRepetitions := fNRepetitions f; fIsSimple := fIsSimple f; fTraits := fTraits f;
     fTypeAlias := fTypeAlias f; fDescription := fDescription f;
     fOnDiskId := fOnDiskId f; fOnDiskTypeVersion := fOnDiskTypeVersion f;
     fColumnRepresentative := fColumnRepresentative f; fColumns := fColumns f;
     fPrincipalColumn := p |}.

Definition set_fOnDiskTypeVersion (v : Z) (f : RFieldBase) : RFieldBase :=
  {| fName := fName f; fType := fType f; fStructure := fStructure f;
     fNRepetitions := fNRepetitions f; fIsSimple := fIsSimple f; fTraits := fTraits f;
     fTypeAlias := fTypeAlias f; fDescription := fDescription f;
     fOnDiskId := fOnDiskId f; fOnDiskTypeVersion := v;
     fColumnRepresentative := fColumnRepresentative f; fColumns := fColumns f;
     fPrincipalColumn := fPrincipalColumn f |}.

(** The part of [RNTupleDescriptor] the field layer reads: the element
    types of the columns of a field, in column order, and the type version
    recorded for a field. *)
Record RNTupleDescriptor : Type := {
  GetColumnIterable : Z -> list EColumnType;
  GetTypeVersion : Z -> Z
}.

(** [std::find(first, last, value)] as the position of the first match. *)
Fixpoint std_find {A : Type} `{EqDecision A} (l : list A) (value : A) : option nat :=
  match l with
  | [] => None
  | x :: l' => if decide (x = value) then Some 0%nat else S <$> std_find l' value
  end.

(** [for (const auto &t : rows) if (t == value) p = &t;] started at
    position [i] with [p = acc]: the loop does not stop at a match. *)
Fixpoint assign_each_match (i : nat) (rows : TypesList_t) (value : ColumnRepresentation_t)
    (acc : option RepresentativePtr) : option RepresentativePtr :=
  match rows with
  | [] => acc
  | t :: rows' =>
      assign_each_match (S i) rows' value
        (if decide (t = value) then Some (DeserializationRow i) else acc)
  end.

(** [s] occurs in [t]. *)
Definition occurs_in (s t : string) : Prop :=
  exists before after : string, t = before +:+ s +:+ after.

(** Modelled from the spec: the trait masks ([kTraitMappable] and the
    others) are enumerators declared in RField.hxx, which is not among the
    sources.  They are parameters of the model; [kTraitTrivialType] is the
    mask of a type that is both trivially constructible and trivially
    destructible. *)
Record TraitMasks : Set := {
  kTraitTriviallyConstructible : Z;
  kTraitTriviallyDestructible : Z;
  kTraitMappable : Z
}.

Definition kTraitTrivialType (m : TraitMasks) : Z :=
  Z.lor (kTraitTriviallyConstructible m) (kTraitTriviallyDestructible m).

(** The part of [RNTupleWriteOptions] the field layer reads. *)
Record RNTupleWriteOptions : Set := {
  GetCompression : Z;
  GetHasSmallClusters : bool
}.

Module RFieldBase.

(** The constructor; the members it does not name keep the initial values
    of an unbound field (no alias, no description, no on-disk id, no
    representative, no column). *)
Definition ctor (m : TraitMasks) (name type : string) (structure : ENTupleStructure)
    (isSimple : bool) (nRepetitions : Z) : RFieldBase :=
  {| fName := name; fType := type; fStructure := structure;
     fNRepetitions := nRepetitions; fIsSimple := isSimple;
     fTraits := if isSimple then kTraitMappable m else 0%Z;
     fTypeAlias := ""; fDescription := "";
     fOnDiskId := kInvalidDescriptorId; fOnDiskTypeVersion := kInvalidTypeVersion;
     fColumnRepresentative := None; fColumns := [];
     fPrincipalColumn := None |}.

Section Object.

(** The object behind [this]: the table its [GetColumnRepresentations]
    override returns, the chain of [GetParent()] links starting at its
    parent, and the virtual hooks [ConnectPageSink] and
    [ConnectPageSource] call. *)
Variable representations : RColumnRepresentations.
Variable parents : list RFieldBase.
Variable GenerateColumnsImpl : Method RFieldBase unit.
Variable GenerateColumnsImpl_desc : RNTupleDescriptor -> Method RFieldBase unit.
Variable OnConnectPageSource : Method RFieldBase unit.

(** [RColumnElementBase::GetTypeName], defined outside RField.cxx. *)
Variable GetTypeName : EColumnType -> string.

Definition GetColumnRepresentations : RColumnRepresentations := representations.

Definition GetName (f : RFieldBase) : string := fName f.
Definition GetStructure (f : RFieldBase) : ENTupleStructure := fStructure f.
Definition GetNRepetitions (f : RFieldBase) : Z := fNRepetitions f.
Definition GetOnDiskId (f : RFieldBase) : Z := fOnDiskId f.

(** The body of the [while] loop of [GetQualifiedFieldName], [parent]
    running over the chain [ps]. *)
Fixpoint qualify (result : string) (ps : list RFieldBase) : string :=
  match ps with
  | [] => result
  | parent :: ps' =>
      if decide (GetName parent = "") then result
      else qualify (GetName parent +:+ "." +:+ result) ps'
  end.

Definition GetQualifiedFieldName (f : RFieldBase) : string :=
  qualify (GetName f) parents.

(** The [for] loop of [EntryToColumnElementIndex]: [f] is the field the
    loop is at, [ps] the chain above it. *)
Fixpoint walk_to_root (result : Z) (f : RFieldBase) (ps : list RFieldBase) : Z :=
  match ps with
  | [] => wrap64 (result * Z.max (GetNRepetitions f) 1)
  | parent :: ps' =>
      if bool_decide (GetStructure parent = kCollection)
         || bool_decide (GetStructure parent = kVariant)
      then 0%Z
      else walk_to_root (wrap64 (result * Z.max (GetNRepetitions f) 1)) parent ps'
  end.

Definition EntryToColumnElementIndex (f : RFieldBase) (globalIndex : Z) : Z :=
  walk_to_root globalIndex f parents.

Definition deref (p : RepresentativePtr) : ColumnRepresentation_t :=
  match p with
  | SerializationRow i => default [] (fSerializationTypes GetColumnRepresentations !! i)
  | DeserializationRow i => default [] (fDeserializationTypes GetColumnRepresentations !! i)
  end.

Definition GetColumnRepresentative (f : RFieldBase) : ColumnRepresentation_t :=
  match fColumnRepresentative f with
  | Some p => deref p
  | None => RColumnRepresentations.GetSerializationDefault GetColumnRepresentations
  end.

(** Modelled from the spec: [HasDefaultColumnRepresentative] is defined
    inline in RField.hxx, which is not among the sources; a field has the
    default representative as long as none has been chosen for it. *)
Definition HasDefaultColumnRepresentative (f : RFieldBase) : bool :=
  bool_decide (fColumnRepresentative f = None).

Definition SetColumnRepresentative (representative : ColumnRepresentation_t)
  : Method RFieldBase unit :=
  f ← this;
  if negb (bool_decide (fColumns f = [])) then
    throw "cannot set column representative once field is connected"
  else
    let validTypes := RColumnRepresentations.GetSerializationTypes GetColumnRepresentations in
    match std_find validTypes representative with
    | None => throw "invalid column representative"
    | Some i => assign (set_fColumnRepresentative (Some (SerializationRow i)))
    end.

(** [columnTypeNames] after the loop over [onDiskTypes]. *)
Fixpoint join_type_names (columnTypeNames : string) (onDiskTypes : ColumnRepresentation_t)
  : string :=
  match onDiskTypes with
  | [] => columnTypeNames
  | t :: ts =>
      let sep := if decide (columnTypeNames = "") then columnTypeNames
                 else columnTypeNames +:+ ", " in
      join_type_names (sep +:+ GetTypeName t) ts
  end.

(** A [const] member function: the outcome alone. *)
Definition EnsureCompatibleColumnTypes (desc : RNTupleDescriptor) (f : RFieldBase)
  : Outcome ColumnRepresentation_t :=
  if bool_decide (fOnDiskId f = kInvalidDescriptorId) then
    Throw ("No on-disk column information for field `" +:+ GetQualifiedFieldName f +:+ "`")
  else
    let onDiskTypes := GetColumnIterable desc (fOnDiskId f) in
    match std_find (RColumnRepresentations.GetDeserializationTypes GetColumnRepresentations)
                   onDiskTypes with
    | Some i =>
        Normal (default [] (RColumnRepresentations.GetDeserializationTypes
                              GetColumnRepresentations !! i))
    | None =>
        Throw ("On-disk column types `" +:+ join_type_names "" onDiskTypes
               +:+ "` for field `" +:+ GetQualifiedFieldName f
               +:+ "` cannot be matched.")
    end.

(** The two [switch] statements of [AutoAdjustColumnTypes]. *)
Definition unsplit (colType : EColumnType) : EColumnType :=
  match colType with
  | kSplitIndex64 => kIndex64
  | kSplitIndex32 => kIndex32
  | kSplitReal64 => kReal64
  | kSplitReal32 => kReal32
  | kSplitInt64 => kInt64
  | kSplitInt32 => kInt32
  | kSplitInt16 => kInt16
  | _ => colType
  end.

Definition narrow_index (colType : EColumnType) : EColumnType :=
  match colType with
  | kSplitIndex64 => kSplitIndex32
  | kIndex64 => kIndex32
  | _ => colType
  end.

Definition AutoAdjustColumnTypes (options : RNTupleWriteOptions) : Method RFieldBase unit :=
  f ← this;
  (if bool_decide (GetCompression options = 0%Z) && HasDefaultColumnRepresentative f then
     SetColumnRepresentative (unsplit <$> GetColumnRepresentative f)
   else mret tt) ;;
  f ← this;
  (if GetHasSmallClusters options then
     SetColumnRepresentative (narrow_index <$> GetColumnRepresentative f)
   else mret tt) ;;
  f ← this;
  if bool_decide (fTypeAlias f = "Double32_t") then SetColumnRepresentative [kSplitReal32]
  else mret tt.

Definition connect_to_sink (fieldId firstElementIndex : Z) (c : RColumn) : RColumn :=
  {| colType := colType c; colIndex := colIndex c;
     colConnection := Some (ToSink fieldId firstElementIndex) |}.

(** [ConnectPageSink]; [options] is [pageSink.GetWriteOptions()]. *)
Definition ConnectPageSink (options : RNTupleWriteOptions) (firstEntry : Z)
  : Method RFieldBase unit :=
  f ← this;
  R__ASSERT (bool_decide (fColumns f = [])) "fColumns.empty()" ;;
  AutoAdjustColumnTypes options ;;
  GenerateColumnsImpl ;;
  f ← this;
  (if bool_decide (fColumns f = []) then mret tt
   else assign (set_fPrincipalColumn (Some 0%nat))) ;;
  assign (fun f =>
            set_fColumns
              (imap (fun i column =>
                       let firstElementIndex :=
                         if bool_decide (fPrincipalColumn f = Some i)
                         then EntryToColumnElementIndex f firstEntry else 0%Z in
                       connect_to_sink (fOnDiskId f) firstElementIndex column)
                    (fColumns f)) f).

Definition connect_to_source (fieldId : Z) (c : RColumn) : RColumn :=
  {| colType := colType c; colIndex := colIndex c;
     colConnection := Some (ToSource fieldId) |}.

Definition ConnectPageSource (desc : RNTupleDescriptor) : Method RFieldBase unit :=
  f ← this;
  R__ASSERT (bool_decide (fColumns f = [])) "fColumns.empty()" ;;
  match fColumnRepresentative f with
  | Some _ =>
      throw "fixed column representative only valid when connecting to a page sink"
  | None =>
      GenerateColumnsImpl_desc desc ;;
      f ← this;
      let onDiskColumnTypes := colType <$> fColumns f in
      assign (set_fColumnRepresentative
                (assign_each_match 0
                   (RColumnRepresentations.GetDeserializationTypes GetColumnRepresentations)
                   onDiskColumnTypes (fColumnRepresentative f))) ;;
      f ← this;
      R__ASSERT (bool_decide (is_Some (fColumnRepresentative f))) "fColumnRepresentative" ;;
      (if bool_decide (fOnDiskId f = kInvalidDescriptorId) then mret tt
       else assign (set_fOnDiskTypeVersion (GetTypeVersion desc (fOnDiskId f)))) ;;
      f ← this;
      (if bool_decide (fColumns f = []) then mret tt
       else assign (set_fPrincipalColumn (Some 0%nat))) ;;
      assign (fun f => set_fColumns (connect_to_source (fOnDiskId f) <$> fColumns f) f) ;;
      OnConnectPageSource
  end.

End Object.
End RFieldBase.

(** The product of [max(nRepetitions, 1)] along a chain of fields. *)
Definition repetitions (chain : list RFieldBase) : Z :=
  foldr (fun g acc => (Z.max (fNRepetitions g) 1 * acc)%Z) 1%Z chain.

(** A field whose subfields are indexed by its own offsets. *)
Definition indexed_by_offsets (p : RFieldBase) : Prop :=
  fStructure p = kCollection \/ fStructure p = kVariant.

(** ** Column generation shared by the field kinds *)

(** [v[i]] on a [std::vector]: out of range the behaviour is undefined,
    which the model reports as a fatal error. *)
Definition subscript {S A : Type} (v : list A) (i : nat) : Method S A :=
  fun s => match v !! i with
           | Some a => (Normal a, s)
           | None => (Fatal "operator[] out of range", s)
           end.

(** A call of a [const] member function. *)
Definition call_const {S A : Type} (g : S -> Outcome A) : Method S A :=
  fun s => (g s, s).

(** [RColumn::Create<T>(RColumnModel(type), index)]. *)
Definition RColumn_Create (type : EColumnType) (index : Z) : RColumn :=
  {| colType := type; colIndex := index; colConnection := None |}.

Definition emplace_back_column (c : RColumn) : Method RFieldBase unit :=
  assign (fun f => set_fColumns (fColumns f ++ [c]) f).

(** The two [GenerateColumnsImpl] overloads of the kinds with one column
    ([RField<ClusterSize_t>], the integer and real kinds, [RVectorField],
    [RRVecField], [RVariantField], [RBitsetField], ...): the bodies differ
    only in the element type handed to [RColumn::Create]. *)
Module OneColumnField.
Section Object.
Variable representations : RColumnRepresentations.
Variable parents : list RFieldBase.
Variable GetTypeName : EColumnType -> string.

Definition GenerateColumnsImpl : Method RFieldBase unit :=
  f ← this;
  t ← subscript (RFieldBase.GetColumnRepresentative representations f) 0;
  emplace_back_column (RColumn_Create t 0).

Definition GenerateColumnsImpl_desc (desc : RNTupleDescriptor) : Method RFieldBase unit :=
  onDiskTypes ← call_const
    (RFieldBase.EnsureCompatibleColumnTypes representations parents GetTypeName desc);
  t ← subscript onDiskTypes 0;
  emplace_back_column (RColumn_Create t 0).

End Object.
End OneColumnField.

(** [RArrayField]: the constructor, as far as it initialises the base. *)
Module RArrayField.

Definition to_string (n : Z) : string := pretty (Z.to_N n).

Definition ctor (m : TraitMasks) (fieldName : string) (itemField : RFieldBase)
    (arrayLength : Z) : RFieldBase :=
  let base :=
    RFieldBase.ctor m fieldName
      ("std::array<" +:+ fType itemField +:+ "," +:+ to_string arrayLength +:+ ">")
      kLeaf false arrayLength in
  {| fName := fName base; fType := fType base; fStructure := fStructure base;
     fNRepetitions := fNRepetitions base; fIsSimple := fIsSimple base;
     fTraits := Z.lor (fTraits base)
                      (Z.land (fTraits itemField) (Z.lnot (kTraitMappable m)));
     fTypeAlias := fTypeAlias base; fDescription := fDescription base;
     fOnDiskId := fOnDiskId base; fOnDiskTypeVersion := fOnDiskTypeVersion base;
     fColumnRepresentative := fColumnRepresentative base; fColumns := fColumns base;
     fPrincipalColumn := fPrincipalColumn base |}.

End RArrayField.

(** ** The column layer as the field layer uses it *)

(** [RClusterIndex]: a cluster and an element position within it. *)
Record RClusterIndex : Set := {
  fClusterId : Z;
  fIndex : Z
}.

(** Modelled from the spec: [kInvalidClusterIndex] and the default
    constructor of [RClusterIndex] are declared in a header that is not
    among the sources; the spec speaks of the "invalid cluster index"
    returned for a null entry.  The sentinel is taken to be the all-ones
    64-bit value. *)
Definition kInvalidClusterIndex : Z := 2 ^ 64 - 1.

Definition nullIndex : RClusterIndex :=
  {| fClusterId := kInvalidDescriptorId; fIndex := kInvalidClusterIndex |}.

(** The elements of one column within one cluster, in the order in which
    they were appended; entry and element positions count from the first
    element of the cluster. *)
Module ColumnSource.

(** Modelled from the spec: [RColumn::GetCollectionInfo] is defined in
    RColumn.hxx, which is not among the sources.  An index column holds,
    for every entry, the number of elements appended in the cluster up to
    and including that entry; the principal column of a collection yields
    [(startInCluster, count)] for an entry: the cumulative count before
    the entry and the difference to the count at the entry. *)
Definition GetCollectionInfo (clusterId : Z) (elements : list Z) (globalIndex : nat)
  : RClusterIndex * Z :=
  let idxStart := match globalIndex with
                  | O => 0%Z
                  | S k => default 0%Z (elements !! k)
                  end in
  let idxEnd := default 0%Z (elements !! globalIndex) in
  ({| fClusterId := clusterId; fIndex := idxStart |}, wrap64 (idxEnd - idxStart)).

(** Modelled from the spec: [RColumn::ReadV(start, n, buf)] "bulk-reads
    contiguous elements": the [n] elements from position [start] on. *)
Definition ReadV {A : Type} (elements : list A) (start : RClusterIndex) (n : Z) : list A :=
  take (Z.to_nat n) (drop (Z.to_nat (fIndex start)) elements).

(** Modelled from the spec: [RColumn::GetClusterIndex] turns the position
    of an entry into its cluster and the position within the cluster. *)
Definition GetClusterIndex (clusterId : Z) (globalIndex : nat) : RClusterIndex :=
  {| fClusterId := clusterId; fIndex := Z.of_nat globalIndex |}.

End ColumnSource.

(** ** [RField<std::string>] *)

(** The string field with its two columns: [fColumns[0]] holds cluster
    offsets, [fColumns[1]] the characters. *)
Record RField_string : Set := {
  str_fIndex : Z;
  str_column0 : list Z;
  str_column1 : list Ascii.ascii
}.

Module RField_string.

(** The field once connected, at the start of a cluster. *)
Definition connected : RField_string :=
  {| str_fIndex := 0; str_column0 := []; str_column1 := [] |}.

Definition data (s : string) : list Ascii.ascii := String.list_ascii_of_string s.

(** [packedSize] stands for [fColumns[0]->GetElement()->GetPackedSize()],
    which depends on the column type chosen at connect time. *)
Definition AppendImpl (packedSize : Z) (from : string) : Method RField_string Z :=
  let length := Z.of_nat (String.length from) in
  assign (fun f => {| str_fIndex := str_fIndex f; str_column0 := str_column0 f;
                      str_column1 := str_column1 f ++ data from |}) ;;
  assign (fun f => {| str_fIndex := wrap64 (str_fIndex f + length);
                      str_column0 := str_column0 f; str_column1 := str_column1 f |}) ;;
  assign (fun f => {| str_fIndex := str_fIndex f;
                      str_column0 := str_column0 f ++ [str_fIndex f];
                      str_column1 := str_column1 f |}) ;;
  mret (wrap64 (length + packedSize)).

(** [std::string::resize(n)]: cut, or fill up with NUL characters. *)
Definition resize (n : Z) (s : list Ascii.ascii) : list Ascii.ascii :=
  take (Z.to_nat n) s ++ replicate (Z.to_nat n - length s) Ascii.zero.

(** [ReadGlobalImpl], reading through a column source: [GetCollectionInfo]
    is the one of the principal column, [ReadV] the one of [fColumns[1]].
    The result is the string [to] holds after the call. *)
Definition ReadGlobalImpl
    (GetCollectionInfo : nat -> RClusterIndex * Z)
    (ReadV : RClusterIndex -> Z -> list Ascii.ascii)
    (globalIndex : nat) (to : string) : string :=
  let '(collectionStart, nChars) := GetCollectionInfo globalIndex in
  if bool_decide (nChars = 0%Z) then ""
  else
    let resized := resize nChars (data to) in
    let chars := ReadV collectionStart nChars in
    String.string_of_list_ascii (chars ++ drop (length chars) resized).

Definition CommitCluster : Method RField_string unit :=
  assign (fun f => {| str_fIndex := 0; str_column0 := str_column0 f;
                      str_column1 := str_column1 f |}).

(** The two [GenerateColumnsImpl] overloads; they act on the base. *)
Definition GenerateColumnsImpl : Method RFieldBase unit :=
  f ← this;
  t0 ← subscript (RFieldBase.GetColumnRepresentative Representations.RField_string f) 0;
  emplace_back_column (RColumn_Create t0 0) ;;
  f ← this;
  t1 ← subscript (RFieldBase.GetColumnRepresentative Representations.RField_string f) 1;
  emplace_back_column (RColumn_Create t1 1).

Definition GenerateColumnsImpl_desc (parents : list RFieldBase)
    (GetTypeName : EColumnType -> string) (desc : RNTupleDescriptor)
  : Method RFieldBase unit :=
  onDiskTypes ← call_const
    (RFieldBase.EnsureCompatibleColumnTypes Representations.RField_string parents
       GetTypeName desc);
  t0 ← subscript onDiskTypes 0;
  emplace_back_column (RColumn_Create t0 0) ;;
  t1 ← subscript onDiskTypes 1;
  emplace_back_column (RColumn_Create t1 1).

(** Reading an entry back from the columns the field has written. *)
Definition read_back (f : RField_string) (globalIndex : nat) (to : string) : string :=
  ReadGlobalImpl (ColumnSource.GetCollectionInfo 0 (str_column0 f))
                 (ColumnSource.ReadV (str_column1 f)) globalIndex to.

End RField_string.

(** ** [RNullableField] *)

(** An element appended to the principal column of a nullable field: a
    mask bit under the dense encoding, a cluster offset under the sparse
    one. *)
Inductive PrincipalElement : Set :=
| MaskBit (mask : bool)
| IndexValue (n : Z).

(** The nullable field: its base, the counter of the sparse encoding, the
    default item of the dense encoding, what has been appended to the
    principal column, and the items handed to [fSubFields[0]->Append]. *)
Record RNullableField (Item : Type) : Type := {
  nul_base : RFieldBase;
  nul_fNWritten : Z;
  nul_fDefaultItemValue : option Item;
  nul_principal : list PrincipalElement;
  nul_items : list Item
}.
Arguments nul_base {Item} _.
Arguments nul_fNWritten {Item} _.
Arguments nul_fDefaultItemValue {Item} _.
Arguments nul_principal {Item} _.
Arguments nul_items {Item} _.

Module RNullableField.
Section Object.

(** The item subfield [fSubFields[0]]: the values it appends, its
    [GetValueSize()], the value its [GenerateValue()] constructs and the
    number of bytes its [Append] reports. *)
Variable Item : Type.
Variable itemValueSize : Z.
Variable itemGenerateValue : Item.
Variable itemAppend : Item -> Z.

Definition sizeof_ClusterSize_t : Z := 8.

Definition on_base {A : Type} (m : Method RFieldBase A) : Method (RNullableField Item) A :=
  fun f =>
    let '(r, b) := m (nul_base f) in
    (r, {| nul_base := b; nul_fNWritten := nul_fNWritten f;
           nul_fDefaultItemValue := nul_fDefaultItemValue f;
           nul_principal := nul_principal f; nul_items := nul_items f |}).

Definition GetColumnRepresentative (f : RNullableField Item) : ColumnRepresentation_t :=
  RFieldBase.GetColumnRepresentative Representations.RNullableField (nul_base f).

(** Modelled from the spec: [IsDense] is defined inline in RField.hxx,
    which is not among the sources; the encoding is dense when the
    representative is the bit column. *)
Definition IsDense (f : RNullableField Item) : bool :=
  bool_decide (GetColumnRepresentative f !! 0%nat = Some kBit).

Definition principal_Append (e : PrincipalElement) : Method (RNullableField Item) unit :=
  assign (fun f => {| nul_base := nul_base f; nul_fNWritten := nul_fNWritten f;
                      nul_fDefaultItemValue := nul_fDefaultItemValue f;
                      nul_principal := nul_principal f ++ [e];
                      nul_items := nul_items f |}).

(** [fSubFields[0]->Append(from)]. *)
Definition subfield_Append (from : Item) : Method (RNullableField Item) Z :=
  assign (fun f => {| nul_base := nul_base f; nul_fNWritten := nul_fNWritten f;
                      nul_fDefaultItemValue := nul_fDefaultItemValue f;
                      nul_principal := nul_principal f;
                      nul_items := nul_items f ++ [from] |}) ;;
  mret (itemAppend from).

Definition GenerateColumnsImpl : Method (RNullableField Item) unit :=
  f ← this;
  (if RFieldBase.HasDefaultColumnRepresentative (nul_base f) then
     if bool_decide (itemValueSize < 4)%Z then
       on_base (RFieldBase.SetColumnRepresentative Representations.RNullableField [kBit])
     else mret tt
   else mret tt) ;;
  f ← this;
  if IsDense f then
    assign (fun f => {| nul_base := nul_base f; nul_fNWritten := nul_fNWritten f;
                        nul_fDefaultItemValue := Some itemGenerateValue;
                        nul_principal := nul_principal f; nul_items := nul_items f |}) ;;
    on_base (emplace_back_column (RColumn_Create kBit 0))
  else
    t ← subscript (GetColumnRepresentative f) 0;
    on_base (emplace_back_column (RColumn_Create t 0)).

Definition AppendNull : Method (RNullableField Item) Z :=
  f ← this;
  if IsDense f then
    principal_Append (MaskBit false) ;;
    match nul_fDefaultItemValue f with
    | Some v => n ← subfield_Append v; mret (wrap64 (1 + n))
    | None => fun s => (Fatal "fDefaultItemValue", s)
    end
  else
    principal_Append (IndexValue (nul_fNWritten f)) ;;
    mret sizeof_ClusterSize_t.

Definition AppendValue (from : Item) : Method (RNullableField Item) Z :=
  nbytesItem ← subfield_Append from;
  f ← this;
  if IsDense f then
    principal_Append (MaskBit true) ;;
    mret (wrap64 (1 + nbytesItem))
  else
    assign (fun f => {| nul_base := nul_base f;
                        nul_fNWritten := wrap64 (nul_fNWritten f + 1);
                        nul_fDefaultItemValue := nul_fDefaultItemValue f;
                        nul_principal := nul_principal f; nul_items := nul_items f |}) ;;
    f ← this;
    principal_Append (IndexValue (nul_fNWritten f)) ;;
    mret (wrap64 (sizeof_ClusterSize_t + nbytesItem)).

(** The principal column read as [bool] ([Map<bool>]) and as cluster
    offsets. *)
Definition as_bool (e : PrincipalElement) : bool :=
  match e with MaskBit b => b | IndexValue n => negb (n =? 0)%Z end.
Definition as_index (e : PrincipalElement) : Z :=
  match e with MaskBit b => Z.b2z b | IndexValue n => n end.

(** [GetItemIndex], reading the principal column the field has written
    (one cluster, with id [clusterId]). *)
Definition GetItemIndex (clusterId : Z) (f : RNullableField Item) (globalIndex : nat)
  : RClusterIndex :=
  if IsDense f then
    let isValidItem := default false (as_bool <$> nul_principal f !! globalIndex) in
    if isValidItem then ColumnSource.GetClusterIndex clusterId globalIndex else nullIndex
  else
    let '(collectionStart, collectionSize) :=
      ColumnSource.GetCollectionInfo clusterId (as_index <$> nul_principal f) globalIndex in
    if bool_decide (collectionSize = 0%Z) then nullIndex else collectionStart.

End Object.
End RNullableField.

(** ** [RVariantField] *)

(** [RColumnSwitch]: the element of the switch column. *)
Record RColumnSwitch : Set := {
  sw_index : Z;
  sw_tag : Z
}.

(** A [std::variant] object in memory: the [char] at [fTagOffset] and the
    storage of the alternative in front of it. *)
Record VariantValue (Payload : Type) : Type := {
  var_index : Z;
  var_storage : Payload
}.
Arguments var_index {Payload} _.
Arguments var_storage {Payload} _.

(** The variant field: the per-alternative counters, the switch column
    [fColumns[0]], and the calls of [fSubFields[i]->Append(from)] made so
    far, as pairs of [i] and [from]. *)
Record RVariantField (Payload : Type) : Type := {
  var_fNWritten : list Z;
  var_column0 : list RColumnSwitch;
  var_appended : list (nat * VariantValue Payload)
}.
Arguments var_fNWritten {Payload} _.
Arguments var_column0 {Payload} _.
Arguments var_appended {Payload} _.

(** What [ReadGlobalImpl] does to the alternatives. *)
Inductive VariantReadEvent : Set :=
| GenerateValueBy (alternative : nat)
| SubfieldRead (alternative : nat) (variantIndex : RClusterIndex).

Module RVariantField.
Section Object.
Variable Payload : Type.

(** [fSubFields[i]->Append(from)]: the bytes it reports; [sizeof(RColumnSwitch)]. *)
Variable subfieldAppend : nat -> VariantValue Payload -> Z.
Variable sizeof_RColumnSwitch : Z.

(** [GenerateValueBy] on [fSubFields[i]] and [fSubFields[i]->Read(idx, to)]
    as functions on the storage they write. *)
Variable subfieldGenerate : nat -> Payload -> Payload.
Variable subfieldRead : nat -> RClusterIndex -> Payload -> Payload.

(** The field as the constructor leaves it ([fNWritten.resize(nFields, 0)]),
    with an empty switch column. *)
Definition connected (nFields : nat) : RVariantField Payload :=
  {| var_fNWritten := replicate nFields 0%Z; var_column0 := []; var_appended := [] |}.

Definition GetTag (variantPtr : VariantValue Payload) : Z :=
  let index := var_index variantPtr in
  to_uint32 (if (index <? 0)%Z then 0 else index + 1).

Definition SetTag (variantPtr : VariantValue Payload) (tag : Z) : VariantValue Payload :=
  {| var_index := to_char (to_uint32 (tag - 1)); var_storage := var_storage variantPtr |}.

Definition AppendImpl (from : VariantValue Payload) : Method (RVariantField Payload) Z :=
  let tag := GetTag from in
  '(nbytes, index) ←
    (if (0 <? tag)%Z then
       let i := Z.to_nat (tag - 1) in
       f ← this;
       n ← subscript (var_fNWritten f) i;
       assign (fun f => {| var_fNWritten := <[i := wrap64 (n + 1)]> (var_fNWritten f);
                           var_column0 := var_column0 f;
                           var_appended := var_appended f ++ [(i, from)] |}) ;;
       (* [auto index = 0] declares an [int]; the counter is narrowed to it *)
       mret (subfieldAppend i from, to_int n)
     else mret (0%Z, 0%Z));
  assign (fun f => {| var_fNWritten := var_fNWritten f;
                      var_column0 := var_column0 f
                                     ++ [{| sw_index := wrap64 index; sw_tag := tag |}];
                      var_appended := var_appended f |}) ;;
  mret (wrap64 (nbytes + sizeof_RColumnSwitch)).

(** [ReadGlobalImpl]: [switchInfo] is what [GetSwitchInfo] yields for the
    entry.  The result is what was done to the alternatives and the object
    [to] after the call. *)
Definition ReadGlobalImpl (switchInfo : RClusterIndex * Z) (to : VariantValue Payload)
  : list VariantReadEvent * VariantValue Payload :=
  let '(variantIndex, tag) := switchInfo in
  if (0 <? tag)%Z then
    let i := Z.to_nat (tag - 1) in
    let generated := subfieldGenerate i (var_storage to) in
    let read := subfieldRead i variantIndex generated in
    ([GenerateValueBy i; SubfieldRead i variantIndex],
     SetTag {| var_index := var_index to; var_storage := read |} tag)
  else ([], SetTag to tag).

Definition CommitCluster : Method (RVariantField Payload) unit :=
  assign (fun f => {| var_fNWritten := replicate (length (var_fNWritten f)) 0%Z;
                      var_column0 := var_column0 f;
                      var_appended := var_appended f |}).

End Object.
End RVariantField.

(** The field after [CommitCluster] and one [AppendImpl] for each of the
    values [vs], in order: one cluster being written. *)
Definition appended_in_cluster {Payload : Type}
    (subfieldAppend : nat -> VariantValue Payload -> Z) (sizeof_RColumnSwitch : Z)
    (vs : list (VariantValue Payload)) (f : RVariantField Payload)
  : RVariantField Payload :=
  foldl (fun f v => (RVariantField.AppendImpl Payload subfieldAppend sizeof_RColumnSwitch v f).2)
        (RVariantField.CommitCluster Payload f).2 vs.

(** How many of the values [vs] hold the alternative with tag [t]. *)
Definition holding {Payload : Type} (t : Z) (vs : list (VariantValue Payload)) : Z :=
  Z.of_nat (length (filter (fun v => RVariantField.GetTag Payload v = t) vs)).

(** ** [RVectorField] *)

(** What [RVectorField::ReadGlobalImpl] does to the vector [to] points to.
    Items are named by their position [i]; the code addresses item [i] at
    [typedValue->data() + (i * fItemSize)]. *)
Inductive VectorReadEvent : Set :=
| DestroyValueBy (i : Z)
| Resize (nItems : Z)
| GenerateValueAt (i : Z)
| ItemRead (clusterIndex : RClusterIndex) (i : Z).

Module RVectorField.
Section Object.
Variable masks : TraitMasks.

(** [fSubFields[0]->GetTraits()] and [fItemSize]. *)
Variable itemTraits : Z.
Variable fItemSize : Z.

Definition has_trait (mask : Z) : bool := negb (Z.land itemTraits mask =? 0)%Z.

Definition advance (start : RClusterIndex) (i : Z) : RClusterIndex :=
  {| fClusterId := fClusterId start; fIndex := wrap64 (fIndex start + i) |}.

(** [ReadGlobalImpl]: [collectionStart] and [nItems] are what
    [GetCollectionInfo] yields for the entry, [size] is
    [typedValue->size()] before the call. *)
Definition ReadGlobalImpl (collectionStart : RClusterIndex) (nItems : Z) (size : Z)
  : list VectorReadEvent :=
  (if has_trait (kTraitTrivialType masks) then
     [Resize nItems]
   else
     let oldNItems := (size / fItemSize)%Z in
     let canRealloc := (oldNItems <? nItems)%Z in
     let allDeallocated :=
       if negb (has_trait (kTraitTriviallyDestructible masks)) then canRealloc else false in
     (if negb (has_trait (kTraitTriviallyDestructible masks)) then
        DestroyValueBy <$> loop_range (if allDeallocated then 0 else nItems) oldNItems
      else [])
     ++ [Resize nItems]
     ++ (if negb (has_trait (kTraitTriviallyConstructible masks)) then
           GenerateValueAt <$> loop_range (if allDeallocated then 0 else oldNItems) nItems
         else []))
  ++ ((fun i => ItemRead (advance collectionStart i) i) <$> loop_range 0 nItems).

End Object.
End RVectorField.

(** The positions at which an event list runs a placement constructor,
    destroys an item, reads an item. *)
Definition constructed_by (events : list VectorReadEvent) : list Z :=
  omap (fun e => match e with GenerateValueAt i => Some i | _ => None end) events.
Definition destroyed_by (events : list VectorReadEvent) : list Z :=
  omap (fun e => match e with DestroyValueBy i => Some i | _ => None end) events.
Definition read_by (events : list VectorReadEvent) : list Z :=
  omap (fun e => match e with ItemRead _ i => Some i | _ => None end) events.

(** The claim about a read that grows a vector from [old] to [n] items,
    as the spec words it: the items present are left alone, the new tail
    is constructed, all items are read. *)
Definition keeps_items_and_constructs_tail (events : list VectorReadEvent) (old n : Z)
  : Prop :=
  destroyed_by events = [] /\ constructed_by events = loop_range old n
  /\ read_by events = loop_range 0 n.

(** ** [RRVecField] *)

(** The three data members at the start of an [RVec] object. *)
Record RVecMembers : Set := {
  rv_begin : Z;
  rv_size : Z;
  rv_capacity : Z
}.

Inductive RVecDestroyEvent : Set :=
| DestroyElement (address : Z)
| Free (address : Z).

Module RRVecField.
Section Object.
Variable masks : TraitMasks.

(** [fSubFields[0]]: its traits, alignment and value size; [fItemSize]. *)
Variable itemTraits : Z.
Variable alignOfT : Z.
Variable sizeOfT : Z.
Variable fItemSize : Z.

Definition dataMemberSz : Z := sizeof_voidp + 2 * sizeof_int32.

(** [GetRVecDataMembers]: the members read at [rvecPtr], with the two
    assertions on them. *)
Definition GetRVecDataMembers (rvec : RVecMembers) : Outcome RVecMembers :=
  if negb (0 <=? rv_size rvec)%Z then Fatal "*size >= 0"
  else if negb (-1 <=? rv_capacity rvec)%Z then Fatal "*capacity >= -1"
  else Normal rvec.

(** [DestroyValue(objPtr, dtorOnly)] on the object at address [objPtr]
    whose members are [rvec].  [beginPtr] is a pointer to pointers, so
    [beginPtr + k] is the address [objPtr + k * sizeof_voidp]. *)
Definition DestroyValue (objPtr : Z) (rvec : RVecMembers) (dtorOnly : bool)
  : Outcome (list RVecDestroyEvent) :=
  match GetRVecDataMembers rvec with
  | Normal members =>
      let beginPtr := objPtr in
      let begin := rv_begin members in
      let destroy :=
        if (Z.land itemTraits (kTraitTriviallyDestructible masks) =? 0)%Z then
          (fun i => DestroyElement (begin + i * fItemSize)%Z)
            <$> loop_range 0 (rv_size members)
        else [] in
      let paddingMiddle := (dataMemberSz mod alignOfT)%Z in
      let paddingMiddle :=
        if negb (paddingMiddle =? 0)%Z then (alignOfT - paddingMiddle)%Z
        else paddingMiddle in
      let isSmall :=
        (begin =? beginPtr + (dataMemberSz + paddingMiddle) * sizeof_voidp)%Z in
      let owns := negb (rv_capacity members =? -1)%Z in
      Normal (destroy
              ++ (if negb isSmall && owns then [Free begin] else [])
              ++ (if negb dtorOnly then [Free beginPtr] else []))
  | Throw what => Throw what
  | Fatal expr => Fatal expr
  end.

(** [GetAlignment]: the largest alignment among the data members. *)
Definition GetAlignment : Z := Z.max (Z.max sizeof_voidp sizeof_int32) alignOfT.

Definition EvalValueSize : Z :=
  let cacheLineSize := 64%Z in
  let elementsPerCacheLine := to_uint32 ((cacheLineSize - dataMemberSz) / sizeOfT) in
  let maxInlineByteSize := 1024%Z in
  let nElements :=
    if (8 <=? elementsPerCacheLine)%Z then elementsPerCacheLine
    else if (maxInlineByteSize <? wrap64 (sizeOfT * 8))%Z then 0%Z else 8%Z in
  let inlineStorageSz := wrap64 (nElements * sizeOfT) in
  let paddingMiddle := (dataMemberSz mod alignOfT)%Z in
  let paddingMiddle :=
    if negb (paddingMiddle =? 0)%Z then (alignOfT - paddingMiddle)%Z
    else paddingMiddle in
  let alignOfRVecT := GetAlignment in
  let paddingEnd := ((dataMemberSz + paddingMiddle + inlineStorageSz) mod alignOfRVecT)%Z in
  let paddingEnd :=
    if negb (paddingEnd =? 0)%Z then (alignOfRVecT - paddingEnd)%Z else paddingEnd in
  wrap64 (dataMemberSz + inlineStorageSz + paddingMiddle + paddingEnd).

(** The padding between [fCapacity] and the inline buffer that
    [EvalValueSize] accounts for, and the address of the inline buffer of
    the object at [objPtr] that follows from it. *)
Definition paddingMiddle : Z :=
  let p := (dataMemberSz mod alignOfT)%Z in
  if negb (p =? 0)%Z then (alignOfT - p)%Z else p.

Definition inlineBuffer (objPtr : Z) : Z := (objPtr + dataMemberSz + paddingMiddle)%Z.

End Object.
End RRVecField.

(** ** Field trees *)

(** A [TClass], named by the class it describes. *)
Definition TClass : Set := string.

(** The dynamic type of a field object, with the members of the derived
    class that [CloneImpl] hands to the constructor.  [LeafField] stands
    for the kinds without subfields whose [CloneImpl] is defined in
    RField.hxx: [RField<T>] for the primitive types, for [std::string] and
    for the cardinality, and [RBitsetField].  [RField<std::vector<bool>>],
    whose [CloneImpl] is in RField.hxx as well and which has a subfield,
    is not among the kinds. *)
Inductive FieldKind : Set :=
| FieldZero
| LeafField
| ClassField (fClass : TClass)
| EnumField
| CollectionClassField (collectionClass : TClass)
| RecordField (fOffsets : list Z)
| VectorField
| RVecField
| ArrayField (fArrayLength : Z)
| VariantField
| UniquePtrField
| PairField (fOffsets : list Z)
| TupleField (fOffsets : list Z)
| CollectionField.

(** A field object: the address it lives at, its [RFieldBase] members,
    its dynamic type and the fields its [fSubFields] own. *)
#[warnings="-register-all"]
Inductive Field : Type :=
| MkField (fThis : nat) (self : RFieldBase) (kind : FieldKind) (fSubFields : list Field).

Definition fThis (F : Field) : nat := match F with MkField a _ _ _ => a end.
Definition self (F : Field) : RFieldBase := match F with MkField _ s _ _ => s end.
Definition kind (F : Field) : FieldKind := match F with MkField _ _ k _ => k end.
Definition fSubFields (F : Field) : list Field := match F with MkField _ _ _ l => l end.

Definition set_self (s : RFieldBase) (F : Field) : Field :=
  match F with MkField a _ k l => MkField a s k l end.

(** The addresses of the objects of a tree. *)
Fixpoint addresses (F : Field) : list nat :=
  match F with
  | MkField a _ _ l => a :: (fix go (l : list Field) : list nat :=
                               match l with
                               | [] => []
                               | c :: l' => addresses c ++ go l'
                               end) l
  end.

(** The descendants of a field in the order in which the schema iterator
    ([begin()] to [end()]) visits them: each subfield, followed by its own
    descendants, before the next subfield. *)
Fixpoint descendants (F : Field) : list Field :=
  match F with
  | MkField _ _ _ l => (fix go (l : list Field) : list Field :=
                          match l with
                          | [] => []
                          | c :: l' => c :: descendants c ++ go l'
                          end) l
  end.

Definition set_fOnDiskId (id : Z) (f : RFieldBase) : RFieldBase :=
  {| fName := fName f; fType := fType f; fStructure := fStructure f;
     fNRepetitions := fNRepetitions f; fIsSimple := fIsSimple f; fTraits := fTraits f;
     fTypeAlias := fTypeAlias f; fDescription := fDescription f;
     fOnDiskId := id; fOnDiskTypeVersion := fOnDiskTypeVersion f;
     fColumnRepresentative := fColumnRepresentative f; fColumns := fColumns f;
     fPrincipalColumn := fPrincipalColumn f |}.

Definition set_fTraits (t : Z) (f : RFieldBase) : RFieldBase :=
  {| fName := fName f; fType := fType f; fStructure := fStructure f;
     fNRepetitions := fNRepetitions f; fIsSimple := fIsSimple f; fTraits := t;
     fTypeAlias := fTypeAlias f; fDescription := fDescription f;
     fOnDiskId := fOnDiskId f; fOnDiskTypeVersion := fOnDiskTypeVersion f;
     fColumnRepresentative := fColumnRepresentative f; fColumns := fColumns f;
     fPrincipalColumn := fPrincipalColumn f |}.

Definition set_fDescription (d : string) (f : RFieldBase) : RFieldBase :=
  {| fName := fName f; fType := fType f; fStructure := fStructure f;
     fNRepetitions := fNRepetitions f; fIsSimple := fIsSimple f; fTraits := fTraits f;
     fTypeAlias := fTypeAlias f; fDescription := d;
     fOnDiskId := fOnDiskId f; fOnDiskTypeVersion := fOnDiskTypeVersion f;
     fColumnRepresentative := fColumnRepresentative f; fColumns := fColumns f;
     fPrincipalColumn := fPrincipalColumn f |}.

(** The four assignments at the end of [RFieldBase::Clone]. *)
Definition copy_clone_members (from clone : RFieldBase) : RFieldBase :=
  {| fName := fName clone; fType := fType clone; fStructure := fStructure clone;
     fNRepetitions := fNRepetitions clone; fIsSimple := fIsSimple clone;
     fTraits := fTraits clone;
     fTypeAlias := fTypeAlias from; fDescription := fDescription from;
     fOnDiskId := fOnDiskId from; fOnDiskTypeVersion := fOnDiskTypeVersion clone;
     fColumnRepresentative := fColumnRepresentative from; fColumns := fColumns clone;
     fPrincipalColumn := fPrincipalColumn clone |}.

(** [SyncFieldIDs(from, to)]: the loop sets the id of the next field of
    [to] from the next field of [from] until [from] has no field left.
    [sync ids F] does so for [F] and its descendants, [ids] being the ids
    still to hand out; it returns the ids left over. *)
Fixpoint sync (ids : list Z) (F : Field) {struct F} : Field * list Z :=
  match F with
  | MkField a s k l =>
      match ids with
      | [] => (F, [])
      | id :: ids1 =>
          let '(l', ids2) :=
            (fix go (l : list Field) (ids : list Z) : list Field * list Z :=
               match l with
               | [] => ([], ids)
               | c :: l1 =>
                   let '(c', ids') := sync ids c in
                   let '(l1', ids'') := go l1 ids' in
                   (c' :: l1', ids'')
               end) l ids1 in
          (MkField a (set_fOnDiskId id s) k l', ids2)
      end
  end.

Fixpoint sync_all (ids : list Z) (l : list Field) : list Field * list Z :=
  match l with
  | [] => ([], ids)
  | c :: l1 =>
      let '(c', ids') := sync ids c in
      let '(l1', ids'') := sync_all ids' l1 in
      (c' :: l1', ids'')
  end.

Definition SyncFieldIDs (from to : Field) : Field :=
  match to with
  | MkField a s k l =>
      MkField a s k (sync_all ((fun d => fOnDiskId (self d)) <$> descendants from) l).1
  end.

(** [new]: the next free address. *)
Definition allocate : Method nat nat := fun next => (Normal next, S next).

(** A constructor call: the object gets an address of its own. *)
Definition construct (s : RFieldBase) (k : FieldKind) (l : list Field) : Method nat Field :=
  a ← allocate; mret (MkField a s k l).

(** A tree built by [RFieldBase::Create]: every field of the blueprint
    [F] is a newly allocated object. *)
Fixpoint create (F : Field) : Method nat Field :=
  match F with
  | MkField _ s k l =>
      l' ← (fix go (l : list Field) : Method nat (list Field) :=
              match l with
              | [] => mret []
              | c :: l1 => c' ← create c; l1' ← go l1; mret (c' :: l1')
              end) l;
      construct s k l'
  end.

Fixpoint create_all (l : list Field) : Method nat (list Field) :=
  match l with
  | [] => mret []
  | c :: l1 => c' ← create c; l1' ← create_all l1; mret (c' :: l1')
  end.

(** [result.pop_back()]. *)
Fixpoint pop_back (s : string) : string :=
  match s with
  | "" => ""
  | String c "" => ""
  | String c s' => String c (pop_back s')
  end.

(** The loop of [GetTypeList] over the type names of the items. *)
Definition join_types (types : list string) : string :=
  foldl (fun result t => result +:+ t +:+ ",") "" types.

Definition fatal {S A : Type} (expr : string) : Method S A := fun s => (Fatal expr, s).

(** Two trees agree field by field, as far as [R] compares the members of
    [RFieldBase], and field by field they have equally many subfields. *)
Fixpoint similar (R : RFieldBase -> RFieldBase -> bool) (F G : Field) {struct F} : bool :=
  match F, G with
  | MkField _ s _ l, MkField _ s' _ l' =>
      R s s' && (fix go (l l' : list Field) : bool :=
                   match l, l' with
                   | [], [] => true
                   | c :: l1, c' :: l1' => similar R c c' && go l1 l1'
                   | _, _ => false
                   end) l l'
  end.

Fixpoint similar_all (R : RFieldBase -> RFieldBase -> bool) (l l' : list Field) : bool :=
  match l, l' with
  | [], [] => true
  | c :: l1, c' :: l1' => similar R c c' && similar_all R l1 l1'
  | _, _ => false
  end.

Definition same_type (s s' : RFieldBase) : bool :=
  bool_decide (fType s = fType s') && bool_decide (fStructure s = fStructure s').

Definition same_type_and_id (s s' : RFieldBase) : bool :=
  same_type s s' && bool_decide (fOnDiskId s = fOnDiskId s').

(** Isomorphic trees: the same shape, and in corresponding fields the same
    type name, structure and on-disk id. *)
Definition isomorphic (F G : Field) : bool := similar same_type_and_id F G.

(** Induction over field trees, with the property at hand for every
    subfield. *)
Section Field_induction.
Variable P : Field -> Prop.
Hypothesis node : forall a s k l, Forall P l -> P (MkField a s k l).

Fixpoint Field_nested_ind (F : Field) : P F :=
  match F with
  | MkField a s k l =>
      node a s k l
        ((fix go (l : list Field) : Forall P l :=
            match l with
            | [] => List.Forall_nil P
            | c :: l1 => List.Forall_cons P c l1 (Field_nested_ind c) (go l1)
            end) l)
  end.

End Field_induction.

Fixpoint addresses_all (l : list Field) : list nat :=
  match l with
  | [] => []
  | c :: l' => addresses c ++ addresses_all l'
  end.

Fixpoint descendants_all (l : list Field) : list Field :=
  match l with
  | [] => []
  | c :: l' => c :: descendants c ++ descendants_all l'
  end.

(** [m], started in state [s], returns [a] and leaves state [s']. *)
Definition runs {S A : Type} (m : Method S A) (s : S) (a : A) (s' : S) : Prop :=
  m s = (Normal a, s').

(** Addresses lying in a range of the allocator. *)
Definition within (n n' : nat) (l : list nat) : Prop := Forall (fun a => n <= a < n')%nat l.

(** The on-disk ids of a list of fields. *)
Definition ids (l : list Field) : list Z := (fun d => fOnDiskId (self d)) <$> l.

(** What [Clone] promises about the clone [F'] of [F], made while the
    allocator went from [n] to [n']. *)
Definition cloned (F : Field) (n : nat) (F' : Field) (n' : nat) : Prop :=
  isomorphic F F' = true
  /\ fTypeAlias (self F') = fTypeAlias (self F)
  /\ fDescription (self F') = fDescription (self F)
  /\ fColumnRepresentative (self F') = fColumnRepresentative (self F)
  /\ fColumns (self F') = []
  /\ (n < n')%nat
  /\ within n n' (addresses F').

(** ** [Clone] *)

Module Cloning.
Section Introspection.
Variable masks : TraitMasks.

(** What the constructors of [RClassField] and [RCollectionClassField]
    obtain from [TClass] and [RFieldBase::Create]: for a class, the traits
    the constructor ends up with and the subfield trees it attaches, in
    order; for a collection class, the tree of its item field [_0]. *)
Variable class_traits : TClass -> Z.
Variable class_subfields : TClass -> list Field.
Variable collection_item : TClass -> Field.

(** Modelled from the spec: the constructor of [RFieldZero] is defined in
    RField.hxx, which is not among the sources; the root of a field tree
    has no name and no type, and its subfields are the top-level fields of
    a record. *)
Definition RFieldZero_ctor : RFieldBase :=
  RFieldBase.ctor masks "" "" kRecord false 0.

(** Modelled from the spec: [CloneImpl] of the kinds without subfields is
    defined in RField.hxx, which is not among the sources; the clone is a
    newly constructed field of the same kind under the new name, so with
    the type name, structure, repetition count and traits of the
    original. *)
Definition LeafField_ctor (newName : string) (s : RFieldBase) : RFieldBase :=
  set_fTraits (fTraits s)
    (RFieldBase.ctor masks newName (fType s) (fStructure s) (fIsSimple s) (fNRepetitions s)).

Definition and_item_traits (t : Z) (items : list RFieldBase) : Z :=
  foldl (fun acc item => Z.land acc (fTraits item)) t items.

Definition REnumField_ctor (fieldName enumName : string) : RFieldBase :=
  let base := RFieldBase.ctor masks fieldName enumName kLeaf false 0 in
  set_fTraits (Z.lor (fTraits base)
                 (Z.lor (kTraitTriviallyConstructible masks)
                        (kTraitTriviallyDestructible masks))) base.

Definition RRecordField_ctor (fieldName : string) (itemFields : list RFieldBase)
    (typeName : string) : RFieldBase :=
  let base := RFieldBase.ctor masks fieldName typeName kRecord false 0 in
  set_fTraits (and_item_traits (Z.lor (fTraits base) (kTraitTrivialType masks)) itemFields)
    base.

Definition RVectorField_ctor (fieldName : string) (itemField : RFieldBase) : RFieldBase :=
  RFieldBase.ctor masks fieldName ("std::vector<" +:+ fType itemField +:+ ">")
    kCollection false 0.

Definition RRVecField_ctor (fieldName : string) (itemField : RFieldBase) : RFieldBase :=
  RFieldBase.ctor masks fieldName ("ROOT::VecOps::RVec<" +:+ fType itemField +:+ ">")
    kCollection false 0.

Definition RVariantField_ctor (fieldName : string) (itemFields : list RFieldBase)
  : RFieldBase :=
  let base :=
    RFieldBase.ctor masks fieldName
      ("std::variant<" +:+ pop_back (join_types (fType <$> itemFields)) +:+ ">")
      kVariant false 0 in
  set_fTraits
    (and_item_traits
       (Z.lor (fTraits base)
          (Z.land (kTraitTriviallyDestructible masks)
                  (Z.lnot (kTraitTriviallyConstructible masks))))
       itemFields)
    base.

Definition RNullableField_ctor (fieldName typeName : string) : RFieldBase :=
  RFieldBase.ctor masks fieldName typeName kCollection false 0.

Definition RPairField_ctor (fieldName : string) (itemFields : list RFieldBase) : RFieldBase :=
  RRecordField_ctor fieldName itemFields
    ("std::pair<" +:+ default "" (fType <$> itemFields !! 0%nat) +:+ ","
     +:+ default "" (fType <$> itemFields !! 1%nat) +:+ ">").

Definition RTupleField_ctor (fieldName : string) (itemFields : list RFieldBase) : RFieldBase :=
  RRecordField_ctor fieldName itemFields
    ("std::tuple<" +:+ pop_back (join_types (fType <$> itemFields)) +:+ ">").

Definition RCollectionField_ctor (name : string) : RFieldBase :=
  set_fDescription "" (RFieldBase.ctor masks name "" kCollection true 0).

Definition RClassField_ctor (fieldName className : string) (classp : TClass)
  : Method nat Field :=
  subfields ← create_all (class_subfields classp);
  construct (set_fTraits (class_traits classp)
               (RFieldBase.ctor masks fieldName className kRecord false 0))
            (ClassField classp) subfields.

Definition RCollectionClassField_ctor (fieldName className : string) (classp : TClass)
  : Method nat Field :=
  itemField ← create (collection_item classp);
  construct (RFieldBase.ctor masks fieldName className kCollection false 0)
            (CollectionClassField classp) [itemField].

(** [CloneImpl], by the dynamic type of [F].  [clone_each] stands for the
    loop that clones every subfield under its own name, [clone_0] and
    [clone_1] for [fSubFields[0]->Clone(...)] and [fSubFields[1]->Clone(...)]. *)
Definition CloneImpl (F : Field) (newName : string)
    (clone_each : Method nat (list Field)) (clone_0 clone_1 : Method nat Field)
  : Method nat Field :=
  let s := self F in
  match kind F with
  | FieldZero =>
      a ← allocate; items ← clone_each;
      mret (MkField a RFieldZero_ctor FieldZero items)
  | LeafField => construct (LeafField_ctor newName s) LeafField []
  | ClassField fClass =>
      result ← RClassField_ctor newName (fType s) fClass;
      mret (SyncFieldIDs F result)
  | EnumField =>
      newIntField ← clone_0;
      construct (REnumField_ctor newName (fType s)) EnumField [newIntField]
  | CollectionClassField collectionClass =>
      result ← RCollectionClassField_ctor newName (fType s) collectionClass;
      mret (SyncFieldIDs F result)
  | RecordField fOffsets =>
      cloneItems ← clone_each;
      construct (RRecordField_ctor newName (self <$> cloneItems) (fType s))
                (RecordField fOffsets) cloneItems
  | VectorField =>
      newItemField ← clone_0;
      construct (RVectorField_ctor newName (self newItemField)) VectorField [newItemField]
  | RVecField =>
      newItemField ← clone_0;
      construct (RRVecField_ctor newName (self newItemField)) RVecField [newItemField]
  | ArrayField fArrayLength =>
      newItemField ← clone_0;
      construct (RArrayField.ctor masks newName (self newItemField) fArrayLength)
                (ArrayField fArrayLength) [newItemField]
  | VariantField =>
      itemFields ← clone_each;
      R__ASSERT (negb (bool_decide (join_types (fType <$> (self <$> itemFields)) = "")))
                "!result.empty()" ;;
      R__ASSERT (bool_decide (0 < length itemFields)%nat) "nFields > 0" ;;
      construct (RVariantField_ctor newName (self <$> itemFields)) VariantField itemFields
  | UniquePtrField =>
      newItemField ← clone_0;
      construct (RNullableField_ctor newName (fType s)) UniquePtrField [newItemField]
  | PairField fOffsets =>
      item0 ← clone_0; item1 ← clone_1;
      off0 ← subscript fOffsets 0; off1 ← subscript fOffsets 1;
      construct (RPairField_ctor newName [self item0; self item1])
                (PairField [off0; off1]) [item0; item1]
  | TupleField fOffsets =>
      items ← clone_each;
      (if bool_decide (items = []) then
         throw "the type list for std::tuple must have at least one element"
       else mret tt) ;;
      construct (RTupleField_ctor newName (self <$> items)) (TupleField fOffsets) items
  | CollectionField =>
      a ← allocate; clones ← clone_each;
      mret (MkField a (RCollectionField_ctor newName) CollectionField clones)
  end.

(** [RFieldBase::Clone]. *)
Fixpoint Clone (F : Field) (newName : string) {struct F} : Method nat Field :=
  match F with
  | MkField _ s _ l =>
      clone ← CloneImpl F newName
                 ((fix go (l : list Field) : Method nat (list Field) :=
                     match l with
                     | [] => mret []
                     | c :: l1 =>
                         c' ← Clone c (fName (self c)); l1' ← go l1; mret (c' :: l1')
                     end) l)
                 (match l with
                  | c :: _ => Clone c (fName (self c))
                  | [] => fatal "fSubFields[0]"
                  end)
                 (match l with
                  | _ :: c :: _ => Clone c (fName (self c))
                  | _ => fatal "fSubFields[1]"
                  end);
      mret (set_self (copy_clone_members s (self clone)) clone)
  end.

Fixpoint Clone_each (l : list Field) : Method nat (list Field) :=
  match l with
  | [] => mret []
  | c :: l1 => c' ← Clone c (fName (self c)); l1' ← Clone_each l1; mret (c' :: l1')
  end.

(** A tree as the constructors build it: the type name of a field is the
    one its constructor computes from its subfields, the structure is the
    one of its kind, and it has the subfields its kind has.  The subfields
    of a class field are those the constructor creates for the class. *)
Fixpoint well_constructed (F : Field) {struct F} : bool :=
  match F with
  | MkField _ s k l =>
      let types := (fun c => fType (self c)) <$> l in
      match k with
      | FieldZero => bool_decide (fType s = "") && bool_decide (fStructure s = kRecord)
      | LeafField => bool_decide (l = [])
      | ClassField fClass =>
          bool_decide (fStructure s = kRecord)
          && similar_all same_type l (class_subfields fClass)
      | EnumField => bool_decide (fStructure s = kLeaf) && bool_decide (length l = 1%nat)
      | CollectionClassField collectionClass =>
          bool_decide (fStructure s = kCollection)
          && similar_all same_type l [collection_item collectionClass]
      | RecordField _ => bool_decide (fStructure s = kRecord)
      | VectorField =>
          bool_decide (fStructure s = kCollection) && bool_decide (length l = 1%nat)
          && bool_decide (fType s = "std::vector<" +:+ default "" (types !! 0%nat) +:+ ">")
      | RVecField =>
          bool_decide (fStructure s = kCollection) && bool_decide (length l = 1%nat)
          && bool_decide (fType s
                          = "ROOT::VecOps::RVec<" +:+ default "" (types !! 0%nat) +:+ ">")
      | ArrayField fArrayLength =>
          bool_decide (fStructure s = kLeaf) && bool_decide (length l = 1%nat)
          && bool_decide (fType s
                          = "std::array<" +:+ default "" (types !! 0%nat) +:+ ","
                            +:+ RArrayField.to_string fArrayLength +:+ ">")
      | VariantField =>
          bool_decide (fStructure s = kVariant) && bool_decide (0 < length l)%nat
          && bool_decide (fType s = "std::variant<" +:+ pop_back (join_types types) +:+ ">")
      | UniquePtrField =>
          bool_decide (fStructure s = kCollection) && bool_decide (length l = 1%nat)
      | PairField fOffsets =>
          bool_decide (fStructure s = kRecord) && bool_decide (length l = 2%nat)
          && bool_decide (length fOffsets = 2%nat)
          && bool_decide (fType s
                          = "std::pair<" +:+ default "" (types !! 0%nat) +:+ ","
                            +:+ default "" (types !! 1%nat) +:+ ">")
      | TupleField _ =>
          bool_decide (fStructure s = kRecord) && bool_decide (0 < length l)%nat
          && bool_decide (fType s = "std::tuple<" +:+ pop_back (join_types types) +:+ ">")
      | CollectionField =>
          bool_decide (fType s = "") && bool_decide (fStructure s = kCollection)
      end
      && match k with
         | ClassField _ | CollectionClassField _ => true
         | _ => (fix go (l : list Field) : bool :=
                   match l with
                   | [] => true
                   | c :: l1 => well_constructed c && go l1
                   end) l
         end
  end.

(** [Clone] returns for a well-constructed [c], with a clone as promised. *)
Definition clones_well (c : Field) : Prop :=
  well_constructed c = true ->
  forall newName n, exists F' n', runs (Clone c newName) n F' n' /\ cloned c n F' n'.

End Introspection.
End Cloning.

(** ** The field kinds of RField.cxx *)

(** The tables the overrides of [GetColumnRepresentations] return, the one
    of [RFieldBase] included. *)
Definition all_representations : list RColumnRepresentations :=
  [ Representations.RFieldBase_; Representations.RField_ClusterSize_t;
    Representations.RCardinalityField; Representations.RField_char;
    Representations.RField_int8; Representations.RField_uint8;
    Representations.RField_bool; Representations.RField_float;
    Representations.RField_double; Representations.RField_int16;
    Representations.RField_uint16; Representations.RField_int32;
    Representations.RField_uint32; Representations.RField_uint64;
    Representations.RField_int64; Representations.RField_string;
    Representations.RCollectionClassField; Representations.RVectorField;
    Representations.RRVecField; Representations.RField_vector_bool;
    Representations.RBitsetField; Representations.RVariantField;
    Representations.RNullableField; Representations.RCollectionField ].

(** The column types [AutoAdjustColumnTypes] replaces when the data are
    not compressed. *)
Definition split_and_unsplit : list EColumnType :=
  [ kSplitIndex64; kSplitIndex32; kSplitReal64; kSplitReal32;
    kSplitInt64; kSplitInt32; kSplitInt16 ].

(** ** [RUniquePtrField] *)

(** [for (x : l) m(x);] *)
Fixpoint for_each {S A B : Type} (m : A -> Method S B) (l : list A) : Method S unit :=
  match l with
  | [] => mret tt
  | a :: l' => m a ;; for_each m l'
  end.

(** What [RUniquePtrField::ReadGlobalImpl] does with the [std::unique_ptr]
    and the object it owns. *)
Inductive UniquePtrReadEvent : Set :=
| PtrRelease
| ItemDestroy (valuePtr : Z) (dtorOnly : bool)
| ItemMalloc (size : Z) (valuePtr : Z)
| ItemGenerate (valuePtr : Z)
| PtrReset (valuePtr : Z)
| ItemReadAt (itemIndex : RClusterIndex) (valuePtr : Z).

Module RUniquePtrField.
Section Object.
Variable Item : Type.
Variable itemValueSize : Z.
Variable itemAppend : Item -> Z.

(** [AppendImpl]: [from] is the object the [std::unique_ptr] owns, if it
    owns one. *)
Definition AppendImpl (from : option Item) : Method (RNullableField Item) Z :=
  match from with
  | Some value => RNullableField.AppendValue Item itemAppend value
  | None => RNullableField.AppendNull Item itemAppend
  end.

(** [ReadGlobalImpl]: [itemIndex] is what [GetItemIndex(globalIndex)]
    returns, [ptr] the address held by the [std::unique_ptr] before the
    call ([None] for an empty one; [nullptr] is the address 0),
    [allocated] the address [malloc] returns if it is called.  The result is what is done, in order, and
    the address the [std::unique_ptr] holds after the call. *)
Definition ReadGlobalImpl (itemIndex : RClusterIndex) (ptr : option Z) (allocated : Z)
  : list UniquePtrReadEvent * option Z :=
  let isValidValue := bool_decide (is_Some ptr) in
  let isValidItem := negb (bool_decide (fIndex itemIndex = kInvalidClusterIndex)) in
  let valuePtr := if isValidValue then default 0%Z ptr else 0%Z in
  if isValidValue && negb isValidItem then
    ([PtrRelease; ItemDestroy valuePtr false], None)
  else if negb isValidItem then ([], ptr)
  else
    let '(generated, valuePtr, ptr) :=
      if negb isValidValue then
        ([ItemMalloc itemValueSize allocated; ItemGenerate allocated; PtrReset allocated],
         allocated, Some allocated)
      else ([], valuePtr, ptr) in
    (generated ++ [ItemReadAt itemIndex valuePtr], ptr).

End Object.
End RUniquePtrField.

(** The number of objects among the first values of a list of optional
    values, and the value the counter of a nullable field has after each
    of them, starting from [n]. *)
Definition present {A : Type} (vs : list (option A)) : Z :=
  Z.of_nat (length (omap id vs)).

Fixpoint running {A : Type} (n : Z) (vs : list (option A)) : list Z :=
  match vs with
  | [] => []
  | None :: vs' => n :: running n vs'
  | Some _ :: vs' => (n + 1)%Z :: running (n + 1) vs'
  end.

(** ** Strings, any number of entries *)

(** The characters of a list of strings, one string after the other, and
    the value the cumulative index of a string field has after each of
    them, starting from [n]. *)
Definition characters (ss : list string) : list Ascii.ascii :=
  concat (RField_string.data <$> ss).

Fixpoint offsets (n : Z) (ss : list string) : list Z :=
  match ss with
  | [] => []
  | s :: ss' =>
      let n' := (n + Z.of_nat (String.length s))%Z in
      n' :: offsets n' ss'
  end.

(** ** The items of a vector under a read *)

(** The positions of the constructed items of a [std::vector], as a list
    of events changes them; [size] is the number of items the vector has
    room for.  An item is destroyed only while it is constructed, a resize
    drops no constructed item, an item is constructed only within the
    size of the vector and not over a constructed one, and an item is read
    only while it is constructed.  The result is [None] when the events
    break one of these rules, and the constructed items at the end
    otherwise. *)
Fixpoint vector_lifecycle (size : Z) (live : list Z) (events : list VectorReadEvent)
  : option (list Z) :=
  match events with
  | [] => Some live
  | DestroyValueBy i :: events' =>
      if bool_decide (i ∈ live)
      then vector_lifecycle size (filter (fun j => j <> i) live) events'
      else None
  | Resize nItems :: events' =>
      if bool_decide (Forall (fun j => j < nItems)%Z live)
      then vector_lifecycle nItems live events'
      else None
  | GenerateValueAt i :: events' =>
      if bool_decide ((0 <= i < size)%Z /\ i ∉ live)
      then vector_lifecycle size (live ++ [i]) events'
      else None
  | ItemRead _ i :: events' =>
      if bool_decide (i ∈ live) then vector_lifecycle size live events' else None
  end.

(** ** Reading into an [RVec] *)

(** What [RRVecField::ReadGlobalImpl] does to the buffer of an [RVec] and
    to the items in it.  An item is named by the buffer and its position
    [i]; the code addresses it at [begin + (i * fItemSize)]. *)
Inductive RVecReadEvent : Set :=
| RVecDestroyValueBy (begin i : Z)
| RVecFree (begin : Z)
| RVecMalloc (nbytes begin : Z)
| RVecGenerateValueBy (begin i : Z)
| RVecItemRead (clusterIndex : RClusterIndex) (begin i : Z).

Module RRVecFieldValue.
Section Object.
Variable masks : TraitMasks.

(** [fSubFields[0]->GetTraits()] and [fItemSize]. *)
Variable itemTraits : Z.
Variable fItemSize : Z.

(** [GenerateValue]: the three data members it initialises. *)
Definition GenerateValue : RVecMembers :=
  {| rv_begin := 0; rv_size := 0; rv_capacity := 0 |}.

(** [ReadGlobalImpl]: [collectionStart] and [nItems] are what
    [GetCollectionInfo] yields for the entry, [rvec] the data members of
    the object [to] points to, [allocated] the address [malloc] returns if
    it is called.  The result is what is done, in order, and the data
    members after the call. *)
Definition ReadGlobalImpl (collectionStart : RClusterIndex) (nItems : Z)
    (rvec : RVecMembers) (allocated : Z)
  : Outcome (list RVecReadEvent * RVecMembers) :=
  match RRVecField.GetRVecDataMembers rvec with
  | Normal members =>
      let begin := rv_begin members in
      let oldSize := rv_size members in
      let needsConstruct := (Z.land itemTraits (kTraitTriviallyConstructible masks) =? 0)%Z in
      let needsDestruct := (Z.land itemTraits (kTraitTriviallyDestructible masks) =? 0)%Z in
      let destroyExcess :=
        if needsDestruct then RVecDestroyValueBy begin <$> loop_range nItems oldSize
        else [] in
      let reallocated :=
        if (rv_capacity members <? to_int nItems)%Z then
          let destroyOld :=
            if needsDestruct then RVecDestroyValueBy begin <$> loop_range 0 oldSize
            else [] in
          if (allocated =? 0)%Z then Fatal "*beginPtr != nullptr"
          else
            Normal (destroyOld
                    ++ [RVecFree begin; RVecMalloc (wrap64 (nItems * fItemSize)) allocated]
                    ++ (if needsConstruct
                        then RVecGenerateValueBy allocated <$> loop_range 0 oldSize
                        else []),
                    allocated, to_int nItems)
        else Normal ([], begin, rv_capacity members) in
      match reallocated with
      | Normal (events, begin, capacity) =>
          Normal (destroyExcess ++ events
                  ++ (if needsConstruct
                      then RVecGenerateValueBy begin <$> loop_range oldSize nItems
                      else [])
                  ++ ((fun i => RVecItemRead (RVectorField.advance collectionStart i) begin i)
                        <$> loop_range 0 nItems),
                  {| rv_begin := begin; rv_size := to_int nItems; rv_capacity := capacity |})
      | Throw what => Throw what
      | Fatal expr => Fatal expr
      end
  | Throw what => Throw what
  | Fatal expr => Fatal expr
  end.

End Object.
End RRVecFieldValue.

(** The buffers on the heap, each with its size in bytes, and the
    constructed items, as a list of events changes them.  An item is
    destroyed or read only while it is constructed; a buffer is freed only
    while it is on the heap and holds no constructed item ([free] of the
    null pointer does nothing); [malloc] returns a buffer that is not on
    the heap; an item is constructed only within a buffer on the heap and
    not over a constructed item.  The result is [None] when the events
    break one of these rules. *)
Fixpoint rvec_lifecycle (fItemSize : Z) (heap live : list (Z * Z))
    (events : list RVecReadEvent) : option (list (Z * Z) * list (Z * Z)) :=
  match events with
  | [] => Some (heap, live)
  | RVecDestroyValueBy begin i :: events' =>
      if bool_decide ((begin, i) ∈ live)
      then rvec_lifecycle fItemSize heap (filter (fun item => item <> (begin, i)) live) events'
      else None
  | RVecFree begin :: events' =>
      if bool_decide (begin = 0%Z) then rvec_lifecycle fItemSize heap live events'
      else if bool_decide (begin ∈ heap.*1 /\ begin ∉ live.*1)
      then rvec_lifecycle fItemSize (filter (fun buffer => buffer.1 <> begin) heap) live events'
      else None
  | RVecMalloc nbytes begin :: events' =>
      if bool_decide (begin <> 0%Z /\ begin ∉ heap.*1)
      then rvec_lifecycle fItemSize (heap ++ [(begin, nbytes)]) live events'
      else None
  | RVecGenerateValueBy begin i :: events' =>
      if bool_decide (Exists (fun buffer => buffer.1 = begin /\ 0 <= i
                                            /\ (i + 1) * fItemSize <= buffer.2)%Z heap
                      /\ (begin, i) ∉ live)
      then rvec_lifecycle fItemSize heap (live ++ [(begin, i)]) events'
      else None
  | RVecItemRead _ begin i :: events' =>
      if bool_decide ((begin, i) ∈ live) then rvec_lifecycle fItemSize heap live events' else None
  end.

(** The heap and the constructed items of an [RVec] that owns its buffer:
    the buffer has room for [capacity] items, and the first [size] of them
    are constructed. *)
Definition owned_buffer (fItemSize : Z) (rvec : RVecMembers) : list (Z * Z) :=
  if bool_decide (rv_begin rvec = 0%Z) then []
  else [(rv_begin rvec, (rv_capacity rvec * fItemSize)%Z)].

Definition owned_items (rvec : RVecMembers) : list (Z * Z) :=
  (fun i => (rv_begin rvec, i)) <$> loop_range 0 (rv_size rvec).

(** ** Appending an [RVec] *)

(** The part of a collection field that [AppendImpl] changes: the counter
    [fNWritten], the index column [fColumns[0]], and the items handed to
    [fSubFields[0]->Append] so far. *)
Record RCollectionWriter (Item : Type) : Type := {
  cw_fNWritten : Z;
  cw_column0 : list Z;
  cw_items : list Item
}.
Arguments cw_fNWritten {Item} _.
Arguments cw_column0 {Item} _.
Arguments cw_items {Item} _.

Module RRVecFieldWriter.
Section Object.
Variable Item : Type.

(** [fSubFields[0]->Append(from)]: the bytes it reports; and
    [fColumns[0]->GetElement()->GetPackedSize()]. *)
Variable itemAppend : Item -> Z.
Variable packedSize : Z.

(** [AppendImpl]: [rvec] holds the data members of the [RVec] at [from],
    [item_at i] is the item at [begin + i * fItemSize]. *)
Definition AppendImpl (from : RVecMembers * (Z -> Item)) : Method (RCollectionWriter Item) Z :=
  let '(rvec, item_at) := from in
  members ← (fun w => (RRVecField.GetRVecDataMembers rvec, w));
  let appended := item_at <$> loop_range 0 (rv_size members) in
  let nbytes := foldl (fun nbytes item => wrap64 (nbytes + itemAppend item)) 0%Z appended in
  assign (fun w => {| cw_fNWritten := cw_fNWritten w; cw_column0 := cw_column0 w;
                      cw_items := cw_items w ++ appended |}) ;;
  assign (fun w => {| cw_fNWritten := wrap64 (cw_fNWritten w + rv_size members);
                      cw_column0 := cw_column0 w; cw_items := cw_items w |}) ;;
  assign (fun w => {| cw_fNWritten := cw_fNWritten w;
                      cw_column0 := cw_column0 w ++ [cw_fNWritten w];
                      cw_items := cw_items w |}) ;;
  mret (wrap64 (nbytes + packedSize)).

Definition CommitCluster : Method (RCollectionWriter Item) unit :=
  assign (fun w => {| cw_fNWritten := 0; cw_column0 := cw_column0 w;
                      cw_items := cw_items w |}).

End Object.
End RRVecFieldWriter.

(** The items of an [RVec], those of a list of them one after the other,
    and the value the counter has after each, starting from [n]. *)
Definition contents {Item : Type} (from : RVecMembers * (Z -> Item)) : list Item :=
  from.2 <$> loop_range 0 (rv_size from.1).

Definition all_contents {Item : Type} (vs : list (RVecMembers * (Z -> Item))) : list Item :=
  concat (contents <$> vs).

Fixpoint cumulative (n : Z) (sizes : list Z) : list Z :=
  match sizes with
  | [] => []
  | size :: sizes' => (n + size)%Z :: cumulative (n + size) sizes'
  end.

(** ** [RBitsetField] *)

Module RBitsetField.
Section Object.

(** [kBitsPerWord], the number of bits of a [Word_t], is declared in
    RField.hxx, which is not among the sources; it is a parameter here.
    A [Word_t] is an unsigned integer of that many bits. *)
Variable kBitsPerWord : Z.

(** [fN], the number of bits of the bitset. *)
Variable fN : Z.

Definition to_Word_t (z : Z) : Z := z mod 2 ^ kBitsPerWord.

(** The inner loop of [AppendImpl] for one word, entered with the loop
    variables [mask] and [i]: the bits appended and [i] after the loop.
    The loop runs at most [kBitsPerWord - mask] times. *)
Fixpoint AppendImpl_word (steps : nat) (word mask i : Z) : list bool * Z :=
  match steps with
  | O => ([], i)
  | S steps' =>
      if (mask <? kBitsPerWord)%Z && (i <? fN)%Z then
        let elementValue := negb (Z.land word (to_Word_t (Z.shiftl 1 mask)) =? 0)%Z in
        let '(appended, i') := AppendImpl_word steps' word (mask + 1) (wrap64 (i + 1)) in
        (elementValue :: appended, i')
      else ([], i)
  end.

(** [AppendImpl]: [asULongArray] gives the words of the bitset at [from].
    The result is the bits appended to [fColumns[0]], in order, and the
    value returned. *)
Definition AppendImpl (asULongArray : Z -> Z) : list bool * Z :=
  let nWords := (wrap64 (wrap64 (fN + kBitsPerWord) - 1) / kBitsPerWord)%Z in
  let '(appended, _) :=
    foldl (fun '(appended, i) word =>
             let '(bits, i') :=
               AppendImpl_word (Z.to_nat kBitsPerWord) (asULongArray word) 0 i in
             (appended ++ bits, i'))
          ([], 0%Z) (loop_range 0 nWords) in
  (appended, fN).

(** [ReadGlobalImpl]: [Read] stands for [fColumns[0]->Read(index, &elementValue)],
    [asULongArray] gives the words at [to] before the call; the result
    gives the words after it. *)
Definition ReadGlobalImpl (Read : Z -> bool) (globalIndex : Z) (asULongArray : Z -> Z)
  : Z -> Z :=
  foldl (fun (asULongArray : Z -> Z) i =>
           let elementValue := Read (wrap64 (wrap64 (globalIndex * fN) + i)) in
           let mask := to_Word_t (Z.shiftl 1 (i mod kBitsPerWord)) in
           let bit := to_Word_t (Z.shiftl (Z.b2z elementValue) (i mod kBitsPerWord)) in
           let word := (i / kBitsPerWord)%Z in
           fun w =>
             if bool_decide (w = word)
             then Z.lor (Z.land (asULongArray word) (to_Word_t (Z.lnot mask))) bit
             else asULongArray w)
        asULongArray (loop_range 0 fN).

End Object.
End RBitsetField.

(** The bit of a bitset at position [i], given its words. *)
Definition bitset_bit (kBitsPerWord : Z) (asULongArray : Z -> Z) (i : Z) : bool :=
  Z.testbit (asULongArray (i / kBitsPerWord)%Z) (i mod kBitsPerWord).

(** ** Type names and field names

    The functions of the anonymous namespace that take type names apart,
    and [RFieldBase::EnsureValidFieldName]. A [std::string] and a
    [std::string_view] are a [string]; a position in it is a [nat]. *)

Import Stdlib.Strings.Ascii.

Module TypeName.

Definition typeTranslationMap : list (string * string) :=
  [("Bool_t", "bool"); ("Float_t", "float"); ("Double_t", "double");
   ("string", "std::string");
   ("Char_t", "char"); ("int8_t", "std::int8_t"); ("signed char", "char");
   ("UChar_t", "std::uint8_t"); ("unsigned char", "std::uint8_t");
   ("uint8_t", "std::uint8_t");
   ("Short_t", "std::int16_t"); ("int16_t", "std::int16_t"); ("short", "std::int16_t");
   ("UShort_t", "std::uint16_t"); ("unsigned short", "std::uint16_t");
   ("uint16_t", "std::uint16_t");
   ("Int_t", "std::int32_t"); ("int32_t", "std::int32_t"); ("int", "std::int32_t");
   ("UInt_t", "std::uint32_t"); ("unsigned", "std::uint32_t");
   ("unsigned int", "std::uint32_t"); ("uint32_t", "std::uint32_t");
   ("Long_t", "std::int64_t"); ("Long64_t", "std::int64_t"); ("int64_t", "std::int64_t");
   ("long", "std::int64_t"); ("ULong64_t", "std::uint64_t");
   ("unsigned long", "std::uint64_t"); ("uint64_t", "std::uint64_t")].

(** [std::unordered_map::find]: the value stored under [key], if any. *)
Fixpoint find (key : string) (map : list (string * string)) : option string :=
  match map with
  | [] => None
  | (first, second) :: map' =>
      if String.eqb first key then Some second else find key map'
  end.

(** [std::string(typeBegin, typeCursor - typeBegin)], the two pointers
    being positions in [templateType]. *)
Definition token (templateType : string) (typeBegin typeCursor : nat) : string :=
  String.substring typeBegin (typeCursor - typeBegin) templateType.

(** The [while] loop of [TokenizeTypeList]: [typeBegin] and [typeCursor]
    are positions in [templateType], [rest] holds the characters from
    [typeCursor] to [eol], so [*typeCursor] is its first character;
    [nestingLevel] is an [unsigned int]. The last line of the function is
    the case of an empty [rest]. *)
Fixpoint TokenizeTypeList_loop (templateType : string) (typeBegin typeCursor : nat)
    (rest : string) (nestingLevel : Z) (result : list string) : list string :=
  match rest with
  | "" => result ++ [token templateType typeBegin typeCursor]
  | String c rest' =>
      if Ascii.eqb c "<"%char then
        TokenizeTypeList_loop templateType typeBegin (S typeCursor) rest'
          (to_uint32 (nestingLevel + 1)) result
      else if Ascii.eqb c ">"%char then
        TokenizeTypeList_loop templateType typeBegin (S typeCursor) rest'
          (to_uint32 (nestingLevel - 1)) result
      else if Ascii.eqb c ","%char then
        if (nestingLevel =? 0)%Z then
          TokenizeTypeList_loop templateType (typeCursor + 1) (S typeCursor) rest'
            nestingLevel (result ++ [token templateType typeBegin typeCursor])
        else
          TokenizeTypeList_loop templateType typeBegin (S typeCursor) rest'
            nestingLevel result
      else
        TokenizeTypeList_loop templateType typeBegin (S typeCursor) rest'
          nestingLevel result
  end.

Definition TokenizeTypeList (templateType : string) : list string :=
  if String.eqb templateType "" then []
  else TokenizeTypeList_loop templateType 0 0 templateType 0 [].

(** [typeName.back()]; on an empty view there is no last character. *)
Definition back (typeName : string) : option ascii :=
  match String.length typeName with
  | O => None
  | S n => String.get n typeName
  end.

(** [typeName.find_last_of(ch, pos)] for a single character: the last
    position at or before [pos] that holds [ch]; [None] is [npos]. *)
Fixpoint find_last_of (ch : ascii) (typeName : string) (pos : nat) : option nat :=
  match String.get pos typeName with
  | Some c =>
      if Ascii.eqb c ch then Some pos
      else match pos with O => None | S pos' => find_last_of ch typeName pos' end
  | None => match pos with O => None | S pos' => find_last_of ch typeName pos' end
  end.

Definition is_digit (c : ascii) : bool :=
  (48 <=? nat_of_ascii c)%nat && (nat_of_ascii c <=? 57)%nat.

(** The value of the longest prefix of decimal digits of [first], on top
    of the digits read so far. *)
Fixpoint from_chars_digits (first : string) (value : Z) : Z :=
  match first with
  | "" => value
  | String c rest =>
      if is_digit c
      then from_chars_digits rest (10 * value + (Z.of_nat (nat_of_ascii c) - 48))%Z
      else value
  end.

(** [std::from_chars(first, last, size)] for a [size_t] of 64 bits, after
    the C++ standard: the longest prefix of decimal digits is the number,
    no sign and no white space are accepted; without a digit the call
    fails with [invalid_argument], with a number that does not fit with
    [result_out_of_range]. [None] is a failure ([ec != std::errc{}]). *)
Definition from_chars (range : string) : option Z :=
  match range with
  | "" => None
  | String c _ =>
      if is_digit c then
        let size := from_chars_digits range 0 in
        if (size <? 2 ^ 64)%Z then Some size else None
      else None
  end.

(** The [while] loop of [ParseArrayType]. Every round takes the closing
    bracket and at least one more character off [typeName], so
    [String.length typeName] rounds are enough; [None] would be a loop
    that needs more. [back] on an empty view is reported as a fatal
    error. *)
Fixpoint ParseArrayType_loop (rounds : nat) (typeName : string) (sizeVec : list Z)
  : option (Outcome (string * list Z)) :=
  match back typeName with
  | None => Some (Fatal "typeName.back()")
  | Some c =>
      if Ascii.eqb c "]"%char then
        let posRBrace := (String.length typeName - 1)%nat in
        match find_last_of "["%char typeName posRBrace with
        | None => Some (Normal ("", []))
        | Some posLBrace =>
            match from_chars (String.substring (posLBrace + 1) (posRBrace - (posLBrace + 1))
                                typeName) with
            | None => Some (Normal ("", []))
            | Some size =>
                match rounds with
                | O => None
                | S rounds' =>
                    ParseArrayType_loop rounds' (String.substring 0 posLBrace typeName)
                      (size :: sizeVec)
                end
            end
        end
      else Some (Normal (typeName, sizeVec))
  end.

Definition ParseArrayType (typeName : string) : option (Outcome (string * list Z)) :=
  ParseArrayType_loop (String.length typeName) typeName [].

Section Normalization.

(** [TClassEdit::CleanType] and [TClassEdit::ResolveTypedef], defined
    outside RField.cxx. *)
Variable CleanType : string -> Z -> string.
Variable ResolveTypedef : string -> string.

Definition GetCanonicalTypeName (typeName : string) : string :=
  if String.eqb typeName "ROOT::Experimental::ClusterSize_t"
     || String.eqb (String.substring 0 5 typeName) "std::"
     || String.eqb (String.substring 0 39 typeName) "ROOT::Experimental::RNTupleCardinality<"
  then typeName
  else ResolveTypedef typeName.

Definition GetNormalizedTypeName (typeName : string) : string :=
  let normalizedType := CleanType typeName 2 in
  let normalizedType :=
    match find normalizedType typeTranslationMap with
    | Some second => second
    | None => normalizedType
    end in
  let normalizedType :=
    if String.eqb (String.substring 0 7 normalizedType) "vector<"
    then "std::" +:+ normalizedType else normalizedType in
  let normalizedType :=
    if String.eqb (String.substring 0 6 normalizedType) "array<"
    then "std::" +:+ normalizedType else normalizedType in
  let normalizedType :=
    if String.eqb (String.substring 0 8 normalizedType) "variant<"
    then "std::" +:+ normalizedType else normalizedType in
  let normalizedType :=
    if String.eqb (String.substring 0 5 normalizedType) "pair<"
    then "std::" +:+ normalizedType else normalizedType in
  let normalizedType :=
    if String.eqb (String.substring 0 6 normalizedType) "tuple<"
    then "std::" +:+ normalizedType else normalizedType in
  let normalizedType :=
    if String.eqb (String.substring 0 7 normalizedType) "bitset<"
    then "std::" +:+ normalizedType else normalizedType in
  let normalizedType :=
    if String.eqb (String.substring 0 11 normalizedType) "unique_ptr<"
    then "std::" +:+ normalizedType else normalizedType in
  normalizedType.

(** The two type names the two-argument [RFieldBase::Create] hands to the
    three-argument one: [(canonicalType, typeAlias)]. *)
Definition Create_type_names (typeName : string) : string * string :=
  let typeAlias := GetNormalizedTypeName typeName in
  let canonicalType := GetNormalizedTypeName (GetCanonicalTypeName typeAlias) in
  (canonicalType, typeAlias).

End Normalization.

End TypeName.

(** [RResult<void>]: [R__FAIL] gives a [Failure] with its message. *)
Inductive RResult (A : Type) : Type :=
| Success (a : A)
| Failure (what : string).
Arguments Success {A} a.
Arguments Failure {A} what.

(** The character [0x22], which [EnsureValidFieldName] puts twice at the
    end of its first message. *)
Definition double_quote : string := String (ascii_of_nat 34) "".

(** [fieldName.find(".") != npos] is [String.index 0 "." fieldName] being
    some position. *)
Definition EnsureValidFieldName (fieldName : string) : RResult unit :=
  if String.eqb fieldName "" then
    Failure ("name cannot be empty string " +:+ double_quote +:+ double_quote)
  else
    match String.index 0 "." fieldName with
    | Some _ =>
        Failure ("name '" +:+ fieldName +:+ "' cannot contain dot characters '.'")
    | None => Success tt
    end.

(** What [TokenizeTypeList_loop] still pushes to [result], told by the
    characters of the running token instead of the two positions. *)
Fixpoint tokens (running rest : string) (nestingLevel : Z) : list string :=
  match rest with
  | "" => [running]
  | String c rest' =>
      if Ascii.eqb c "<"%char then
        tokens (running +:+ String c "") rest' (to_uint32 (nestingLevel + 1))
      else if Ascii.eqb c ">"%char then
        tokens (running +:+ String c "") rest' (to_uint32 (nestingLevel - 1))
      else if Ascii.eqb c ","%char && (nestingLevel =? 0)%Z then
        running :: tokens "" rest' nestingLevel
      else tokens (running +:+ String c "") rest' nestingLevel
  end.

(** The nesting level [TokenizeTypeList] reaches at the end of [type]
    when it enters it at [nestingLevel], unless it finds a comma to split
    at on the way. *)
Fixpoint nesting (type : string) (nestingLevel : Z) : option Z :=
  match type with
  | "" => Some nestingLevel
  | String c type' =>
      if Ascii.eqb c "<"%char then nesting type' (to_uint32 (nestingLevel + 1))
      else if Ascii.eqb c ">"%char then nesting type' (to_uint32 (nestingLevel - 1))
      else if Ascii.eqb c ","%char && (nestingLevel =? 0)%Z then None
      else nesting type' nestingLevel
  end.

(** The characters of a string. *)
Fixpoint characters_of (s : string) : list ascii :=
  match s with
  | "" => []
  | String c s' => c :: characters_of s'
  end.

(** A qualified field name cut at its dots. *)
Fixpoint cut_at_dots (s : string) : list string :=
  match s with
  | "" => [""]
  | String c s' =>
      if Ascii.eqb c "."%char
      then "" :: cut_at_dots s'
      else match cut_at_dots s' with
           | [] => [String c ""]
           | name :: names => String c name :: names
           end
  end.

(** The suffix the constructor of [RClassField] gives the type name of a
    data member for each dimension of an array:
    ["[" + std::to_string(n) + "]"]. *)
Definition dimension (n : Z) : string := "[" +:+ RArrayField.to_string n +:+ "]".

Definition dimensions (sizes : list Z) : string :=
  foldl (fun typeName n => typeName +:+ dimension n) "" sizes.

(** A string of decimal digits. *)
Definition all_digits (s : string) : Prop :=
  Forall (fun c => TypeName.is_digit c = true) (characters_of s).

(** What [ParseArrayType] can return for [typeName]. *)
Definition parsed (typeName : string) (outcome : Outcome (string * list Z)) : Prop :=
  match outcome with
  | Normal (baseType, sizes) =>
      (baseType = "" /\ sizes = [])
      \/ (TypeName.back baseType <> None /\ TypeName.back baseType <> Some "]"%char
          /\ (exists suffix, typeName = baseType +:+ suffix)
          /\ Forall (fun n => 0 <= n < 2 ^ 64)%Z sizes
          /\ (sizes = [] -> baseType = typeName)
          /\ (sizes <> [] -> TypeName.back typeName = Some "]"%char))
  | Fatal _ => typeName = "" \/ TypeName.back typeName = Some "]"%char
  | Throw _ => False
  end.

(** The templates in namespace [std] that [GetNormalizedTypeName] knows
    without the namespace. *)
Definition std_templates : list string :=
  ["vector<"; "array<"; "variant<"; "pair<"; "tuple<"; "bitset<"; "unique_ptr<"].

(** A type name [GetNormalizedTypeName] has nothing to do on: no key of
    [typeTranslationMap], and none of [std_templates] at its start. *)
Definition left_alone (normalizedType : string) : Prop :=
  TypeName.find normalizedType TypeName.typeTranslationMap = None
  /\ Forall (fun template =>
               String.substring 0 (String.length template) normalizedType <> template)
       std_templates.

(** ** Objects the properties are tried on *)

Module Samples.

(** The trait masks as one bit each. *)
Definition masks : TraitMasks :=
  {| kTraitTriviallyConstructible := 1; kTraitTriviallyDestructible := 2;
     kTraitMappable := 4 |}.

(** A string field [s] of an entry, not yet connected, and the same field
    once [ConnectPageSink] has given it its two columns. *)
Definition string_field : RFieldBase :=
  RFieldBase.ctor masks "s" "std::string" kLeaf false 0.

Definition connected_string_field : RFieldBase :=
  set_fPrincipalColumn (Some 0%nat)
    (set_fColumns [ {| colType := kSplitIndex64; colIndex := 0;
                       colConnection := Some (ToSink 7 0) |};
                    {| colType := kChar; colIndex := 1;
                       colConnection := Some (ToSink 7 0) |} ]
       string_field).

(** The field [hits.pos.x] of type [std::int32_t]: its parent chain ends
    at the zero field. *)
Definition x_field : RFieldBase := RFieldBase.ctor masks "x" "std::int32_t" kLeaf true 0.
Definition pos_field : RFieldBase := RFieldBase.ctor masks "pos" "Pos" kRecord false 0.
Definition hits_field : RFieldBase := RFieldBase.ctor masks "hits" "Hits" kRecord false 0.
Definition zero_field : RFieldBase := RFieldBase.ctor masks "" "" kRecord false 0.
Definition x_parents : list RFieldBase := [pos_field; hits_field; zero_field].

Definition GetTypeName (t : EColumnType) : string :=
  match t with
  | kReal32 => "Real32"
  | kSplitReal32 => "SplitReal32"
  | kInt32 => "Int32"
  | kSplitInt32 => "SplitInt32"
  | _ => "other"
  end.

(** A descriptor in which field 3 has one column of type [kReal32]. *)
Definition descriptor : RNTupleDescriptor :=
  {| GetColumnIterable := fun id => if bool_decide (id = 3%Z) then [kReal32] else [];
     GetTypeVersion := fun _ => 0%Z |}.

(** The class [Event] with one member [x]; the item of a collection class
    is a [float]. *)
Definition leaf (name type : string) (id : Z) : RFieldBase :=
  set_fOnDiskId id (RFieldBase.ctor masks name type kLeaf true 0).

Definition class_traits (cl : TClass) : Z := 0.
Definition class_subfields (cl : TClass) : list Field :=
  if bool_decide (cl = "Event") then [MkField 0 (leaf "x" "std::int32_t" kInvalidDescriptorId)
                                              LeafField []]
  else [].
Definition collection_item (cl : TClass) : Field :=
  MkField 0 (leaf "_0" "float" kInvalidDescriptorId) LeafField [].

(** A tree with on-disk ids: the zero field over [v] of type
    [std::vector<float>] and [e] of class [Event]. *)
Definition tree : Field :=
  MkField 0 (set_fOnDiskId 0 zero_field) FieldZero
    [ MkField 1 (set_fColumnRepresentative (Some (SerializationRow 1))
                   (set_fOnDiskId 1
                      (RFieldBase.ctor masks "v" "std::vector<float>" kCollection false 0)))
        VectorField
        [ MkField 2 (leaf "_0" "float" 2) LeafField [] ];
      MkField 3 (set_fOnDiskId 3 (RFieldBase.ctor masks "e" "Event" kRecord false 0))
        (ClassField "Event")
        [ MkField 4 (leaf "x" "std::int32_t" 4) LeafField [] ] ].

(** A nullable field over an item of size 8, not yet connected. *)
Definition nullable_field : RNullableField Z :=
  {| nul_base := RFieldBase.ctor masks "p" "std::unique_ptr<double>" kCollection false 0;
     nul_fNWritten := 0; nul_fDefaultItemValue := None;
     nul_principal := []; nul_items := [] |}.

(** A string of three bytes: the UTF-8 encoding of the euro sign. *)
Definition three_bytes : string :=
  String (Ascii.ascii_of_nat 226)
    (String (Ascii.ascii_of_nat 130) (String (Ascii.ascii_of_nat 172) "")).

End Samples.

(** * Properties *)

(** ** Auxiliary facts *)

Lemma std_find_None {A : Type} `{EqDecision A} (l : list A) (x : A) :
  std_find l x = None <-> x ∉ l.
Proof.
  induction l as [|y l IH]; simpl.
  - split; [intros _; apply not_elem_of_nil | done].
  - rewrite not_elem_of_cons. destruct (decide (y = x)) as [->|Hne].
    + split; [done | intros [? _]; done].
    + destruct (std_find l x) eqn:E; simpl.
      * split; [done|]. intros [_ Hn]. apply IH in Hn. done.
      * split; [|done]. intros _. split; [congruence | by apply IH].
Qed.

Lemma std_find_Some {A : Type} `{EqDecision A} (l : list A) (x : A) (i : nat) :
  std_find l x = Some i -> l !! i = Some x.
Proof.
  revert i. induction l as [|y l IH]; simpl; intros i; [done|].
  destruct (decide (y = x)) as [->|Hne].
  - intros [= <-]. done.
  - destruct (std_find l x) eqn:E; simpl; [|done].
    intros [= <-]. simpl. by apply IH.
Qed.

(** ** Choosing a column representative *)

(** C7: [SetColumnRepresentative] throws when the field already has bound
    columns, and throws when the requested representation is not among the
    serialization types of the field kind; whenever the call does not
    return normally the object, and with it the previously chosen
    representative, is as it was before the call. *)
Theorem SetColumnRepresentative_throws
    (reps : RColumnRepresentations) (rep : ColumnRepresentation_t) (f : RFieldBase) :
  (fColumns f <> [] ->
     RFieldBase.SetColumnRepresentative reps rep f
     = (Throw "cannot set column representative once field is connected", f))
  /\ (rep ∉ RColumnRepresentations.GetSerializationTypes reps ->
        throws (RFieldBase.SetColumnRepresentative reps rep f) = true)
  /\ (returns (RFieldBase.SetColumnRepresentative reps rep f) = false ->
        (RFieldBase.SetColumnRepresentative reps rep f).2 = f
        /\ fColumnRepresentative (RFieldBase.SetColumnRepresentative reps rep f).2
           = fColumnRepresentative f).
Proof.
  unfold RFieldBase.SetColumnRepresentative, mbind, Method_bind, this, throw, assign,
    throws, returns.
  simpl. split; [|split].
  - intros Hc. rewrite bool_decide_eq_false_2 by done. done.
  - intros Hnot. apply std_find_None in Hnot.
    unfold RFieldBase.GetColumnRepresentations. rewrite Hnot.
    by destruct (bool_decide (fColumns f = [])).
  - destruct (bool_decide (fColumns f = [])); simpl; [|done].
    destruct (std_find _ rep); simpl; done.
Qed.

(** ** Strings *)

Lemma append_assoc (a b c : string) : (a +:+ b) +:+ c = a +:+ b +:+ c.
Proof.
  induction a as [|x a IH]; [reflexivity|].
  change (String x ((a +:+ b) +:+ c) = String x (a +:+ b +:+ c)). by rewrite IH.
Qed.

Lemma append_nil_r (a : string) : a +:+ "" = a.
Proof.
  induction a as [|x a IH]; [reflexivity|].
  change (String x (a +:+ "") = String x a). by rewrite IH.
Qed.

Lemma occurs_in_refl (s : string) : occurs_in s s.
Proof. exists "", "". by rewrite append_nil_r. Qed.

Lemma occurs_in_app_l (s a b : string) : occurs_in s a -> occurs_in s (a +:+ b).
Proof.
  intros (x & y & ->). exists x, (y +:+ b). by rewrite !append_assoc.
Qed.

Lemma occurs_in_app_r (s a b : string) : occurs_in s b -> occurs_in s (a +:+ b).
Proof.
  intros (x & y & ->). exists (a +:+ x), y. by rewrite !append_assoc.
Qed.

Create HintDb occurs.
#[local] Hint Resolve occurs_in_refl occurs_in_app_l occurs_in_app_r : occurs.

(** ** Matching the on-disk column types *)

Section JoinTypeNames.
Variable GetTypeName : EColumnType -> string.

Lemma join_type_names_keeps (ts : ColumnRepresentation_t) (acc s : string) :
  occurs_in s acc -> occurs_in s (RFieldBase.join_type_names GetTypeName acc ts).
Proof.
  revert acc. induction ts as [|t ts IH]; intros acc Hs; simpl; [done|].
  apply IH. destruct (decide (acc = "")); auto with occurs.
Qed.

Lemma join_type_names_each (ts : ColumnRepresentation_t) (acc : string) (t : EColumnType) :
  t ∈ ts -> occurs_in (GetTypeName t) (RFieldBase.join_type_names GetTypeName acc ts).
Proof.
  revert acc. induction ts as [|t' ts IH]; intros acc Hin; simpl.
  - by apply elem_of_nil in Hin.
  - apply elem_of_cons in Hin as [->|Hin]; [|by apply IH].
    apply join_type_names_keeps. auto with occurs.
Qed.

End JoinTypeNames.

(** [EnsureCompatibleColumnTypes] throws when the field has no on-disk id,
    and throws when the list of on-disk column types of its id is no row
    of the deserialization types of the kind.  In both cases the message
    contains the qualified field name; in the mismatch case it also
    contains the name of every on-disk column type.  Where
    [GenerateColumnsImpl(desc)] starts with this check, [ConnectPageSource]
    on a field without a fixed representative ends with that very
    exception and leaves the field as it was. *)
Lemma EnsureCompatibleColumnTypes_throws
    (reps : RColumnRepresentations) (parents : list RFieldBase)
    (GetTypeName : EColumnType -> string) (desc : RNTupleDescriptor) (f : RFieldBase) :
  let check := RFieldBase.EnsureCompatibleColumnTypes reps parents GetTypeName desc f in
  let onDiskTypes := GetColumnIterable desc (fOnDiskId f) in
  let qualified := RFieldBase.GetQualifiedFieldName parents f in
  (fOnDiskId f = kInvalidDescriptorId ->
     exists what, check = Throw what /\ occurs_in qualified what)
  /\ (onDiskTypes ∉ RColumnRepresentations.GetDeserializationTypes reps ->
        exists what, check = Throw what /\ occurs_in qualified what
          /\ (fOnDiskId f <> kInvalidDescriptorId ->
                forall t, t ∈ onDiskTypes -> occurs_in (GetTypeName t) what))
  /\ (forall what (generate : ColumnRepresentation_t -> Method RFieldBase unit) onConnect,
        check = Throw what ->
        fColumns f = [] -> fColumnRepresentative f = None ->
        RFieldBase.ConnectPageSource reps
          (fun desc =>
             call_const (RFieldBase.EnsureCompatibleColumnTypes reps parents GetTypeName desc)
             ≫= generate)
          onConnect desc f = (Throw what, f)).
Proof.
  intros check onDiskTypes qualified. subst check.
  unfold RFieldBase.EnsureCompatibleColumnTypes, RFieldBase.GetColumnRepresentations.
  cbv zeta. fold onDiskTypes qualified.
  split; [|split].
  - intros Hid. rewrite bool_decide_eq_true_2 by done.
    eexists; split; [reflexivity|]. auto with occurs.
  - intros Hrow. apply std_find_None in Hrow. rewrite Hrow.
    destruct (bool_decide (fOnDiskId f = kInvalidDescriptorId)) eqn:Hid.
    + eexists; split; [reflexivity|]. split; [auto with occurs|].
      intros Hne. by apply bool_decide_eq_true_1 in Hid.
    + eexists; split; [reflexivity|]. split; [auto 8 with occurs|].
      intros _ t Ht. apply occurs_in_app_r, occurs_in_app_l.
      by apply join_type_names_each.
  - intros what generate onConnect Hthrow Hcols Hrep.
    unfold RFieldBase.ConnectPageSource, mbind, Method_bind, this, R__ASSERT, call_const.
    rewrite Hrep, Hcols. simpl.
    unfold RFieldBase.EnsureCompatibleColumnTypes, RFieldBase.GetColumnRepresentations.
    cbv zeta. fold onDiskTypes qualified.
    by rewrite Hthrow.
Qed.

(** C8: take a field without columns and without a fixed column
    representative whose [GenerateColumnsImpl(desc)] starts with
    [EnsureCompatibleColumnTypes], as every override in RField.cxx does.
    Connecting it to a page source throws when the field has no on-disk
    id, and throws when the list of on-disk column types of its id is no
    row of the deserialization types of the kind.  The exception is the
    one of the check: in both cases its message contains the qualified
    field name, and in the mismatch case it also contains the name of
    every on-disk column type.  The field is left as it was. *)
Theorem ConnectPageSource_incompatible_throws
    (reps : RColumnRepresentations) (parents : list RFieldBase)
    (GetTypeName : EColumnType -> string) (desc : RNTupleDescriptor) (f : RFieldBase)
    (generate : ColumnRepresentation_t -> Method RFieldBase unit)
    (onConnect : Method RFieldBase unit) :
  fColumns f = [] -> fColumnRepresentative f = None ->
  let check := RFieldBase.EnsureCompatibleColumnTypes reps parents GetTypeName desc f in
  let connect :=
    RFieldBase.ConnectPageSource reps
      (fun desc =>
         call_const (RFieldBase.EnsureCompatibleColumnTypes reps parents GetTypeName desc)
         ≫= generate)
      onConnect desc f in
  let onDiskTypes := GetColumnIterable desc (fOnDiskId f) in
  let qualified := RFieldBase.GetQualifiedFieldName parents f in
  (fOnDiskId f = kInvalidDescriptorId ->
     exists what,
       check = Throw what /\ connect = (Throw what, f) /\ occurs_in qualified what)
  /\ (onDiskTypes ∉ RColumnRepresentations.GetDeserializationTypes reps ->
        exists what,
          check = Throw what /\ connect = (Throw what, f) /\ occurs_in qualified what
          /\ (fOnDiskId f <> kInvalidDescriptorId ->
                forall t, t ∈ onDiskTypes -> occurs_in (GetTypeName t) what)).
Proof.
  intros Hcols Hrep check connect onDiskTypes qualified.
  destruct (EnsureCompatibleColumnTypes_throws reps parents GetTypeName desc f)
    as (Hunset & Hmismatch & Hconnect).
  split.
  - intros Hid. destruct (Hunset Hid) as (what & Hthrow & Hname).
    exists what. split; [exact Hthrow|]. split; [|exact Hname].
    by apply Hconnect.
  - intros Hrow. destruct (Hmismatch Hrow) as (what & Hthrow & Hname & Htypes).
    exists what. split; [exact Hthrow|]. split; [by apply Hconnect|].
    split; [exact Hname | exact Htypes].
Qed.

(** ** From entries to column elements *)

Lemma wrap64_mul_l (a b : Z) : wrap64 (wrap64 a * b) = wrap64 (a * b).
Proof. unfold wrap64. by rewrite Z.mul_mod_idemp_l. Qed.

Lemma walk_to_root_zero (ps : list RFieldBase) (f : RFieldBase) (result : Z) :
  Exists indexed_by_offsets ps -> RFieldBase.walk_to_root result f ps = 0%Z.
Proof.
  revert f result. induction ps as [|p ps IH]; intros f result Hex.
  - by apply Exists_nil in Hex.
  - simpl. unfold RFieldBase.GetStructure.
    destruct (decide (fStructure p = kCollection)) as [Hc|Hc].
    { by rewrite (bool_decide_eq_true_2 _ Hc). }
    destruct (decide (fStructure p = kVariant)) as [Hv|Hv].
    { rewrite (bool_decide_eq_true_2 _ Hv). by rewrite orb_true_r. }
    rewrite !bool_decide_eq_false_2 by done. simpl.
    apply IH. apply Exists_cons in Hex as [[?|?]|?]; done.
Qed.

Lemma walk_to_root_product (ps : list RFieldBase) (f : RFieldBase) (result : Z) :
  Forall (fun p => ~ indexed_by_offsets p) ps ->
  RFieldBase.walk_to_root result f ps = wrap64 (result * repetitions (f :: ps)).
Proof.
  revert f result. induction ps as [|p ps IH]; intros f result Hall.
  - simpl. unfold RFieldBase.GetNRepetitions. f_equal. lia.
  - apply Forall_cons in Hall as [Hp Hall]. simpl.
    unfold RFieldBase.GetStructure.
    rewrite !bool_decide_eq_false_2 by (intros ?; apply Hp; by constructor).
    simpl. rewrite IH by done. rewrite wrap64_mul_l.
    unfold RFieldBase.GetNRepetitions. simpl. f_equal. lia.
Qed.

(** C5: [EntryToColumnElementIndex] returns 0 as soon as the walk towards
    the root meets a field whose parent is a collection or a variant;
    otherwise it returns the entry index multiplied, in [size_t]
    arithmetic, by [max(nRepetitions, 1)] of every field from the field to
    the root, which is the product itself when that fits 64 bits.  For the
    item of an array field of length 3 that lies under
    records only, entry 1 is element 3. *)
Theorem EntryToColumnElementIndex_walk
    (parents : list RFieldBase) (f : RFieldBase) (globalIndex : Z) :
  (Exists indexed_by_offsets parents ->
     RFieldBase.EntryToColumnElementIndex parents f globalIndex = 0%Z)
  /\ (Forall (fun p => ~ indexed_by_offsets p) parents ->
        RFieldBase.EntryToColumnElementIndex parents f globalIndex
        = wrap64 (globalIndex * repetitions (f :: parents))
        /\ ((0 <= globalIndex * repetitions (f :: parents) < 2 ^ 64)%Z ->
            RFieldBase.EntryToColumnElementIndex parents f globalIndex
            = (globalIndex * repetitions (f :: parents))%Z))
  /\ (forall m fieldName,
        (fNRepetitions f <= 1)%Z ->
        Forall (fun p => fStructure p = kRecord /\ (fNRepetitions p <= 1)%Z) parents ->
        RFieldBase.EntryToColumnElementIndex
          (RArrayField.ctor m fieldName f 3 :: parents) f 1 = 3%Z).
Proof.
  unfold RFieldBase.EntryToColumnElementIndex. split; [|split].
  - apply walk_to_root_zero.
  - intros Hall. rewrite walk_to_root_product by done. split; [done|].
    intros Hfits. unfold wrap64. by apply Z.mod_small.
  - intros m fieldName Hf Hps.
    rewrite walk_to_root_product.
    + assert (repetitions parents = 1%Z) as Hone.
      { clear -Hps. induction Hps as [|p ps [_ Hp] _ IH]; simpl; [done|].
        rewrite IH. lia. }
      simpl. rewrite Hone. replace (Z.max (fNRepetitions f) 1) with 1%Z by lia.
      reflexivity.
    + constructor.
      * simpl. intros [?|?]; discriminate.
      * eapply Forall_impl; [exact Hps|]. simpl. intros p [Hs _] [?|?]; congruence.
Qed.

(** ** Cloning field trees *)

Lemma runs_ret {S A : Type} (a : A) (s : S) : runs (mret a) s a s.
Proof. reflexivity. Qed.

Lemma runs_bind {S A B : Type} (m : Method S A) (k : A -> Method S B)
    (s s1 s2 : S) (a : A) (b : B) :
  runs m s a s1 -> runs (k a) s1 b s2 -> runs (m ≫= k) s b s2.
Proof. unfold runs, mbind, Method_bind. intros -> ->. reflexivity. Qed.

Lemma runs_allocate (n : nat) : runs allocate n n (S n).
Proof. reflexivity. Qed.

Lemma runs_construct (s : RFieldBase) (k : FieldKind) (l : list Field) (n : nat) :
  runs (construct s k l) n (MkField n s k l) (S n).
Proof. reflexivity. Qed.

Lemma addresses_unfold a s k l : addresses (MkField a s k l) = a :: addresses_all l.
Proof. reflexivity. Qed.

Lemma descendants_unfold a s k l : descendants (MkField a s k l) = descendants_all l.
Proof. reflexivity. Qed.

Lemma similar_unfold R a s k l a' s' k' l' :
  similar R (MkField a s k l) (MkField a' s' k' l') = R s s' && similar_all R l l'.
Proof.
  simpl. f_equal. revert l'. induction l as [|c l IH]; intros [|c' l']; simpl; try done.
  by rewrite IH.
Qed.

Lemma sync_unfold id ids a s k l :
  sync (id :: ids) (MkField a s k l)
  = (MkField a (set_fOnDiskId id s) k (sync_all ids l).1, (sync_all ids l).2).
Proof.
  simpl.
  assert (forall l ids,
    (fix go (l : list Field) (ids : list Z) : list Field * list Z :=
       match l with
       | [] => ([], ids)
       | c :: l1 =>
           let '(c', ids') := sync ids c in
           let '(l1', ids'') := go l1 ids' in (c' :: l1', ids'')
       end) l ids = sync_all ids l) as ->.
  { clear. induction l as [|c l IH]; intros ids; simpl; [done|].
    destruct (sync ids c) as [c' ids']. by rewrite IH. }
  by destruct (sync_all ids l).
Qed.

Lemma similar_self R F G : similar R F G = true -> R (self F) (self G) = true.
Proof.
  destruct F as [a s k l], G as [a' s' k' l']. rewrite similar_unfold.
  by intros [? _]%andb_true_iff.
Qed.

Lemma similar_all_cons R c l c' l' :
  similar_all R (c :: l) (c' :: l') = true
  <-> similar R c c' = true /\ similar_all R l l' = true.
Proof. simpl. apply andb_true_iff. Qed.

Lemma similar_all_length R l l' : similar_all R l l' = true -> length l = length l'.
Proof.
  revert l'. induction l as [|c l IH]; intros [|c' l']; simpl; try done.
  intros [_ H]%andb_true_iff. f_equal. by apply IH.
Qed.

Lemma similar_refl R : (forall s, R s s = true) -> forall F, similar R F F = true.
Proof.
  intros HR F. induction F as [a s k l IH] using Field_nested_ind.
  rewrite similar_unfold, HR. simpl.
  induction IH as [|c l Hc _ IHl]; simpl; [done|]. by rewrite Hc, IHl.
Qed.

Lemma similar_trans R :
  (forall s1 s2 s3, R s1 s2 = true -> R s2 s3 = true -> R s1 s3 = true) ->
  forall F G H, similar R F G = true -> similar R G H = true -> similar R F H = true.
Proof.
  intros HR F. induction F as [a s k l IH] using Field_nested_ind.
  intros [a' s' k' l'] [a'' s'' k'' l'']. rewrite !similar_unfold.
  intros [H1 H1']%andb_true_iff [H2 H2']%andb_true_iff.
  apply andb_true_iff. split; [by eapply HR|].
  clear H1 H2. revert l' l'' H1' H2'.
  induction IH as [|c l Hc _ IHl]; intros [|c' l'] [|c'' l'']; simpl; try done.
  intros [? ?]%andb_true_iff [? ?]%andb_true_iff. apply andb_true_iff. split.
  - by eapply Hc.
  - by eapply IHl.
Qed.

Lemma similar_all_trans R :
  (forall s1 s2 s3, R s1 s2 = true -> R s2 s3 = true -> R s1 s3 = true) ->
  forall l l' l'', similar_all R l l' = true -> similar_all R l' l'' = true ->
                   similar_all R l l'' = true.
Proof.
  intros HR l. induction l as [|c l IH]; intros [|c' l'] [|c'' l'']; simpl; try done.
  intros [? ?]%andb_true_iff [? ?]%andb_true_iff. apply andb_true_iff. split.
  - by eapply similar_trans.
  - by eapply IH.
Qed.

Lemma same_type_refl s : same_type s s = true.
Proof. unfold same_type. by rewrite !bool_decide_eq_true_2. Qed.

Lemma same_type_trans s1 s2 s3 :
  same_type s1 s2 = true -> same_type s2 s3 = true -> same_type s1 s3 = true.
Proof.
  unfold same_type. rewrite !andb_true_iff, !bool_decide_eq_true.
  intros [-> ->] [-> ->]. done.
Qed.

Lemma same_type_and_id_weaken s s' : same_type_and_id s s' = true -> same_type s s' = true.
Proof. unfold same_type_and_id. by intros [? _]%andb_true_iff. Qed.

Lemma similar_all_types R l l' :
  (forall s s', R s s' = true -> fType s = fType s') ->
  similar_all R l l' = true ->
  (fun c => fType (self c)) <$> l = fType <$> (self <$> l').
Proof.
  intros HR. revert l'. induction l as [|c l IH]; intros [|c' l']; simpl; try done.
  intros [Hc Hl]%andb_true_iff. f_equal; [|by apply IH].
  by apply HR, similar_self.
Qed.

Lemma same_type_and_id_type s s' : same_type_and_id s s' = true -> fType s = fType s'.
Proof.
  unfold same_type_and_id, same_type. rewrite !andb_true_iff, !bool_decide_eq_true.
  by intros [[? ?] ?].
Qed.

Lemma within_weaken n n' m m' l :
  (m <= n)%nat -> (n' <= m')%nat -> within n n' l -> within m m' l.
Proof.
  intros ? ? H. unfold within in *. eapply Forall_impl; [exact H|].
  simpl. intros; lia.
Qed.

Lemma within_app n n' l1 l2 : within n n' l1 -> within n n' l2 -> within n n' (l1 ++ l2).
Proof. unfold within. intros. by apply Forall_app. Qed.

Lemma create_spec R (HR : forall s, R s s = true) (B : Field) (n : nat) :
  exists B' n', runs (create B) n B' n' /\ similar R B B' = true
                /\ (n < n')%nat /\ within n n' (addresses B').
Proof.
  revert n. induction B as [a s k l IH] using Field_nested_ind. intros n.
  assert (exists l' n1, runs (create_all l) n l' n1 /\ similar_all R l l' = true
                        /\ (n <= n1)%nat /\ within n n1 (addresses_all l'))
    as (l' & n1 & Hrun & Hsim & Hle & Hin).
  { clear -IH. revert n. induction IH as [|c l Hc _ IHl]; intros n.
    - exists [], n. repeat split; [done | constructor].
    - destruct (Hc n) as (c' & n1 & Hrc & Hsc & Hlt & Hin).
      destruct (IHl n1) as (l' & n2 & Hrl & Hsl & Hle & Hinl).
      exists (c' :: l'), n2. split; [|split; [|split]].
      + simpl. eapply runs_bind; [exact Hrc|]. eapply runs_bind; [exact Hrl|]. apply runs_ret.
      + apply similar_all_cons. done.
      + lia.
      + simpl. apply within_app; (eapply within_weaken; [| |eassumption]; lia). }
  exists (MkField n1 s k l'), (S n1). split; [|split; [|split]].
  - change (create (MkField a s k l)) with (create_all l ≫= fun l' => construct s k l').
    eapply runs_bind; [exact Hrun|]. apply runs_construct.
  - rewrite similar_unfold, HR. done.
  - lia.
  - rewrite addresses_unfold. constructor; [lia|].
    eapply within_weaken; [| |eassumption]; lia.
Qed.

Lemma same_type_set_id s s' id : same_type s (set_fOnDiskId id s') = same_type s s'.
Proof. reflexivity. Qed.

Lemma sync_spec (T : Field) :
  forall G rest, similar same_type T G = true ->
  exists G', sync (fOnDiskId (self T) :: ids (descendants T) ++ rest) G = (G', rest)
             /\ similar same_type_and_id T G' = true
             /\ addresses G' = addresses G.
Proof.
  induction T as [a s k l IH] using Field_nested_ind.
  intros [a' s' k' l'] rest. rewrite similar_unfold.
  intros [Hs Hl]%andb_true_iff. rewrite descendants_unfold. simpl self.
  assert (exists l'', sync_all (ids (descendants_all l) ++ rest) l' = (l'', rest)
                      /\ similar_all same_type_and_id l l'' = true
                      /\ addresses_all l'' = addresses_all l')
    as (l'' & Hrun & Hsim & Haddr).
  { clear -IH Hl. revert l' rest Hl.
    induction IH as [|c l Hc _ IHl]; intros [|c' l'] rest; simpl; try done.
    { intros _. by exists []. }
    intros [Hcc Hll]%andb_true_iff.
    destruct (Hc c' (ids (descendants_all l) ++ rest) Hcc) as (c'' & Hrc & Hsc & Hac).
    destruct (IHl l' rest Hll) as (l'' & Hrl & Hsl & Hal).
    exists (c'' :: l''). unfold ids in *. rewrite !fmap_app, <- !app_assoc.
    rewrite Hrc, Hrl. split; [done|]. split.
    - apply similar_all_cons. done.
    - simpl. by rewrite Hac, Hal. }
  exists (MkField a' (set_fOnDiskId (fOnDiskId s) s') k' l'').
  rewrite sync_unfold, Hrun. split; [reflexivity|]. split.
  - rewrite similar_unfold, Hsim. unfold same_type_and_id.
    rewrite same_type_set_id, Hs. simpl. by rewrite bool_decide_eq_true_2.
  - rewrite !addresses_unfold. by rewrite Haddr.
Qed.

Lemma sync_all_spec (l l' : list Field) :
  similar_all same_type l l' = true ->
  exists l'', sync_all (ids (descendants_all l)) l' = (l'', [])
              /\ similar_all same_type_and_id l l'' = true
              /\ addresses_all l'' = addresses_all l'.
Proof.
  revert l'. induction l as [|c l IH]; intros [|c' l']; simpl; try done.
  { intros _. by exists []. }
  intros [Hc Hl]%andb_true_iff.
  destruct (sync_spec c c' (ids (descendants_all l)) Hc) as (c'' & Hrc & Hsc & Hac).
  destruct (IH l' Hl) as (l'' & Hrl & Hsl & Hal).
  exists (c'' :: l''). unfold ids in *. rewrite !fmap_app.
  rewrite Hrc, Hrl. split; [done|]. split.
  - apply similar_all_cons. done.
  - simpl. by rewrite Hac, Hal.
Qed.

Lemma create_all_spec R (HR : forall s, R s s = true) (l : list Field) (n : nat) :
  exists l' n', runs (create_all l) n l' n' /\ similar_all R l l' = true
                /\ (n <= n')%nat /\ within n n' (addresses_all l').
Proof.
  revert n. induction l as [|c l IHl]; intros n.
  - exists [], n. repeat split; [done | constructor].
  - destruct (create_spec R HR c n) as (c' & n1 & Hrc & Hsc & Hlt & Hin).
    destruct (IHl n1) as (l' & n2 & Hrl & Hsl & Hle & Hinl).
    exists (c' :: l'), n2. split; [|split; [|split]].
    + simpl. eapply runs_bind; [exact Hrc|]. eapply runs_bind; [exact Hrl|]. apply runs_ret.
    + apply similar_all_cons. done.
    + lia.
    + simpl. apply within_app; (eapply within_weaken; [| |eassumption]; lia).
Qed.

Lemma append_not_empty (a b : string) : a <> "" -> a +:+ b <> "".
Proof. destruct a; [done|]. intros _. discriminate. Qed.

Lemma join_types_not_empty (types : list string) : types <> [] -> join_types types <> "".
Proof.
  unfold join_types. destruct types as [|t ts]; [done|]. intros _. simpl.
  assert (forall acc, acc <> "" ->
            foldl (fun result t => result +:+ t +:+ ",") acc ts <> "") as H.
  { induction ts as [|t' ts IH]; intros acc Hacc; simpl; [done|].
    apply IH. by apply append_not_empty. }
  apply H. destruct t; discriminate.
Qed.

Lemma cloned_intro (a : nat) s k l n a' hdr k' l' n' :
  fType s = fType hdr -> fStructure s = fStructure hdr -> fColumns hdr = [] ->
  similar_all same_type_and_id l l' = true ->
  (n <= a' < n')%nat -> within n n' (addresses_all l') ->
  cloned (MkField a s k l) n (MkField a' (copy_clone_members s hdr) k' l') n'.
Proof.
  intros Ht Hs Hc Hl Ha Hin. unfold cloned, isomorphic.
  rewrite similar_unfold, Hl, addresses_unfold. simpl.
  unfold same_type_and_id, same_type. simpl.
  rewrite !bool_decide_eq_true_2 by done.
  repeat split; try done; try lia. by constructor.
Qed.

Section CloneProperties.
Variable masks : TraitMasks.
Variable class_traits : TClass -> Z.
Variable class_subfields : TClass -> list Field.
Variable collection_item : TClass -> Field.

#[local] Abbreviation Clone := (Cloning.Clone masks class_traits class_subfields collection_item).
#[local] Abbreviation Clone_each :=
  (Cloning.Clone_each masks class_traits class_subfields collection_item).
#[local] Abbreviation CloneImpl :=
  (Cloning.CloneImpl masks class_traits class_subfields collection_item).
#[local] Abbreviation well_constructed :=
  (Cloning.well_constructed class_subfields collection_item).
#[local] Abbreviation clones_well' :=
  (Cloning.clones_well masks class_traits class_subfields collection_item).

Lemma Clone_unfold a s k l newName :
  Clone (MkField a s k l) newName
  = (CloneImpl (MkField a s k l) newName
       (Clone_each l)
       (match l with
        | c :: _ => Clone c (fName (self c))
        | [] => fatal "fSubFields[0]"
        end)
       (match l with
        | _ :: c :: _ => Clone c (fName (self c))
        | _ => fatal "fSubFields[1]"
        end)
     ≫= fun clone => mret (set_self (copy_clone_members s (self clone)) clone)).
Proof. reflexivity. Qed.

Lemma well_constructed_each a s k l :
  well_constructed (MkField a s k l) = true ->
  match k with
  | ClassField _ | CollectionClassField _ => True
  | _ => Forall (fun c => well_constructed c = true) l
  end.
Proof.
  simpl. intros [_ H]%andb_true_iff. destruct k; try done;
    (induction l as [|c l IH]; [constructor|];
     apply andb_true_iff in H as [Hc Hl]; constructor; [exact Hc | exact (IH Hl)]).
Qed.

Lemma Clone_each_spec (l : list Field) :
  Forall clones_well' l -> Forall (fun c => well_constructed c = true) l ->
  forall n, exists l' n', runs (Clone_each l) n l' n'
                          /\ similar_all same_type_and_id l l' = true
                          /\ (n <= n')%nat /\ within n n' (addresses_all l').
Proof.
  intros IH Hwf. induction IH as [|c l Hc _ IHl]; intros n.
  - exists [], n. repeat split; [done | constructor].
  - apply Forall_cons in Hwf as [Hwc Hwl].
    destruct (Hc Hwc (fName (self c)) n) as (c' & n1 & Hrc & Hiso & _ & _ & _ & _ & Hlt & Hin).
    destruct (IHl Hwl n1) as (l' & n2 & Hrl & Hsl & Hle & Hinl).
    exists (c' :: l'), n2. split; [|split; [|split]].
    + simpl. eapply runs_bind; [exact Hrc|]. eapply runs_bind; [exact Hrl|]. apply runs_ret.
    + apply similar_all_cons. done.
    + lia.
    + simpl. apply within_app; (eapply within_weaken; [| |eassumption]; lia).
Qed.

Ltac split_wf H :=
  simpl in H; apply andb_true_iff in H as [H _];
  repeat match type of H with
         | (_ && _) = true => let H' := fresh "Hwf" in apply andb_true_iff in H as [H H']
         end;
  repeat match goal with
         | H : bool_decide _ = true |- _ => apply bool_decide_eq_true in H
         end.

Ltac one_subfield l IH Hsub n :=
  let c := fresh "c" in
  destruct l as [|c [|? ?]]; try discriminate;
  apply Forall_cons in IH as [IH _]; apply Forall_cons in Hsub as [Hsub _];
  destruct (IH Hsub (fName (self c)) n)
    as (?c' & ?n1 & ?Hrc & ?Hiso & _ & _ & _ & _ & ?Hlt & ?Hin).

Ltac run_one_subfield Hrc :=
  eapply runs_bind; [|apply runs_ret];
  eapply runs_bind; [exact Hrc|]; apply runs_construct.

Lemma isomorphic_single (c c' : Field) :
  isomorphic c c' = true -> similar_all same_type_and_id [c] [c'] = true.
Proof. unfold isomorphic. simpl. intros ->. done. Qed.

Lemma isomorphic_type (c c' : Field) :
  isomorphic c c' = true -> fType (self c) = fType (self c').
Proof. intros H. by apply same_type_and_id_type, similar_self. Qed.

Lemma Clone_spec (F : Field) : clones_well' F.
Proof.
  induction F as [a s k l IH] using Field_nested_ind.
  intros Hwf newName n. rewrite Clone_unfold.
  pose proof (well_constructed_each _ _ _ _ Hwf) as Hsub.
  unfold Cloning.CloneImpl. simpl kind. simpl self.
  destruct k.
  - (* RFieldZero *)
    destruct (Clone_each_spec l IH Hsub (S n)) as (l' & n1 & Hrl & Hsl & Hle & Hin).
    split_wf Hwf.
    eexists _, _. split.
    { eapply runs_bind; [|apply runs_ret].
      eapply runs_bind; [apply runs_allocate|].
      eapply runs_bind; [exact Hrl|]. apply runs_ret. }
    apply cloned_intro; try done; try lia.
    eapply within_weaken; [| |eassumption]; lia.
  - (* leaf kinds *)
    split_wf Hwf. subst l.
    eexists _, _. split.
    { eapply runs_bind; [|apply runs_ret]. apply runs_construct. }
    apply cloned_intro; try done; try lia. constructor.
  - (* RClassField *)
    split_wf Hwf.
    destruct (create_all_spec same_type same_type_refl (class_subfields fClass) n)
      as (subs & n1 & Hrs & Hss & Hle & Hin).
    pose proof (similar_all_trans same_type same_type_trans _ _ _ Hwf0 Hss) as Hsim.
    destruct (sync_all_spec l subs Hsim) as (l'' & Hsync & Hiso & Haddr).
    eexists _, _. split.
    { eapply runs_bind; [|apply runs_ret].
      eapply runs_bind; [|apply runs_ret].
      unfold Cloning.RClassField_ctor.
      eapply runs_bind; [exact Hrs|]. apply runs_construct. }
    unfold SyncFieldIDs. rewrite descendants_unfold. fold (ids (descendants_all l)).
    rewrite Hsync. simpl.
    apply cloned_intro; try done; try lia.
    rewrite Haddr. eapply within_weaken; [| |eassumption]; lia.
  - (* REnumField *)
    split_wf Hwf. one_subfield l IH Hsub n.
    eexists _, _. split; [run_one_subfield Hrc|].
    apply cloned_intro; try done; try lia.
    + by apply isomorphic_single.
    + simpl. rewrite app_nil_r. eapply within_weaken; [| |eassumption]; lia.
  - (* RCollectionClassField *)
    split_wf Hwf.
    destruct (create_spec same_type same_type_refl (collection_item collectionClass) n)
      as (item & n1 & Hrs & Hss & Hle & Hin).
    assert (similar_all same_type l [item] = true) as Hsim.
    { eapply similar_all_trans; [apply same_type_trans|exact Hwf0|].
      simpl. by rewrite Hss. }
    destruct (sync_all_spec l [item] Hsim) as (l'' & Hsync & Hiso & Haddr).
    eexists _, _. split.
    { eapply runs_bind; [|apply runs_ret].
      eapply runs_bind; [|apply runs_ret].
      unfold Cloning.RCollectionClassField_ctor.
      eapply runs_bind; [exact Hrs|]. apply runs_construct. }
    unfold SyncFieldIDs. rewrite descendants_unfold. fold (ids (descendants_all l)).
    rewrite Hsync. simpl.
    apply cloned_intro; try done; try lia.
    rewrite Haddr. simpl. rewrite app_nil_r.
    eapply within_weaken; [| |eassumption]; lia.
  - (* RRecordField *)
    destruct (Clone_each_spec l IH Hsub n) as (l' & n1 & Hrl & Hsl & Hle & Hin).
    split_wf Hwf.
    eexists _, _. split.
    { eapply runs_bind; [|apply runs_ret].
      eapply runs_bind; [exact Hrl|]. apply runs_construct. }
    apply cloned_intro; try done; try lia.
    eapply within_weaken; [| |eassumption]; lia.
  - (* RVectorField *)
    split_wf Hwf. one_subfield l IH Hsub n.
    eexists _, _. split; [run_one_subfield Hrc|].
    apply cloned_intro; try done; try lia.
    + simpl in *. by rewrite <- (isomorphic_type _ _ Hiso).
    + by apply isomorphic_single.
    + simpl. rewrite app_nil_r. eapply within_weaken; [| |eassumption]; lia.
  - (* RRVecField *)
    split_wf Hwf. one_subfield l IH Hsub n.
    eexists _, _. split; [run_one_subfield Hrc|].
    apply cloned_intro; try done; try lia.
    + simpl in *. by rewrite <- (isomorphic_type _ _ Hiso).
    + by apply isomorphic_single.
    + simpl. rewrite app_nil_r. eapply within_weaken; [| |eassumption]; lia.
  - (* RArrayField *)
    split_wf Hwf. one_subfield l IH Hsub n.
    eexists _, _. split; [run_one_subfield Hrc|].
    apply cloned_intro; try done; try lia.
    + simpl in *. by rewrite <- (isomorphic_type _ _ Hiso).
    + by apply isomorphic_single.
    + simpl. rewrite app_nil_r. eapply within_weaken; [| |eassumption]; lia.
  - (* RVariantField *)
    destruct (Clone_each_spec l IH Hsub n) as (l' & n1 & Hrl & Hsl & Hle & Hin).
    split_wf Hwf.
    pose proof (similar_all_length _ _ _ Hsl) as Hlen.
    pose proof (similar_all_types _ _ _ same_type_and_id_type Hsl) as Htypes.
    eexists _, _. split.
    { eapply runs_bind; [|apply runs_ret].
      eapply runs_bind; [exact Hrl|].
      eapply runs_bind.
      { unfold runs, R__ASSERT. rewrite bool_decide_eq_false_2; [reflexivity|].
        apply join_types_not_empty. destruct l'; simpl in *; [lia|discriminate]. }
      eapply runs_bind.
      { unfold runs, R__ASSERT. rewrite bool_decide_eq_true_2 by lia. reflexivity. }
      apply runs_construct. }
    apply cloned_intro; try done; try lia.
    + simpl. by rewrite <- Htypes.
    + eapply within_weaken; [| |eassumption]; lia.
  - (* RUniquePtrField *)
    split_wf Hwf. one_subfield l IH Hsub n.
    eexists _, _. split; [run_one_subfield Hrc|].
    apply cloned_intro; try done; try lia.
    + by apply isomorphic_single.
    + simpl. rewrite app_nil_r. eapply within_weaken; [| |eassumption]; lia.
  - (* RPairField *)
    split_wf Hwf.
    destruct l as [|c0 [|c1 [|? ?]]]; try discriminate.
    destruct fOffsets as [|off0 [|off1 [|? ?]]]; try discriminate.
    apply Forall_cons in IH as [IH0 [IH1 _]%Forall_cons].
    apply Forall_cons in Hsub as [Hsub0 [Hsub1 _]%Forall_cons].
    destruct (IH0 Hsub0 (fName (self c0)) n)
      as (c0' & n1 & Hr0 & Hiso0 & _ & _ & _ & _ & Hlt0 & Hin0).
    destruct (IH1 Hsub1 (fName (self c1)) n1)
      as (c1' & n2 & Hr1 & Hiso1 & _ & _ & _ & _ & Hlt1 & Hin1).
    eexists _, _. split.
    { eapply runs_bind; [|apply runs_ret].
      eapply runs_bind; [exact Hr0|].
      eapply runs_bind; [exact Hr1|].
      eapply runs_bind; [reflexivity|].
      eapply runs_bind; [reflexivity|].
      apply runs_construct. }
    apply cloned_intro; try done; try lia.
    + simpl in *.
      by rewrite <- (isomorphic_type _ _ Hiso0), <- (isomorphic_type _ _ Hiso1).
    + unfold isomorphic in *. simpl. by rewrite Hiso0, Hiso1.
    + simpl. rewrite app_nil_r.
      apply within_app; (eapply within_weaken; [| |eassumption]; lia).
  - (* RTupleField *)
    destruct (Clone_each_spec l IH Hsub n) as (l' & n1 & Hrl & Hsl & Hle & Hin).
    split_wf Hwf.
    pose proof (similar_all_length _ _ _ Hsl) as Hlen.
    pose proof (similar_all_types _ _ _ same_type_and_id_type Hsl) as Htypes.
    eexists _, _. split.
    { eapply runs_bind; [|apply runs_ret].
      eapply runs_bind; [exact Hrl|].
      eapply runs_bind.
      { rewrite bool_decide_eq_false_2; [apply runs_ret|].
        intros ->. simpl in *. lia. }
      apply runs_construct. }
    apply cloned_intro; try done; try lia.
    + simpl. by rewrite <- Htypes.
    + eapply within_weaken; [| |eassumption]; lia.
  - (* RCollectionField *)
    destruct (Clone_each_spec l IH Hsub (S n)) as (l' & n1 & Hrl & Hsl & Hle & Hin).
    split_wf Hwf.
    eexists _, _. split.
    { eapply runs_bind; [|apply runs_ret].
      eapply runs_bind; [apply runs_allocate|].
      eapply runs_bind; [exact Hrl|]. apply runs_ret. }
    apply cloned_intro; try done; try lia.
    eapply within_weaken; [| |eassumption]; lia.
Qed.
End CloneProperties.

Lemma isomorphic_node a s k l a' s' k' l' :
  isomorphic (MkField a s k l) (MkField a' s' k' l') = true
  <-> fType s = fType s' /\ fStructure s = fStructure s' /\ fOnDiskId s = fOnDiskId s'
      /\ Forall2 (fun c c' => isomorphic c c' = true) l l'.
Proof.
  unfold isomorphic. rewrite similar_unfold. unfold same_type_and_id, same_type.
  rewrite !andb_true_iff, !bool_decide_eq_true.
  assert (similar_all same_type_and_id l l' = true
          <-> Forall2 (fun c c' => similar same_type_and_id c c' = true) l l') as ->.
  { revert l'. induction l as [|c l IH]; intros [|c' l']; simpl.
    - split; [constructor | done].
    - split; [done | intros H; inversion H].
    - split; [done | intros H; inversion H].
    - rewrite andb_true_iff, IH. split.
      + intros [? ?]. by constructor.
      + intros H. inversion H; subst. done. }
  tauto.
Qed.

(** X26: for every field tree [F] of the kinds of [FieldKind] (the kinds
    whose [CloneImpl] is defined in RField.cxx, the kinds without
    subfields and the zero field; [RField<std::vector<bool>>] is not
    among them) as the constructors build it, [Clone] returns a tree
    isomorphic to [F]: corresponding fields have the same type name, the
    same structure and the same on-disk id, also below class and
    proxy-collection fields, whose subfields are created anew and then
    given the ids of the original.  The type alias, the description and
    the representative pointer of the root are those of [F].  Every field
    of the clone is an object allocated by the call, so none of them is a
    field of [F]. *)
Theorem Clone_isomorphic
    (masks : TraitMasks) (class_traits : TClass -> Z)
    (class_subfields : TClass -> list Field) (collection_item : TClass -> Field)
    (F : Field) (newName : string) (next : nat) :
  Cloning.well_constructed class_subfields collection_item F = true ->
  exists (F' : Field) (next' : nat),
    Cloning.Clone masks class_traits class_subfields collection_item F newName next
    = (Normal F', next')
    /\ isomorphic F F' = true
    /\ fTypeAlias (self F') = fTypeAlias (self F)
    /\ fDescription (self F') = fDescription (self F)
    /\ fColumnRepresentative (self F') = fColumnRepresentative (self F)
    /\ (forall a, a ∈ addresses F' -> (next <= a < next')%nat)
    /\ (within 0 next (addresses F) -> forall a, a ∈ addresses F' -> a ∉ addresses F).
Proof.
  intros Hwf.
  destruct (Clone_spec masks class_traits class_subfields collection_item F Hwf newName next)
    as (F' & next' & Hrun & Hiso & Halias & Hdesc & Hrep & _ & _ & Hin).
  exists F', next'. unfold within in *. rewrite Forall_forall in Hin.
  repeat split; try done; try (by apply Hin).
  intros Hold a Ha Ha'. rewrite Forall_forall in Hold.
  specialize (Hin a Ha). specialize (Hold a Ha'). lia.
Qed.

(** ** Connecting to a page source *)

(** C10: on a field that has no column yet and whose column representative
    is fixed, [ConnectPageSource] throws and leaves the field as it was: no
    column has been generated or connected.  This is so after a call of
    [SetColumnRepresentative] that returned, and for the clone of a field
    with a fixed representative.  A call of [ConnectPageSource] that
    returns was made on a field without a fixed representative. *)
Theorem ConnectPageSource_fixed_representative
    (reps : RColumnRepresentations)
    (GenerateColumnsImpl : RNTupleDescriptor -> Method RFieldBase unit)
    (OnConnectPageSource : Method RFieldBase unit) (desc : RNTupleDescriptor) :
  let connect := RFieldBase.ConnectPageSource reps GenerateColumnsImpl OnConnectPageSource desc in
  let what := "fixed column representative only valid when connecting to a page sink" in
  (forall f, fColumns f = [] -> is_Some (fColumnRepresentative f) ->
             connect f = (Throw what, f))
  /\ (forall rep f f',
        RFieldBase.SetColumnRepresentative reps rep f = (Normal tt, f') ->
        connect f' = (Throw what, f'))
  /\ (forall masks class_traits class_subfields collection_item F newName next F' next',
        Cloning.well_constructed class_subfields collection_item F = true ->
        is_Some (fColumnRepresentative (self F)) ->
        Cloning.Clone masks class_traits class_subfields collection_item F newName next
        = (Normal F', next') ->
        connect (self F') = (Throw what, self F'))
  /\ (forall f, returns (connect f) = true -> fColumnRepresentative f = None).
Proof.
  intros connect what.
  assert (forall f, fColumns f = [] -> is_Some (fColumnRepresentative f) ->
                    connect f = (Throw what, f)) as Hthrow.
  { intros f Hcols [p Hp]. subst connect.
    unfold RFieldBase.ConnectPageSource, mbind, Method_bind, this, R__ASSERT, throw.
    by rewrite Hcols, Hp. }
  split; [exact Hthrow|]. split; [|split].
  - intros rep f f'.
    unfold RFieldBase.SetColumnRepresentative, mbind, Method_bind, this, throw, assign.
    destruct (bool_decide (fColumns f = [])) eqn:Hcols; simpl; [|done].
    apply bool_decide_eq_true in Hcols.
    destruct (std_find _ rep); simpl; [|done].
    intros [= <-]. apply Hthrow; [done | by eexists].
  - intros masks class_traits class_subfields collection_item F newName next F' next'
      Hwf Hrep Hrun.
    destruct (Clone_spec masks class_traits class_subfields collection_item F Hwf newName next)
      as (F'' & next'' & Hrun' & _ & _ & _ & Hrep' & Hcols & _).
    unfold runs in Hrun'. rewrite Hrun in Hrun'. injection Hrun' as <- <-.
    apply Hthrow; [done | by rewrite Hrep'].
  - intros f. subst connect.
    unfold RFieldBase.ConnectPageSource, mbind, Method_bind, this, R__ASSERT, throw, returns.
    destruct (bool_decide (fColumns f = [])); simpl; [|done].
    by destruct (fColumnRepresentative f).
Qed.

(** ** The string field *)

Lemma resize_length (n : Z) (s : list Ascii.ascii) :
  length (RField_string.resize n s) = Z.to_nat n.
Proof.
  unfold RField_string.resize. rewrite length_app, length_take, length_replicate. lia.
Qed.

Lemma ReadGlobalImpl_chars GetCollectionInfo ReadV globalIndex to start nChars chars :
  GetCollectionInfo globalIndex = (start, nChars) -> nChars <> 0%Z ->
  ReadV start nChars = chars -> length chars = Z.to_nat nChars ->
  RField_string.ReadGlobalImpl GetCollectionInfo ReadV globalIndex to
  = String.string_of_list_ascii chars.
Proof.
  intros Hinfo Hn Hread Hlen. unfold RField_string.ReadGlobalImpl.
  rewrite Hinfo, bool_decide_eq_false_2 by done. rewrite Hread.
  rewrite drop_ge by (rewrite resize_length; lia). by rewrite app_nil_r.
Qed.

(** C4: appending "hello", the empty string and a string of three bytes
    to a string field at the start of a cluster, that is after
    [CommitCluster], writes 5, 5, 8 to the index column and the eight
    characters, in order, to the character column; in the first cluster
    the three entries read back as they were appended, the second as the
    empty string.  Reading any entry whose character count is 0 yields the
    empty string.  [CommitCluster] sets the cumulative index to 0, so that
    the next append writes the length of its string. *)
Theorem string_field_appends (packedSize : Z) (s3 : string) (f0 : RField_string) :
  String.length s3 = 3%nat ->
  let appended :=
    (RField_string.CommitCluster ;;
     RField_string.AppendImpl packedSize "hello" ;;
     RField_string.AppendImpl packedSize "" ;;
     RField_string.AppendImpl packedSize s3) f0 in
  returns appended = true
  /\ str_column0 appended.2 = str_column0 f0 ++ [5; 5; 8]%Z
  /\ str_column1 appended.2
     = str_column1 f0 ++ RField_string.data "hello" ++ RField_string.data s3
  /\ (str_column0 f0 = [] -> str_column1 f0 = [] ->
      forall to, RField_string.read_back appended.2 0 to = "hello"
                 /\ RField_string.read_back appended.2 1 to = ""
                 /\ RField_string.read_back appended.2 2 to = s3)
  /\ (forall GetCollectionInfo ReadV globalIndex to,
        (GetCollectionInfo globalIndex).2 = 0%Z ->
        RField_string.ReadGlobalImpl GetCollectionInfo ReadV globalIndex to = "")
  /\ (forall f s,
        str_fIndex (RField_string.CommitCluster f).2 = 0%Z
        /\ str_column0 ((RField_string.CommitCluster ;;
                         RField_string.AppendImpl packedSize s) f).2
           = str_column0 f ++ [wrap64 (Z.of_nat (String.length s))]).
Proof.
  intros Hlen.
  destruct s3 as [|c1 [|c2 [|c3 [|]]]]; try discriminate. clear Hlen.
  destruct f0 as [index0 column0 column1].
  cbv zeta. split; [reflexivity|].
  split; [simpl; by rewrite <- !app_assoc|].
  split; [simpl; by rewrite <- !app_assoc|].
  split; [|split].
  - cbn [str_column0 str_column1]. intros -> -> to.
    unfold RField_string.read_back. split; [|split].
    + eapply eq_trans;
        [eapply ReadGlobalImpl_chars; [reflexivity | discriminate | reflexivity..]
        | reflexivity].
    + reflexivity.
    + eapply eq_trans;
        [eapply ReadGlobalImpl_chars; [reflexivity | discriminate | reflexivity..]
        | reflexivity].
  - intros GetCollectionInfo ReadV globalIndex to.
    unfold RField_string.ReadGlobalImpl.
    destruct (GetCollectionInfo globalIndex) as [start nChars]. simpl.
    intros ->. reflexivity.
  - intros f s. split; reflexivity.
Qed.

(** ** Nullable fields *)

(** C2: [GenerateColumnsImpl] on a nullable field that has the default
    column representative (and, as [ConnectPageSink] asserts, no column
    yet) returns, and the encoding it chooses is the dense one exactly
    when the value size of the item is below 4: the one column it creates
    is the bit column [kBit] in that case and the index column
    [kSplitIndex64] otherwise, the representative of the field is that
    column type, and in the dense case the default item is generated.
    Under the sparse
    encoding, appending null, [X], null, [Y] at the start of a cluster
    writes 0, 1, 1, 2 to the index column and hands [X] and [Y] to the
    item field; [GetItemIndex] then returns the invalid cluster index for
    the first and third entry, and the positions 0 and 1 of [X] and [Y]
    for the second and fourth. *)
Theorem nullable_field_encoding
    (Item : Type) (itemValueSize : Z) (itemGenerateValue : Item) (itemAppend : Item -> Z) :
  (forall f : RNullableField Item,
     fColumnRepresentative (nul_base f) = None -> fColumns (nul_base f) = [] ->
     let generated := RNullableField.GenerateColumnsImpl Item itemValueSize itemGenerateValue f in
     let chosen := if bool_decide (itemValueSize < 4)%Z then kBit else kSplitIndex64 in
     returns generated = true
     /\ (RNullableField.IsDense Item generated.2 = true <-> (itemValueSize < 4)%Z)
     /\ fColumns (nul_base generated.2) = [RColumn_Create chosen 0]
     /\ (colType <$> fColumns (nul_base generated.2) = [kBit] <-> (itemValueSize < 4)%Z)
     /\ RNullableField.GetColumnRepresentative Item generated.2 = [chosen]
     /\ nul_fDefaultItemValue generated.2
        = (if bool_decide (itemValueSize < 4)%Z then Some itemGenerateValue
           else nul_fDefaultItemValue f)
     /\ nul_fNWritten generated.2 = nul_fNWritten f
     /\ nul_principal generated.2 = nul_principal f
     /\ nul_items generated.2 = nul_items f)
  /\ (forall (f : RNullableField Item) (X Y : Item) (clusterId : Z),
        RNullableField.IsDense Item f = false ->
        nul_fNWritten f = 0%Z -> nul_principal f = [] ->
        let appended :=
          (RNullableField.AppendNull Item itemAppend ;;
           RNullableField.AppendValue Item itemAppend X ;;
           RNullableField.AppendNull Item itemAppend ;;
           RNullableField.AppendValue Item itemAppend Y) f in
        returns appended = true
        /\ nul_principal appended.2 = [IndexValue 0; IndexValue 1; IndexValue 1; IndexValue 2]
        /\ nul_items appended.2 = nul_items f ++ [X; Y]
        /\ RNullableField.GetItemIndex Item clusterId appended.2 0 = nullIndex
        /\ RNullableField.GetItemIndex Item clusterId appended.2 1
           = {| fClusterId := clusterId; fIndex := 0 |}
        /\ RNullableField.GetItemIndex Item clusterId appended.2 2 = nullIndex
        /\ RNullableField.GetItemIndex Item clusterId appended.2 3
           = {| fClusterId := clusterId; fIndex := 1 |}
        /\ fIndex nullIndex = kInvalidClusterIndex).
Proof.
  split.
  - intros [b w d p i] Hrep Hcols. simpl in Hrep, Hcols.
    destruct b as [nm ty st nr sm tr al de id ve rp co pc]. simpl in Hrep, Hcols. subst rp co.
    cbv zeta.
    unfold RNullableField.GenerateColumnsImpl, mbind, Method_bind, this.
    unfold RFieldBase.HasDefaultColumnRepresentative. simpl.
    destruct (bool_decide (itemValueSize < 4)%Z) eqn:Hsize.
    + apply bool_decide_eq_true in Hsize. split; [reflexivity|].
      split; [by split|]. split; [reflexivity|]. split; [by split|].
      repeat split; reflexivity.
    + apply bool_decide_eq_false in Hsize. split; [reflexivity|].
      split; [split; [discriminate | done]|]. split; [reflexivity|].
      split; [split; [discriminate | done]|].
      repeat split; reflexivity.
  - intros [b w d p i] X Y clusterId Hsparse Hw Hp. simpl in Hw, Hp. subst w p.
    unfold RNullableField.IsDense, RNullableField.GetColumnRepresentative in Hsparse.
    simpl in Hsparse.
    cbv zeta.
    unfold RNullableField.AppendNull, RNullableField.AppendValue,
      RNullableField.GetItemIndex, RNullableField.subfield_Append,
      RNullableField.principal_Append, RNullableField.IsDense,
      RNullableField.GetColumnRepresentative, mbind, Method_bind, this, assign, mret,
      Method_ret, returns.
    simpl. rewrite !Hsparse. simpl. rewrite !Hsparse. simpl. rewrite !Hsparse. simpl.
    rewrite !Hsparse. simpl.
    repeat split; try reflexivity; try (rewrite Hsparse; reflexivity).
    by rewrite <- app_assoc.
Qed.

(** ** Variant fields *)

Section VariantProperties.
Variable Payload : Type.
Variable subfieldAppend : nat -> VariantValue Payload -> Z.
Variable sizeof_RColumnSwitch : Z.

#[local] Abbreviation AppendImpl :=
  (RVariantField.AppendImpl Payload subfieldAppend sizeof_RColumnSwitch).

(** One call of [AppendImpl] with a value that holds alternative [t]. *)
Lemma RVariantField_AppendImpl_alternative
    (f : RVariantField Payload) (from : VariantValue Payload) (t n : Z) :
  RVariantField.GetTag Payload from = t -> (0 < t)%Z ->
  var_fNWritten f !! Z.to_nat (t - 1) = Some n ->
  AppendImpl from f
  = (Normal (wrap64 (subfieldAppend (Z.to_nat (t - 1)) from + sizeof_RColumnSwitch)),
     {| var_fNWritten := <[Z.to_nat (t - 1) := wrap64 (n + 1)]> (var_fNWritten f);
        var_column0 := var_column0 f ++ [{| sw_index := wrap64 (to_int n); sw_tag := t |}];
        var_appended := var_appended f ++ [(Z.to_nat (t - 1), from)] |}).
Proof.
  intros Htag Hpos Hn. unfold RVariantField.AppendImpl. rewrite Htag.
  assert ((0 <? t)%Z = true) as -> by (apply Z.ltb_lt; lia).
  unfold mbind, Method_bind, this, subscript, assign, mret, Method_ret.
  rewrite Hn. reflexivity.
Qed.

Lemma wrap64_to_int (n : Z) : (0 <= n < 2 ^ 31)%Z -> wrap64 (to_int n) = n.
Proof.
  intros Hn. unfold wrap64, to_int.
  rewrite (Z.mod_small (n + 2 ^ 31)) by lia.
  rewrite Z.mod_small; lia.
Qed.

End VariantProperties.

(** X1: when a value holding alternative [t > 0] is appended and fewer
    than [2 ^ 31] values of that alternative were counted before, the value
    is handed to subfield [t - 1], the switch record carries the count and
    the tag [t], and the count goes up by one. *)
Theorem RVariantField_AppendImpl_counts
    (Payload : Type) (subfieldAppend : nat -> VariantValue Payload -> Z)
    (sizeof_RColumnSwitch : Z)
    (f : RVariantField Payload) (from : VariantValue Payload) (t n : Z) :
  RVariantField.GetTag Payload from = t -> (0 < t)%Z ->
  var_fNWritten f !! Z.to_nat (t - 1) = Some n -> (0 <= n < 2 ^ 31)%Z ->
  let appended := RVariantField.AppendImpl Payload subfieldAppend sizeof_RColumnSwitch from f in
  returns appended = true
  /\ var_appended appended.2 = var_appended f ++ [(Z.to_nat (t - 1), from)]
  /\ var_column0 appended.2 = var_column0 f ++ [{| sw_index := n; sw_tag := t |}]
  /\ var_fNWritten appended.2 !! Z.to_nat (t - 1) = Some (n + 1)%Z.
Proof.
  intros Htag Hpos Hn Hsmall. cbv zeta.
  rewrite (RVariantField_AppendImpl_alternative _ _ _ f from t n Htag Hpos Hn).
  simpl. rewrite wrap64_to_int by done. repeat split; try reflexivity.
  rewrite list_lookup_insert_eq by (by eapply lookup_lt_Some).
  f_equal. unfold wrap64. rewrite Z.mod_small; lia.
Qed.

(** X2: reading an entry whose tag on disk is 0 constructs and reads no
    alternative, leaves the storage alone and stores the tag 0: [GetTag]
    on the destination yields 0 afterwards. *)
Theorem RVariantField_ReadGlobalImpl_tag_zero
    (Payload : Type) (subfieldGenerate : nat -> Payload -> Payload)
    (subfieldRead : nat -> RClusterIndex -> Payload -> Payload)
    (variantIndex : RClusterIndex) (to : VariantValue Payload) :
  let read := RVariantField.ReadGlobalImpl Payload subfieldGenerate subfieldRead
                (variantIndex, 0%Z) to in
  read.1 = []
  /\ var_storage read.2 = var_storage to
  /\ var_index read.2 = (-1)%Z
  /\ RVariantField.GetTag Payload read.2 = 0%Z.
Proof. repeat split. Qed.

Lemma RVariantField_iterated_count (from : VariantValue unit) (n : nat) :
  RVariantField.GetTag unit from = 1%Z ->
  var_fNWritten
    (Nat.iter n (fun f => (RVariantField.AppendImpl unit (fun _ _ => 4%Z) 16 from f).2)
       (RVariantField.connected unit 1))
  = [wrap64 (Z.of_nat n)].
Proof.
  intros Htag. induction n as [|n IH]; [reflexivity|].
  rewrite Nat.iter_succ.
  erewrite RVariantField_AppendImpl_alternative;
    [|exact Htag|lia|rewrite IH; reflexivity].
  simpl var_fNWritten. rewrite IH. simpl. f_equal.
  unfold wrap64. rewrite Zplus_mod_idemp_l. f_equal. lia.
Qed.

Lemma RVariantField_counters_count
    (Payload : Type) (subfieldAppend : nat -> VariantValue Payload -> Z)
    (sizeof_RColumnSwitch : Z) (t : Z) (vs : list (VariantValue Payload)) :
  forall (g : RVariantField Payload) (n : Z),
  (0 < t)%Z ->
  Forall (fun v => 0 < RVariantField.GetTag Payload v <= Z.of_nat (length (var_fNWritten g)))%Z vs ->
  Forall (fun c => 0 <= c < 2 ^ 64)%Z (var_fNWritten g) ->
  var_fNWritten g !! Z.to_nat (t - 1) = Some n ->
  var_fNWritten
    (foldl (fun f v =>
              (RVariantField.AppendImpl Payload subfieldAppend sizeof_RColumnSwitch v f).2) g vs)
    !! Z.to_nat (t - 1)
  = Some (wrap64 (n + holding t vs)).
Proof.
  intros g n Ht. revert g n.
  induction vs as [|v vs IH]; intros g n Hall Hrange Hn.
  - simpl. rewrite Hn. f_equal. unfold holding. simpl.
    rewrite Z.add_0_r. unfold wrap64. symmetry. apply Z.mod_small.
    by eapply (Forall_lookup_1 _ _ _ _ Hrange).
  - apply Forall_cons in Hall as [Hv Hall]. simpl foldl.
    destruct (lookup_lt_is_Some_2 (var_fNWritten g)
                (Z.to_nat (RVariantField.GetTag Payload v - 1))) as [m Hm]; [lia|].
    rewrite (RVariantField_AppendImpl_alternative Payload subfieldAppend
               sizeof_RColumnSwitch g v _ m eq_refl (proj1 Hv) Hm).
    cbn [snd].
    assert (Forall (fun c => 0 <= c < 2 ^ 64)%Z
              (<[Z.to_nat (RVariantField.GetTag Payload v - 1) := wrap64 (m + 1)]>
                 (var_fNWritten g))) as Hrange'.
    { apply Forall_insert; [done|]. unfold wrap64. apply Z.mod_pos_bound. lia. }
    unfold holding. rewrite filter_cons.
    destruct (decide (RVariantField.GetTag Payload v = t)) as [Heq|Hne].
    + rewrite (IH _ (wrap64 (m + 1))); cbn [var_fNWritten].
      * rewrite Heq in Hm. rewrite Hn in Hm. injection Hm as <-.
        f_equal. unfold holding, wrap64. cbn [length].
        rewrite Zplus_mod_idemp_l. f_equal. lia.
      * by rewrite length_insert.
      * done.
      * rewrite Heq. apply list_lookup_insert_eq. by eapply lookup_lt_Some.
    + rewrite (IH _ n); cbn [var_fNWritten].
      * done.
      * by rewrite length_insert.
      * done.
      * rewrite list_lookup_insert_ne; [done|]. lia.
Qed.

(** X4: in a cluster into which the values [vs] have been appended, each
    holding one of the alternatives of the field, the counter of the
    alternative with tag [t] is the number of values of [vs] that hold it,
    modulo [2 ^ 64]. *)
Theorem RVariantField_counter_is_count
    (Payload : Type) (subfieldAppend : nat -> VariantValue Payload -> Z)
    (sizeof_RColumnSwitch : Z) (t : Z) (vs : list (VariantValue Payload))
    (f : RVariantField Payload) :
  (0 < t <= Z.of_nat (length (var_fNWritten f)))%Z ->
  Forall (fun v => 0 < RVariantField.GetTag Payload v <= Z.of_nat (length (var_fNWritten f)))%Z vs ->
  var_fNWritten (appended_in_cluster subfieldAppend sizeof_RColumnSwitch vs f)
    !! Z.to_nat (t - 1)
  = Some (wrap64 (holding t vs)).
Proof.
  intros Ht Hall. unfold appended_in_cluster.
  rewrite (RVariantField_counters_count _ _ _ t vs _ 0%Z).
  - done.
  - lia.
  - simpl. by rewrite length_replicate.
  - simpl. apply Forall_replicate. lia.
  - simpl. apply lookup_replicate_2. lia.
Qed.

(** C3, at the input on which the code departs from the claim: after
    [2 ^ 31] values holding alternative 1 have been appended in a cluster,
    the counter of the alternative is [2 ^ 31], and the switch record
    written for the next such value carries the index [2 ^ 64 - 2 ^ 31]:
    the counter passes through an [int] on its way into the record. *)
Theorem RVariantField_AppendImpl_narrows_index :
  let from : VariantValue unit := {| var_index := 0; var_storage := tt |} in
  let append := fun f => (RVariantField.AppendImpl unit (fun _ _ => 4%Z) 16 from f).2 in
  let f := Nat.iter (Z.to_nat (2 ^ 31)) append (RVariantField.connected unit 1) in
  RVariantField.GetTag unit from = 1%Z
  /\ var_fNWritten f = [2 ^ 31]%Z
  /\ last (var_column0 (append f))
     = Some {| sw_index := 2 ^ 64 - 2 ^ 31; sw_tag := 1 |}.
Proof.
  intros from append f.
  assert (RVariantField.GetTag unit from = 1%Z) as Htag by reflexivity.
  assert (var_fNWritten f = [2 ^ 31]%Z) as Hcount.
  { subst f append. rewrite RVariantField_iterated_count by exact Htag.
    rewrite Z2Nat.id by lia. reflexivity. }
  split; [exact Htag|]. split; [exact Hcount|].
  clearbody f. subst append. cbv beta.
  erewrite RVariantField_AppendImpl_alternative;
    [|exact Htag|lia|rewrite Hcount; reflexivity].
  cbn [snd var_column0]. rewrite last_snoc. reflexivity.
Qed.

(** ** Reading into a vector of items that are not trivial *)

Lemma no_trait_no_trivial_type (masks : TraitMasks) (itemTraits : Z) :
  Z.land itemTraits (kTraitTriviallyConstructible masks) = 0%Z ->
  Z.land itemTraits (kTraitTriviallyDestructible masks) = 0%Z ->
  Z.land itemTraits (kTraitTrivialType masks) = 0%Z.
Proof.
  intros Hc Hd. unfold kTraitTrivialType. by rewrite Z.land_lor_distr_r, Hc, Hd.
Qed.

(** C1, as amended: for an item field that is neither trivially
    constructible nor trivially destructible, reading an entry of 5 items
    into a vector that holds 3 destroys the 3 items, resizes the vector,
    runs the placement constructor for all 5 items and then reads the 5
    items from the columns. *)
Theorem RVectorField_read_grows
    (masks : TraitMasks) (itemTraits fItemSize : Z) (collectionStart : RClusterIndex) :
  Z.land itemTraits (kTraitTriviallyConstructible masks) = 0%Z ->
  Z.land itemTraits (kTraitTriviallyDestructible masks) = 0%Z ->
  (0 < fItemSize)%Z ->
  RVectorField.ReadGlobalImpl masks itemTraits fItemSize collectionStart 5 (3 * fItemSize)
  = [DestroyValueBy 0; DestroyValueBy 1; DestroyValueBy 2; Resize 5;
     GenerateValueAt 0; GenerateValueAt 1; GenerateValueAt 2; GenerateValueAt 3;
     GenerateValueAt 4;
     ItemRead (RVectorField.advance collectionStart 0) 0;
     ItemRead (RVectorField.advance collectionStart 1) 1;
     ItemRead (RVectorField.advance collectionStart 2) 2;
     ItemRead (RVectorField.advance collectionStart 3) 3;
     ItemRead (RVectorField.advance collectionStart 4) 4].
Proof.
  intros Hc Hd Hsize. unfold RVectorField.ReadGlobalImpl, RVectorField.has_trait.
  rewrite (no_trait_no_trivial_type _ _ Hc Hd), Hc, Hd.
  rewrite Z.div_mul by lia. reflexivity.
Qed.

Lemma RVectorField_read_grows_witness :
  RVectorField.ReadGlobalImpl Samples.masks 0 8 {| fClusterId := 0; fIndex := 10 |} 5 (3 * 8)
  = [DestroyValueBy 0; DestroyValueBy 1; DestroyValueBy 2; Resize 5;
     GenerateValueAt 0; GenerateValueAt 1; GenerateValueAt 2; GenerateValueAt 3;
     GenerateValueAt 4;
     ItemRead (RVectorField.advance {| fClusterId := 0; fIndex := 10 |} 0) 0;
     ItemRead (RVectorField.advance {| fClusterId := 0; fIndex := 10 |} 1) 1;
     ItemRead (RVectorField.advance {| fClusterId := 0; fIndex := 10 |} 2) 2;
     ItemRead (RVectorField.advance {| fClusterId := 0; fIndex := 10 |} 3) 3;
     ItemRead (RVectorField.advance {| fClusterId := 0; fIndex := 10 |} 4) 4].
Proof.
  apply (RVectorField_read_grows Samples.masks 0 8); [reflexivity | reflexivity | lia].
Defined.

(** C1, as stated, fails: with items of 8 bytes that have no trait, the
    read of 5 items into a vector of 3 destroys the items 0, 1, 2 and
    constructs the items 0 to 4, where the claim has no item destroyed and
    only the items 3 and 4 constructed. *)
Lemma RVectorField_read_grows_counterexample :
  let events :=
    RVectorField.ReadGlobalImpl Samples.masks 0 8 {| fClusterId := 0; fIndex := 10 |}
      5 (3 * 8) in
  destroyed_by events = [0; 1; 2]%Z
  /\ constructed_by events = [0; 1; 2; 3; 4]%Z
  /\ ~ keeps_items_and_constructs_tail events 3 5.
Proof.
  cbv zeta. split; [reflexivity|]. split; [reflexivity|].
  intros [Hdestroyed _]. discriminate Hdestroyed.
Qed.

(** ** Destroying an [RVec] *)

(** C6, at the input on which the code departs from the claim: an
    [RVec<int>] at address 4096 in its small state, [begin] pointing at the
    inline buffer of the object (address 4112) and the capacity being that
    of the inline buffer.  [DestroyValue] frees [begin]: it compares
    [begin] with the address 4224, sixteen pointers past the object. *)
Theorem RRVecField_DestroyValue_frees_inline_buffer :
  let objPtr := 4096%Z in
  let rvec := {| rv_begin := RRVecField.inlineBuffer 4 objPtr; rv_size := 0;
                 rv_capacity := 12 |} in
  RRVecField.inlineBuffer 4 objPtr = 4112%Z
  /\ RRVecField.DestroyValue Samples.masks 3 4 4 objPtr rvec true = Normal [Free 4112]
  /\ RRVecField.DestroyValue Samples.masks 3 4 4 objPtr
       {| rv_begin := 4224; rv_size := 0; rv_capacity := 12 |} true = Normal [].
Proof. repeat split. Qed.

(** X3: on an [RVec] whose members pass the assertions and whose items
    are trivially destructible, [DestroyValue(objPtr, true)] frees [begin]
    exactly when the capacity is not -1 and [begin] is not the address
    [(dataMemberSz + paddingMiddle) * sizeof_voidp] bytes past the object,
    where [paddingMiddle] is the padding [EvalValueSize] puts in front of
    the inline buffer; it frees nothing else. *)
Theorem RRVecField_DestroyValue_frees
    (masks : TraitMasks) (itemTraits alignOfT fItemSize objPtr : Z) (rvec : RVecMembers) :
  Z.land itemTraits (kTraitTriviallyDestructible masks) <> 0%Z ->
  (0 <= rv_size rvec)%Z -> (-1 <= rv_capacity rvec)%Z ->
  let compared :=
    (objPtr + (RRVecField.dataMemberSz + RRVecField.paddingMiddle alignOfT) * sizeof_voidp)%Z in
  (rv_capacity rvec <> (-1)%Z /\ rv_begin rvec <> compared ->
     RRVecField.DestroyValue masks itemTraits alignOfT fItemSize objPtr rvec true
     = Normal [Free (rv_begin rvec)])
  /\ (rv_capacity rvec = (-1)%Z \/ rv_begin rvec = compared ->
        RRVecField.DestroyValue masks itemTraits alignOfT fItemSize objPtr rvec true
        = Normal []).
Proof.
  intros Htriv Hsize Hcap. cbv zeta.
  unfold RRVecField.DestroyValue, RRVecField.GetRVecDataMembers, RRVecField.paddingMiddle.
  assert ((0 <=? rv_size rvec)%Z = true) as -> by (apply Z.leb_le; lia).
  assert ((-1 <=? rv_capacity rvec)%Z = true) as -> by (apply Z.leb_le; lia).
  assert ((Z.land itemTraits (kTraitTriviallyDestructible masks) =? 0)%Z = false) as ->
    by (apply Z.eqb_neq; done).
  simpl negb. cbv iota. cbn [rv_begin rv_capacity app].
  split.
  - intros [Hc Hb].
    apply Z.eqb_neq in Hc. apply Z.eqb_neq in Hb. rewrite Hc, Hb. reflexivity.
  - intros [Hc|Hb].
    + apply Z.eqb_eq in Hc. rewrite Hc. by rewrite andb_false_r.
    + apply Z.eqb_eq in Hb. rewrite Hb. reflexivity.
Qed.

Lemma RRVecField_DestroyValue_frees_witness :
  RRVecField.DestroyValue Samples.masks 3 4 4 4096
    {| rv_begin := 65536; rv_size := 2; rv_capacity := 16 |} true
  = Normal [Free 65536].
Proof.
  apply (RRVecField_DestroyValue_frees Samples.masks 3 4 4 4096
           {| rv_begin := 65536; rv_size := 2; rv_capacity := 16 |});
    [discriminate | simpl; lia | simpl; lia | split; discriminate].
Defined.

(** ** Connecting to a page sink *)

(** X5: [AutoAdjustColumnTypes] with compression switched off chooses a
    representative for a nullable field that had the default one, so that
    [GenerateColumnsImpl], called next by [ConnectPageSink], no longer
    looks at the size of the item: the encoding is the sparse one whatever
    the size, over a 64-bit index column, or a 32-bit one for small
    clusters. *)
Theorem RNullableField_uncompressed_is_sparse
    (Item : Type) (itemValueSize : Z) (itemGenerateValue : Item)
    (options : RNTupleWriteOptions) (f : RNullableField Item) :
  GetCompression options = 0%Z ->
  fColumnRepresentative (nul_base f) = None -> fColumns (nul_base f) = [] ->
  fTypeAlias (nul_base f) <> "Double32_t" ->
  let adjusted :=
    RNullableField.on_base Item
      (RFieldBase.AutoAdjustColumnTypes Representations.RNullableField options) f in
  let generated :=
    RNullableField.GenerateColumnsImpl Item itemValueSize itemGenerateValue adjusted.2 in
  returns adjusted = true
  /\ returns generated = true
  /\ RNullableField.IsDense Item generated.2 = false
  /\ colType <$> fColumns (nul_base generated.2)
     = [if GetHasSmallClusters options then kIndex32 else kIndex64].
Proof.
  intros Hcompression Hrep Hcols Halias.
  destruct f as [b w d p i]. simpl in Hrep, Hcols, Halias.
  destruct b as [nm ty st nr sm tr al de id ve rp co pc]. simpl in Hrep, Hcols, Halias.
  subst rp co. destruct options as [compression small]. simpl in Hcompression. subst compression.
  cbv zeta.
  unfold RNullableField.on_base, RFieldBase.AutoAdjustColumnTypes, mbind, Method_bind, this.
  unfold RFieldBase.HasDefaultColumnRepresentative. simpl.
  destruct small; simpl;
    rewrite (bool_decide_eq_false_2 (al = "Double32_t")) by done;
    unfold RNullableField.GenerateColumnsImpl, mbind, Method_bind, this; simpl;
    repeat split.
Qed.

Lemma EntryToColumnElementIndex_repetitions
    (parents : list RFieldBase) (f f' : RFieldBase) (globalIndex : Z) :
  fNRepetitions f = fNRepetitions f' ->
  RFieldBase.EntryToColumnElementIndex parents f globalIndex
  = RFieldBase.EntryToColumnElementIndex parents f' globalIndex.
Proof.
  intros Hrepetitions. unfold RFieldBase.EntryToColumnElementIndex.
  destruct parents as [|parent ps]; simpl; unfold RFieldBase.GetNRepetitions;
    by rewrite Hrepetitions.
Qed.

(** X6: [ConnectPageSink] on a string field without columns and with the
    default representative, when [AutoAdjustColumnTypes] returns: the two
    columns of the representative then in force are created, the first is
    the principal column and is connected at
    [EntryToColumnElementIndex(firstEntry)], the second at 0. *)
Theorem ConnectPageSink_string_field
    (parents : list RFieldBase) (options : RNTupleWriteOptions) (firstEntry : Z)
    (f g : RFieldBase) :
  fColumns f = [] -> fColumnRepresentative f = None ->
  RFieldBase.AutoAdjustColumnTypes Representations.RField_string options f = (Normal tt, g) ->
  let connected :=
    RFieldBase.ConnectPageSink Representations.RField_string parents
      RField_string.GenerateColumnsImpl options firstEntry f in
  returns connected = true
  /\ fPrincipalColumn connected.2 = Some 0%nat
  /\ fColumnRepresentative connected.2 = fColumnRepresentative g
  /\ exists t0 t1,
       RFieldBase.GetColumnRepresentative Representations.RField_string g = [t0; t1]
       /\ fColumns connected.2
          = [ {| colType := t0; colIndex := 0;
                 colConnection :=
                   Some (ToSink (fOnDiskId f)
                           (RFieldBase.EntryToColumnElementIndex parents f firstEntry)) |};
              {| colType := t1; colIndex := 1;
                 colConnection := Some (ToSink (fOnDiskId f) 0) |} ].
Proof.
  intros Hcols Hrep Hadjust. cbv zeta.
  destruct f as [nm ty st nr sm tr al de id ve rp co pc]. simpl in Hcols, Hrep. subst rp co.
  unfold RFieldBase.ConnectPageSink, mbind, Method_bind, this, R__ASSERT.
  simpl bool_decide. cbv iota beta.
  revert Hadjust.
  unfold RFieldBase.AutoAdjustColumnTypes, mbind, Method_bind, this,
    RFieldBase.HasDefaultColumnRepresentative.
  destruct options as [compression small]. simpl.
  destruct (bool_decide (compression = 0%Z)), small; simpl;
    destruct (bool_decide (al = "Double32_t"));
    simpl; intros [= <-]; simpl;
    unfold RField_string.GenerateColumnsImpl, mbind, Method_bind, this; simpl;
    (split; [reflexivity|]; split; [reflexivity|]; split; [reflexivity|]);
    eexists _, _; (split; [reflexivity|]);
    unfold RFieldBase.connect_to_sink, RColumn_Create; simpl;
    do 4 f_equal; by apply EntryToColumnElementIndex_repetitions.
Qed.

(** ** Setting and reading the column representative *)

(** X7: on a field without columns, [SetColumnRepresentative] with one of
    the serialization types of the kind returns, changes nothing but the
    representative, and [GetColumnRepresentative] then yields the types
    that were set; the field no longer has the default representative. *)
Theorem SetColumnRepresentative_GetColumnRepresentative
    (reps : RColumnRepresentations) (rep : ColumnRepresentation_t) (f : RFieldBase) :
  fColumns f = [] ->
  rep ∈ RColumnRepresentations.GetSerializationTypes reps ->
  let set := RFieldBase.SetColumnRepresentative reps rep f in
  returns set = true
  /\ RFieldBase.GetColumnRepresentative reps set.2 = rep
  /\ RFieldBase.HasDefaultColumnRepresentative set.2 = false
  /\ set.2 = set_fColumnRepresentative (fColumnRepresentative set.2) f.
Proof.
  intros Hcols Hin. cbv zeta.
  unfold RFieldBase.SetColumnRepresentative, mbind, Method_bind, this, throw, assign.
  rewrite Hcols. simpl.
  destruct (std_find (RColumnRepresentations.GetSerializationTypes
                        (RFieldBase.GetColumnRepresentations reps)) rep) as [i|] eqn:Hfind.
  - apply std_find_Some in Hfind. simpl. repeat split.
    unfold RFieldBase.GetColumnRepresentative, RFieldBase.deref. simpl.
    unfold RColumnRepresentations.GetSerializationTypes in Hfind. by rewrite Hfind.
  - apply std_find_None in Hfind. done.
Qed.

(** ** Connecting to a page source, when the types match *)

Lemma assign_each_match_spec (value : ColumnRepresentation_t) (rows : TypesList_t) :
  forall (i : nat) (acc : option RepresentativePtr),
  (assign_each_match i rows value acc = acc /\ value ∉ rows)
  \/ exists j, assign_each_match i rows value acc = Some (DeserializationRow (i + j))
               /\ rows !! j = Some value.
Proof.
  induction rows as [|t rows IH]; intros i acc; simpl.
  - left. split; [done | apply not_elem_of_nil].
  - destruct (IH (S i) (if decide (t = value) then Some (DeserializationRow i) else acc))
      as [[Hsame Hnot]|(j & Hj & Hrow)].
    + destruct (decide (t = value)) as [->|Hne].
      * right. exists 0%nat. rewrite Hsame, Nat.add_0_r. done.
      * left. split; [done|]. rewrite not_elem_of_cons. done.
    + right. exists (S j). rewrite Hj. split; [f_equal; f_equal; lia | done].
Qed.

(** X8: [ConnectPageSource] on a field of a one-column kind that has no
    columns, the default representative and an on-disk id, when the one
    column type recorded on disk for that id is among the deserialization
    types of the kind: the field gets one column of the on-disk type,
    connected to the source under the id and made the principal column,
    the representative becomes the on-disk representation, the type
    version is taken from the descriptor, and [OnConnectPageSource] runs
    on that state. *)
Theorem ConnectPageSource_adopts_on_disk_types
    (reps : RColumnRepresentations) (parents : list RFieldBase)
    (GetTypeName : EColumnType -> string) (OnConnectPageSource : Method RFieldBase unit)
    (desc : RNTupleDescriptor) (f : RFieldBase) (t : EColumnType) :
  fColumns f = [] -> fColumnRepresentative f = None ->
  fOnDiskId f <> kInvalidDescriptorId ->
  GetColumnIterable desc (fOnDiskId f) = [t] ->
  [t] ∈ RColumnRepresentations.GetDeserializationTypes reps ->
  exists f',
    RFieldBase.ConnectPageSource reps
      (OneColumnField.GenerateColumnsImpl_desc reps parents GetTypeName)
      OnConnectPageSource desc f
    = OnConnectPageSource f'
    /\ fColumns f'
       = [ {| colType := t; colIndex := 0;
              colConnection := Some (ToSource (fOnDiskId f)) |} ]
    /\ fPrincipalColumn f' = Some 0%nat
    /\ RFieldBase.GetColumnRepresentative reps f' = [t]
    /\ fOnDiskTypeVersion f' = GetTypeVersion desc (fOnDiskId f)
    /\ fOnDiskId f' = fOnDiskId f /\ fName f' = fName f /\ fType f' = fType f.
Proof.
  intros Hcols Hrep Hid Hdisk Hin.
  destruct (assign_each_match_spec [t] (RColumnRepresentations.GetDeserializationTypes reps)
              0 None) as [[_ Hnot]|(j & Hj & Hrow)]; [done|].
  eexists. split.
  - unfold RFieldBase.ConnectPageSource, OneColumnField.GenerateColumnsImpl_desc,
      RFieldBase.EnsureCompatibleColumnTypes, mbind, Method_bind, this, R__ASSERT,
      call_const, subscript, emplace_back_column, assign, mret, Method_ret.
    rewrite Hcols, Hrep. simpl.
    rewrite (bool_decide_eq_false_2 _ Hid), Hdisk.
    unfold RFieldBase.GetColumnRepresentations.
    destruct (std_find (RColumnRepresentations.GetDeserializationTypes reps) [t])
      as [i'|] eqn:Hfind'; [|by apply std_find_None in Hfind'].
    apply std_find_Some in Hfind'. rewrite Hfind'. simpl.
    rewrite Hcols, Hrep. simpl. rewrite Hj. simpl.
    rewrite (bool_decide_eq_false_2 _ Hid). simpl. reflexivity.
  - simpl. repeat split.
    unfold RFieldBase.GetColumnRepresentative, RFieldBase.deref. simpl.
    unfold RFieldBase.GetColumnRepresentations,
      RColumnRepresentations.GetDeserializationTypes in *.
    by rewrite Hrow.
Qed.

(** ** Adjusting the column types to the write options *)

(** X9: for every field kind of RField.cxx, [AutoAdjustColumnTypes] on a
    field that has no columns, the default representative and a type
    alias other than [Double32_t] returns for all write options and
    changes nothing but the representative, which stays one of the
    serialization types of the kind.  Without compression the
    representative holds none of the split types the function replaces;
    with small clusters it holds no 64-bit index type; with compression
    and without small clusters the field is left as it was. *)
Theorem AutoAdjustColumnTypes_keeps_valid
    (reps : RColumnRepresentations) (options : RNTupleWriteOptions) (f : RFieldBase) :
  reps ∈ all_representations ->
  fColumns f = [] -> fColumnRepresentative f = None -> fTypeAlias f <> "Double32_t" ->
  let adjusted := RFieldBase.AutoAdjustColumnTypes reps options f in
  let representative := RFieldBase.GetColumnRepresentative reps adjusted.2 in
  returns adjusted = true
  /\ adjusted.2 = set_fColumnRepresentative (fColumnRepresentative adjusted.2) f
  /\ representative ∈ RColumnRepresentations.GetSerializationTypes reps
  /\ (GetCompression options = 0%Z ->
      Forall (fun t => t ∉ split_and_unsplit) representative)
  /\ (GetHasSmallClusters options = true ->
      Forall (fun t => t <> kSplitIndex64 /\ t <> kIndex64) representative)
  /\ (GetCompression options <> 0%Z -> GetHasSmallClusters options = false ->
      adjusted.2 = f).
Proof.
  intros Hin Hcols Hrep Halias.
  destruct f as [nm ty st nr sm tr al de id ve rp co pc]. simpl in Hcols, Hrep, Halias.
  subst rp co. destruct options as [compression small].
  cbv zeta.
  unfold RFieldBase.AutoAdjustColumnTypes, mbind, Method_bind, this,
    RFieldBase.HasDefaultColumnRepresentative.
  cbn [GetCompression GetHasSmallClusters fColumnRepresentative].
  apply list_elem_of_In in Hin. simpl in Hin.
  repeat (destruct Hin as [<-|Hin]); [..|destruct Hin].
  all: destruct (bool_decide (compression = 0%Z)) eqn:Hc;
    [apply bool_decide_eq_true in Hc | apply bool_decide_eq_false in Hc].
  all: destruct small; simpl.
  all: rewrite (bool_decide_eq_false_2 (al = "Double32_t")) by done; simpl.
  all: split; [reflexivity|]; split; [reflexivity|].
  all: split; [solve [repeat constructor]|].
  all: split; [intros ?; first [done | by apply (bool_decide_unpack _)]|].
  all: split; [intros ?; first [done | by apply (bool_decide_unpack _)]|].
  all: intros; done.
Qed.

(** ** Nullable fields, any number of entries *)

Section NullableProperties.
Variable Item : Type.
Variable itemAppend : Item -> Z.

#[local] Abbreviation AppendEach :=
  (for_each (RUniquePtrField.AppendImpl Item itemAppend)).

Lemma running_length (vs : list (option Item)) (n : Z) : length (running n vs) = length vs.
Proof. revert n. induction vs as [|[v|] vs IH]; intros n; simpl; by rewrite ?IH. Qed.

Lemma running_lookup (vs : list (option Item)) :
  forall (n : Z) (i : nat), (i < length vs)%nat ->
  running n vs !! i = Some (n + present (take (S i) vs))%Z.
Proof.
  unfold present.
  induction vs as [|[v|] vs IH]; intros n i Hi; simpl in Hi; [lia| |].
  - destruct i as [|i]; cbn -[Z.of_nat Z.add].
    + done.
    + rewrite IH by lia. f_equal. rewrite Nat2Z.inj_succ. lia.
  - destruct i as [|i]; cbn -[Z.of_nat Z.add].
    + f_equal. simpl. lia.
    + rewrite IH by lia. done.
Qed.

Lemma present_bound (vs : list (option Item)) : (0 <= present vs <= Z.of_nat (length vs))%Z.
Proof.
  unfold present. split; [lia|].
  induction vs as [|[v|] vs IH]; cbn -[Z.of_nat]; lia.
Qed.

Lemma sparse_appends (vs : list (option Item)) :
  forall f : RNullableField Item,
  RNullableField.IsDense Item f = false ->
  (0 <= nul_fNWritten f)%Z ->
  (nul_fNWritten f + Z.of_nat (length vs) < 2 ^ 64)%Z ->
  AppendEach vs f
  = (Normal tt,
     {| nul_base := nul_base f;
        nul_fNWritten := (nul_fNWritten f + present vs)%Z;
        nul_fDefaultItemValue := nul_fDefaultItemValue f;
        nul_principal := nul_principal f ++ (IndexValue <$> running (nul_fNWritten f) vs);
        nul_items := nul_items f ++ omap id vs |}).
Proof.
  unfold present.
  induction vs as [|[v|] vs IH]; intros [b w d p i] Hsparse Hw Hbound;
    simpl in Hw, Hbound.
  - simpl. by rewrite Z.add_0_r, !app_nil_r.
  - simpl for_each. unfold mbind, Method_bind at 1.
    unfold RUniquePtrField.AppendImpl, RNullableField.AppendValue,
      RNullableField.subfield_Append, RNullableField.principal_Append,
      mbind, Method_bind, this, assign, mret, Method_ret.
    cbn -[for_each wrap64 running].
    unfold RNullableField.IsDense, RNullableField.GetColumnRepresentative in Hsparse |- *.
    cbn [nul_base] in Hsparse |- *. rewrite Hsparse.
    cbn -[for_each wrap64 running].
    assert (wrap64 (w + 1) = (w + 1)%Z) as -> by (unfold wrap64; apply Z.mod_small; lia).
    rewrite IH; cbn [nul_base nul_fNWritten nul_principal nul_items nul_fDefaultItemValue].
    + f_equal. f_equal.
      * simpl. lia.
      * by rewrite <- app_assoc.
      * by rewrite <- app_assoc.
    + done.
    + lia.
    + lia.
  - simpl for_each. unfold mbind, Method_bind at 1.
    unfold RUniquePtrField.AppendImpl, RNullableField.AppendNull,
      RNullableField.principal_Append, mbind, Method_bind, this, assign, mret, Method_ret.
    unfold RNullableField.IsDense, RNullableField.GetColumnRepresentative in Hsparse |- *.
    cbn [nul_base] in Hsparse |- *. rewrite Hsparse.
    cbn -[for_each wrap64 running].
    rewrite IH; cbn [nul_base nul_fNWritten nul_principal nul_items nul_fDefaultItemValue].
    + f_equal. f_equal. by rewrite <- app_assoc.
    + done.
    + done.
    + lia.
Qed.

Lemma present_snoc (vs : list (option Item)) (v : option Item) :
  present (vs ++ [v]) = (present vs + match v with Some _ => 1 | None => 0 end)%Z.
Proof.
  unfold present. rewrite omap_app, length_app. destruct v; simpl; lia.
Qed.

Lemma dense_appends (d : Item) (vs : list (option Item)) :
  forall f : RNullableField Item,
  RNullableField.IsDense Item f = true ->
  nul_fDefaultItemValue f = Some d ->
  AppendEach vs f
  = (Normal tt,
     {| nul_base := nul_base f;
        nul_fNWritten := nul_fNWritten f;
        nul_fDefaultItemValue := nul_fDefaultItemValue f;
        nul_principal :=
          nul_principal f ++ ((fun v : option Item => MaskBit (bool_decide (is_Some v))) <$> vs);
        nul_items := nul_items f ++ (default d <$> vs) |}).
Proof.
  induction vs as [|[v|] vs IH]; intros [b w dflt p i] Hdense Hdefault;
    simpl in Hdefault; subst dflt.
  - simpl. by rewrite !app_nil_r.
  - simpl for_each. unfold mbind, Method_bind at 1.
    unfold RUniquePtrField.AppendImpl, RNullableField.AppendValue,
      RNullableField.subfield_Append, RNullableField.principal_Append,
      mbind, Method_bind, this, assign, mret, Method_ret.
    cbn -[for_each wrap64].
    unfold RNullableField.IsDense, RNullableField.GetColumnRepresentative in Hdense |- *.
    cbn [nul_base] in Hdense |- *. rewrite Hdense.
    cbn -[for_each wrap64].
    rewrite IH; cbn [nul_base nul_fNWritten nul_principal nul_items nul_fDefaultItemValue];
      [|done|done].
    f_equal. f_equal; rewrite <- app_assoc; reflexivity.
  - simpl for_each. unfold mbind, Method_bind at 1.
    unfold RUniquePtrField.AppendImpl, RNullableField.AppendNull,
      RNullableField.subfield_Append, RNullableField.principal_Append,
      mbind, Method_bind, this, assign, mret, Method_ret.
    unfold RNullableField.IsDense, RNullableField.GetColumnRepresentative in Hdense |- *.
    cbn [nul_base] in Hdense |- *. rewrite Hdense.
    cbn -[for_each wrap64].
    rewrite IH; cbn [nul_base nul_fNWritten nul_principal nul_items nul_fDefaultItemValue];
      [|done|done].
    f_equal. f_equal; rewrite <- app_assoc; reflexivity.
Qed.

End NullableProperties.

(** X10: under the sparse encoding, appending any list of optional values
    at the start of a cluster writes to the index column, for each entry,
    the number of values present so far, and hands the values present to
    the item field in order.  [GetItemIndex] then yields the invalid
    cluster index for exactly the null entries, and for a value the number
    of values present before it; reading an entry into a
    [std::unique_ptr] leaves it empty exactly for the null entries. *)
Theorem RNullableField_sparse_entries
    (Item : Type) (itemAppend : Item -> Z) (itemValueSize : Z)
    (f : RNullableField Item) (vs : list (option Item)) :
  RNullableField.IsDense Item f = false ->
  nul_fNWritten f = 0%Z -> nul_principal f = [] ->
  (Z.of_nat (length vs) < 2 ^ 64)%Z ->
  let appended := for_each (RUniquePtrField.AppendImpl Item itemAppend) vs f in
  returns appended = true
  /\ nul_principal appended.2 = IndexValue <$> running 0 vs
  /\ nul_items appended.2 = nul_items f ++ omap id vs
  /\ forall (i : nat) (v : option Item) (clusterId : Z),
       vs !! i = Some v ->
       let itemIndex := RNullableField.GetItemIndex Item clusterId appended.2 i in
       itemIndex = match v with
                   | Some _ => {| fClusterId := clusterId; fIndex := present (take i vs) |}
                   | None => nullIndex
                   end
       /\ forall ptr allocated,
            is_Some (RUniquePtrField.ReadGlobalImpl itemValueSize itemIndex ptr allocated).2
            <-> is_Some v.
Proof.
  intros Hsparse Hw Hp Hbound. cbv zeta.
  rewrite (sparse_appends Item itemAppend vs f Hsparse) by lia.
  rewrite Hw, Hp. cbn [snd fst returns nul_principal nul_items].
  split; [reflexivity|]. split; [reflexivity|]. split; [reflexivity|].
  intros i v clusterId Hi.
  assert (i < length vs)%nat as Hlt by (by eapply lookup_lt_Some).
  assert (RNullableField.GetItemIndex Item clusterId
            {| nul_base := nul_base f; nul_fNWritten := (0 + present vs)%Z;
               nul_fDefaultItemValue := nul_fDefaultItemValue f;
               nul_principal := [] ++ (IndexValue <$> running 0 vs);
               nul_items := nul_items f ++ omap id vs |} i
          = match v with
            | Some _ => {| fClusterId := clusterId; fIndex := present (take i vs) |}
            | None => nullIndex
            end) as Hindex.
  { unfold RNullableField.GetItemIndex.
    unfold RNullableField.IsDense, RNullableField.GetColumnRepresentative in Hsparse |- *.
    cbn [nul_base nul_principal] in Hsparse |- *. rewrite Hsparse.
    rewrite app_nil_l, <- list_fmap_compose.
    unfold ColumnSource.GetCollectionInfo.
    rewrite (list_lookup_fmap _ _ i), running_lookup by done. simpl default.
    rewrite (take_S_r vs i v Hi), present_snoc.
    assert ((match i with
             | 0%nat => 0%Z
             | S k => default 0%Z ((RNullableField.as_index ∘ IndexValue <$> running 0 vs) !! k)
             end) = present (take i vs)) as ->.
    { destruct i as [|k]; [reflexivity|].
      rewrite list_lookup_fmap, running_lookup by lia. simpl. lia. }
    pose proof (present_bound Item (take i vs)) as Hpresent.
    rewrite length_take in Hpresent.
    destruct v as [v|].
    - replace (0 + (present (take i vs) + 1) - present (take i vs))%Z with 1%Z by lia.
      reflexivity.
    - replace (0 + (present (take i vs) + 0) - present (take i vs))%Z with 0%Z by lia.
      reflexivity. }
  split; [exact Hindex|].
  intros ptr allocated. rewrite Hindex.
  pose proof (present_bound Item (take i vs)) as Hpresent.
  rewrite length_take, Nat.min_l in Hpresent by lia.
  unfold RUniquePtrField.ReadGlobalImpl.
  destruct v as [v|]; cbn [fIndex nullIndex].
  - rewrite (bool_decide_eq_false_2 (present (take i vs) = kInvalidClusterIndex))
      by (unfold kInvalidClusterIndex; lia).
    destruct ptr; simpl; split; intros _; by eexists.
  - rewrite (bool_decide_eq_true_2 (kInvalidClusterIndex = kInvalidClusterIndex)) by reflexivity.
    destruct ptr; simpl; split; intros [? ?]; discriminate.
Qed.

(** X11: under the dense encoding, appending any list of optional values
    writes one mask bit per entry, set for the values present, and hands
    one item per entry to the item field, the default item standing in for
    a null.  [GetItemIndex] then yields the invalid cluster index for
    exactly the null entries and the position of the entry itself for a
    value; reading an entry into a [std::unique_ptr] leaves it empty
    exactly for the null entries. *)
Theorem RNullableField_dense_entries
    (Item : Type) (itemAppend : Item -> Z) (itemValueSize : Z)
    (f : RNullableField Item) (d : Item) (vs : list (option Item)) :
  RNullableField.IsDense Item f = true ->
  nul_fDefaultItemValue f = Some d -> nul_principal f = [] ->
  (Z.of_nat (length vs) < 2 ^ 64)%Z ->
  let appended := for_each (RUniquePtrField.AppendImpl Item itemAppend) vs f in
  returns appended = true
  /\ nul_principal appended.2
     = (fun v : option Item => MaskBit (bool_decide (is_Some v))) <$> vs
  /\ nul_items appended.2 = nul_items f ++ (default d <$> vs)
  /\ forall (i : nat) (v : option Item) (clusterId : Z),
       vs !! i = Some v ->
       let itemIndex := RNullableField.GetItemIndex Item clusterId appended.2 i in
       itemIndex = match v with
                   | Some _ => {| fClusterId := clusterId; fIndex := Z.of_nat i |}
                   | None => nullIndex
                   end
       /\ forall ptr allocated,
            is_Some (RUniquePtrField.ReadGlobalImpl itemValueSize itemIndex ptr allocated).2
            <-> is_Some v.
Proof.
  intros Hdense Hdefault Hp Hbound. cbv zeta.
  rewrite (dense_appends Item itemAppend d vs f Hdense Hdefault).
  rewrite Hp. cbn [snd fst returns nul_principal nul_items].
  split; [reflexivity|]. split; [reflexivity|]. split; [reflexivity|].
  intros i v clusterId Hi.
  assert (i < length vs)%nat as Hlt by (by eapply lookup_lt_Some).
  assert (RNullableField.GetItemIndex Item clusterId
            {| nul_base := nul_base f; nul_fNWritten := nul_fNWritten f;
               nul_fDefaultItemValue := nul_fDefaultItemValue f;
               nul_principal :=
                 [] ++ ((fun v : option Item => MaskBit (bool_decide (is_Some v))) <$> vs);
               nul_items := nul_items f ++ (default d <$> vs) |} i
          = match v with
            | Some _ => {| fClusterId := clusterId; fIndex := Z.of_nat i |}
            | None => nullIndex
            end) as Hindex.
  { unfold RNullableField.GetItemIndex.
    unfold RNullableField.IsDense, RNullableField.GetColumnRepresentative in Hdense |- *.
    cbn [nul_base nul_principal] in Hdense |- *. rewrite Hdense.
    rewrite app_nil_l, list_lookup_fmap, Hi. simpl.
    destruct v; reflexivity. }
  split; [exact Hindex|].
  intros ptr allocated. rewrite Hindex.
  unfold RUniquePtrField.ReadGlobalImpl.
  destruct v as [v|]; cbn [fIndex nullIndex ColumnSource.GetClusterIndex].
  - rewrite (bool_decide_eq_false_2 (Z.of_nat i = kInvalidClusterIndex))
      by (unfold kInvalidClusterIndex; lia).
    destruct ptr; simpl; split; intros _; by eexists.
  - rewrite (bool_decide_eq_true_2 (kInvalidClusterIndex = kInvalidClusterIndex)) by reflexivity.
    destruct ptr; simpl; split; intros [? ?]; discriminate.
Qed.

(** ** The string field, any number of entries *)

Lemma data_length (s : string) : length (RField_string.data s) = String.length s.
Proof.
  unfold RField_string.data. induction s as [|c s IH]; simpl; [done | by rewrite IH].
Qed.

Lemma characters_cons (s : string) (ss : list string) :
  characters (s :: ss) = RField_string.data s ++ characters ss.
Proof. reflexivity. Qed.

Lemma characters_app (ss ss' : list string) :
  characters (ss ++ ss') = characters ss ++ characters ss'.
Proof. unfold characters. by rewrite fmap_app, concat_app. Qed.

Lemma offsets_lookup (ss : list string) :
  forall (n : Z) (i : nat), (i < length ss)%nat ->
  offsets n ss !! i = Some (n + Z.of_nat (length (characters (take (S i) ss))))%Z.
Proof.
  induction ss as [|s ss IH]; intros n i Hi; simpl in Hi; [lia|].
  destruct i as [|i].
  - cbn -[Z.of_nat Z.add]. rewrite app_nil_r, data_length. done.
  - cbn -[Z.of_nat Z.add characters take]. rewrite IH by lia.
    change (take (S (S i)) (s :: ss)) with (s :: take (S i) ss).
    rewrite characters_cons, length_app, data_length. f_equal. lia.
Qed.

Lemma string_appends (packedSize : Z) (ss : list string) :
  forall f : RField_string,
  (0 <= str_fIndex f)%Z ->
  (str_fIndex f + Z.of_nat (length (characters ss)) < 2 ^ 64)%Z ->
  for_each (RField_string.AppendImpl packedSize) ss f
  = (Normal tt,
     {| str_fIndex := (str_fIndex f + Z.of_nat (length (characters ss)))%Z;
        str_column0 := str_column0 f ++ offsets (str_fIndex f) ss;
        str_column1 := str_column1 f ++ characters ss |}).
Proof.
  induction ss as [|s ss IH]; intros [index column0 column1] Hindex Hbound;
    cbn [str_fIndex str_column0 str_column1] in *.
  - simpl. by rewrite Z.add_0_r, !app_nil_r.
  - rewrite characters_cons, length_app, data_length in Hbound |- *.
    simpl for_each. unfold mbind, Method_bind at 1.
    unfold RField_string.AppendImpl, mbind, Method_bind, assign, mret, Method_ret.
    cbn -[for_each wrap64 offsets characters Z.of_nat Z.add].
    assert (wrap64 (index + Z.of_nat (String.length s))
            = (index + Z.of_nat (String.length s))%Z) as ->
      by (unfold wrap64; apply Z.mod_small; lia).
    rewrite IH; cbn [str_fIndex str_column0 str_column1]; [|lia|lia].
    f_equal. f_equal.
    + lia.
    + by rewrite <- app_assoc.
    + by rewrite <- app_assoc.
Qed.

(** X12: appending any list of strings to a string field in its first
    cluster writes to the index column the cumulative number of
    characters after each string and to the character column the
    characters of the strings in order; every entry then reads back as
    the string that was appended, whatever the destination held. *)
Theorem string_field_round_trip
    (packedSize : Z) (f0 : RField_string) (ss : list string) :
  str_column0 f0 = [] -> str_column1 f0 = [] ->
  (Z.of_nat (length (characters ss)) < 2 ^ 64)%Z ->
  let appended :=
    (RField_string.CommitCluster ;; for_each (RField_string.AppendImpl packedSize) ss) f0 in
  returns appended = true
  /\ str_column0 appended.2 = offsets 0 ss
  /\ str_column1 appended.2 = characters ss
  /\ forall (i : nat) (s to : string),
       ss !! i = Some s -> RField_string.read_back appended.2 i to = s.
Proof.
  intros Hcol0 Hcol1 Hbound. cbv zeta.
  destruct f0 as [index0 column0 column1]. simpl in Hcol0, Hcol1. subst column0 column1.
  assert ((RField_string.CommitCluster ;;
           for_each (RField_string.AppendImpl packedSize) ss)
            {| str_fIndex := index0; str_column0 := []; str_column1 := [] |}
          = (Normal tt,
             {| str_fIndex := Z.of_nat (length (characters ss));
                str_column0 := offsets 0 ss; str_column1 := characters ss |})) as ->.
  { unfold mbind, Method_bind at 1. unfold RField_string.CommitCluster, assign.
    cbn [str_column0 str_column1].
    rewrite string_appends by (cbn [str_fIndex]; lia). reflexivity. }
  cbn [snd fst str_fIndex str_column0 str_column1].
  split; [reflexivity|]. split; [reflexivity|]. split; [reflexivity|].
  intros i s to Hi.
  assert (i < length ss)%nat as Hlt by (by eapply lookup_lt_Some).
  unfold RField_string.read_back. cbn [str_column0 str_column1].
  pose proof (take_drop_middle ss i s Hi) as Hsplit.
  assert (take (S i) ss = take i ss ++ [s]) as Htake by (by apply take_S_r).
  set (before := Z.of_nat (length (characters (take i ss)))).
  assert ((match i with
           | 0%nat => 0%Z
           | S k => default 0%Z (offsets 0 ss !! k)
           end) = before) as Hstart.
  { subst before. destruct i as [|k]; [reflexivity|].
    rewrite offsets_lookup by lia. simpl. lia. }
  assert (default 0%Z (offsets 0 ss !! i)
          = (before + Z.of_nat (String.length s))%Z) as Hend.
  { subst before. rewrite offsets_lookup by done. simpl default.
    rewrite Htake, characters_app, length_app. unfold characters at 2. simpl.
    rewrite app_nil_r, data_length. lia. }
  assert (0 <= before /\ before + Z.of_nat (String.length s) < 2 ^ 64)%Z as Hfits.
  { subst before. split; [lia|].
    rewrite <- Hsplit, characters_app, characters_cons, !length_app, data_length in Hbound.
    lia. }
  assert (ColumnSource.GetCollectionInfo 0 (offsets 0 ss) i
          = ({| fClusterId := 0; fIndex := before |}, Z.of_nat (String.length s))) as Hinfo.
  { unfold ColumnSource.GetCollectionInfo. rewrite Hstart, Hend. f_equal.
    unfold wrap64. replace (before + Z.of_nat (String.length s) - before)%Z
      with (Z.of_nat (String.length s)) by lia.
    apply Z.mod_small. lia. }
  destruct (decide (String.length s = 0%nat)) as [Hempty|Hnonempty].
  - unfold RField_string.ReadGlobalImpl. rewrite Hinfo, Hempty. simpl.
    destruct s; [reflexivity | discriminate].
  - erewrite (ReadGlobalImpl_chars _ _ i to _ _ (RField_string.data s)).
    + unfold RField_string.data. apply String.string_of_list_ascii_of_string.
    + exact Hinfo.
    + lia.
    + unfold ColumnSource.ReadV. cbn [fIndex]. subst before.
      rewrite Nat2Z.id, Nat2Z.id.
      assert (characters ss
              = characters (take i ss) ++ RField_string.data s
                ++ characters (drop (S i) ss)) as ->
        by (by rewrite <- Hsplit at 1; rewrite characters_app, characters_cons).
      rewrite drop_app_length. rewrite <- data_length. by rewrite take_app_length.
    + rewrite Nat2Z.id. apply data_length.
Qed.

(** ** The items of a vector under a read *)

Lemma loop_range_nil (lo hi : Z) : (hi <= lo)%Z -> loop_range lo hi = [].
Proof. intros H. unfold loop_range. by replace (Z.to_nat (hi - lo)) with 0%nat by lia. Qed.

Lemma loop_range_cons (lo hi : Z) :
  (lo < hi)%Z -> loop_range lo hi = lo :: loop_range (lo + 1) hi.
Proof.
  intros H. unfold loop_range.
  replace (Z.to_nat (hi - lo)) with (S (Z.to_nat (hi - (lo + 1)))) by lia.
  cbn [seq fmap list_fmap]. f_equal; [lia|].
  rewrite <- fmap_S_seq, <- list_fmap_compose.
  apply list_fmap_ext. intros _ k _. simpl. lia.
Qed.

Lemma loop_range_snoc (lo hi : Z) :
  (lo <= hi)%Z -> loop_range lo (hi + 1) = loop_range lo hi ++ [hi].
Proof.
  intros H. unfold loop_range.
  replace (Z.to_nat (hi + 1 - lo)) with (Z.to_nat (hi - lo) + 1)%nat by lia.
  rewrite seq_app, fmap_app. simpl. do 2 f_equal. lia.
Qed.

Lemma elem_of_loop_range (lo hi x : Z) : x ∈ loop_range lo hi <-> (lo <= x < hi)%Z.
Proof.
  unfold loop_range. rewrite list_elem_of_fmap. split.
  - intros (k & -> & Hk). apply elem_of_seq in Hk. lia.
  - intros Hx. exists (Z.to_nat (x - lo)). split; [lia|]. apply elem_of_seq. lia.
Qed.

Lemma loop_range_app (lo mid hi : Z) :
  (lo <= mid <= hi)%Z -> loop_range lo hi = loop_range lo mid ++ loop_range mid hi.
Proof.
  intros H. unfold loop_range.
  replace (Z.to_nat (hi - lo)) with (Z.to_nat (mid - lo) + Z.to_nat (hi - mid))%nat by lia.
  rewrite seq_app, fmap_app. f_equal. cbn [Nat.add].
  replace (seq (Z.to_nat (mid - lo)) (Z.to_nat (hi - mid)))
    with (Nat.add (Z.to_nat (mid - lo)) <$> seq 0 (Z.to_nat (hi - mid)))
    by (rewrite fmap_add_seq; f_equal; lia).
  rewrite <- list_fmap_compose.
  apply list_fmap_ext. intros _ k _. simpl. lia.
Qed.

Lemma filter_ne_not_in (i : Z) (l : list Z) : i ∉ l -> filter (fun j => j <> i) l = l.
Proof.
  induction l as [|x l IH]; [done|]. rewrite not_elem_of_cons. intros [Hne Hnot].
  rewrite filter_cons_True by done. by rewrite IH.
Qed.

Lemma vector_lifecycle_destroys (size : Z) (rest : list VectorReadEvent) (kept : list Z) :
  forall (n : nat) (lo : Z),
  Forall (fun j => j < lo)%Z kept ->
  vector_lifecycle size (kept ++ loop_range lo (lo + Z.of_nat n))
    ((DestroyValueBy <$> loop_range lo (lo + Z.of_nat n)) ++ rest)
  = vector_lifecycle size kept rest.
Proof.
  induction n as [|n IH]; intros lo Hkept.
  - rewrite loop_range_nil by lia. by rewrite app_nil_r.
  - rewrite loop_range_cons by lia. cbn [fmap list_fmap app vector_lifecycle].
    rewrite bool_decide_eq_true_2
      by (rewrite elem_of_app; right; apply list_elem_of_here).
    rewrite filter_app, filter_cons_False by (intros H; by apply H).
    rewrite !filter_ne_not_in.
    + replace (lo + Z.of_nat (S n))%Z with (lo + 1 + Z.of_nat n)%Z by lia.
      rewrite <- (IH (lo + 1)%Z).
      * done.
      * eapply Forall_impl; [exact Hkept|]. simpl. lia.
    + rewrite elem_of_loop_range. lia.
    + intros Hin. eapply Forall_forall in Hkept; [|exact Hin]. simpl in Hkept. lia.
Qed.

Lemma vector_lifecycle_generates (size : Z) (rest : list VectorReadEvent) :
  forall (n : nat) (lo : Z),
  (0 <= lo)%Z -> (lo + Z.of_nat n <= size)%Z ->
  vector_lifecycle size (loop_range 0 lo)
    ((GenerateValueAt <$> loop_range lo (lo + Z.of_nat n)) ++ rest)
  = vector_lifecycle size (loop_range 0 (lo + Z.of_nat n)) rest.
Proof.
  induction n as [|n IH]; intros lo Hlo Hsize.
  - rewrite (loop_range_nil lo) by lia. by rewrite Z.add_0_r.
  - rewrite (loop_range_cons lo) by lia. cbn [fmap list_fmap app vector_lifecycle].
    rewrite bool_decide_eq_true_2 by (rewrite elem_of_loop_range; lia).
    rewrite <- loop_range_snoc by lia.
    replace (lo + Z.of_nat (S n))%Z with (lo + 1 + Z.of_nat n)%Z by lia.
    apply IH; lia.
Qed.

Lemma vector_lifecycle_reads (size : Z) (live : list Z) (start : RClusterIndex)
    (positions : list Z) :
  Forall (fun i => i ∈ live) positions ->
  vector_lifecycle size live
    ((fun i => ItemRead (RVectorField.advance start i) i) <$> positions)
  = Some live.
Proof.
  induction positions as [|i positions IH]; [done|].
  intros Hall. apply Forall_cons in Hall as [Hi Hall]. cbn [fmap list_fmap vector_lifecycle].
  rewrite bool_decide_eq_true_2 by done. by apply IH.
Qed.

Lemma omap_fmap_None {A B C : Type} (f : B -> option C) (g : A -> B) (l : list A) :
  (forall x, f (g x) = None) -> omap f (g <$> l) = [].
Proof.
  intros H. induction l as [|x l IH]; [done|].
  cbn [fmap list_fmap omap list_omap]. by rewrite H.
Qed.

Lemma omap_fmap_Some {A B : Type} (f : B -> option A) (g : A -> B) (l : list A) :
  (forall x, f (g x) = Some x) -> omap f (g <$> l) = l.
Proof.
  intros H. induction l as [|x l IH]; [done|].
  cbn [fmap list_fmap omap list_omap]. rewrite H. by f_equal.
Qed.

Lemma has_no_trait (itemTraits mask mask' : Z) :
  Z.land itemTraits (Z.lor mask mask') = 0%Z
  <-> Z.land itemTraits mask = 0%Z /\ Z.land itemTraits mask' = 0%Z.
Proof. by rewrite Z.land_lor_distr_r, Z.lor_eq_0_iff. Qed.

(** X13: [RVectorField::ReadGlobalImpl] on a vector of [old] items and an
    entry of [nItems] items.  When the item field has one of the traits
    "trivially constructible" and "trivially destructible", the vector is
    resized and the items are read, and no item is constructed or
    destroyed.  When it has neither, the items constructed before the
    call are [0 .. old - 1], the events keep to the rules of
    [vector_lifecycle] (nothing is destroyed twice, dropped by the resize
    while constructed, constructed over a constructed item or read while
    not constructed), and the items constructed after the call are exactly
    [0 .. nItems - 1]. *)
Theorem RVectorField_read_lifecycle
    (masks : TraitMasks) (itemTraits fItemSize : Z)
    (collectionStart : RClusterIndex) (old nItems : Z) :
  (0 < fItemSize)%Z -> (0 <= old)%Z -> (0 <= nItems)%Z ->
  let events :=
    RVectorField.ReadGlobalImpl masks itemTraits fItemSize collectionStart nItems
      (old * fItemSize) in
  (Z.land itemTraits (kTraitTriviallyConstructible masks) <> 0%Z
   \/ Z.land itemTraits (kTraitTriviallyDestructible masks) <> 0%Z ->
   constructed_by events = [] /\ destroyed_by events = []
   /\ read_by events = loop_range 0 nItems)
  /\ (Z.land itemTraits (kTraitTriviallyConstructible masks) = 0%Z ->
      Z.land itemTraits (kTraitTriviallyDestructible masks) = 0%Z ->
      vector_lifecycle old (loop_range 0 old) events = Some (loop_range 0 nItems)).
Proof.
  intros Hsize Hold Hn. cbv zeta.
  unfold RVectorField.ReadGlobalImpl, RVectorField.has_trait.
  rewrite Z.div_mul by lia.
  split.
  - intros Hsome.
    assert ((Z.land itemTraits (kTraitTrivialType masks) =? 0)%Z = false) as ->.
    { apply Z.eqb_neq. unfold kTraitTrivialType. rewrite has_no_trait. tauto. }
    cbn [negb]. unfold constructed_by, destroyed_by, read_by.
    rewrite !omap_app. cbn [omap list_omap app].
    split; [|split].
    + by apply omap_fmap_None.
    + by apply omap_fmap_None.
    + by apply omap_fmap_Some.
  - intros Hc Hd.
    assert ((Z.land itemTraits (kTraitTrivialType masks) =? 0)%Z = true) as ->.
    { apply Z.eqb_eq. unfold kTraitTrivialType. by rewrite has_no_trait. }
    rewrite Hc, Hd. cbn [Z.eqb negb].
    destruct (old <? nItems)%Z eqn:Hgrow;
      [apply Z.ltb_lt in Hgrow | apply Z.ltb_ge in Hgrow].
    + rewrite <- !app_assoc.
      pose proof (vector_lifecycle_destroys old) as Hdestroy.
      specialize (Hdestroy
        ([Resize nItems] ++ (GenerateValueAt <$> loop_range 0 nItems)
         ++ ((fun i => ItemRead (RVectorField.advance collectionStart i) i)
               <$> loop_range 0 nItems)) [] (Z.to_nat old) 0%Z (Forall_nil_2 _)).
      rewrite Z.add_0_l, Z2Nat.id in Hdestroy by lia.
      rewrite app_nil_l in Hdestroy. rewrite Hdestroy.
      cbn [app vector_lifecycle]. rewrite bool_decide_eq_true_2 by constructor.
      pose proof (vector_lifecycle_generates nItems
        ((fun i => ItemRead (RVectorField.advance collectionStart i) i)
           <$> loop_range 0 nItems) (Z.to_nat nItems) 0%Z) as Hgenerate.
      rewrite Z.add_0_l, Z2Nat.id, (loop_range_nil 0 0) in Hgenerate by lia.
      rewrite Hgenerate by lia.
      apply vector_lifecycle_reads. by apply Forall_forall.
    + rewrite <- !app_assoc.
      rewrite (loop_range_app 0 nItems old) at 1 by lia.
      pose proof (vector_lifecycle_destroys old
        ([Resize nItems] ++ (GenerateValueAt <$> loop_range old nItems)
         ++ ((fun i => ItemRead (RVectorField.advance collectionStart i) i)
               <$> loop_range 0 nItems))
        (loop_range 0 nItems) (Z.to_nat (old - nItems)) nItems) as Hdestroy.
      replace (nItems + Z.of_nat (Z.to_nat (old - nItems)))%Z with old in Hdestroy by lia.
      rewrite Hdestroy
        by (apply Forall_forall; intros j Hj; apply elem_of_loop_range in Hj; lia).
      cbn [app vector_lifecycle].
      rewrite bool_decide_eq_true_2
        by (apply Forall_forall; intros j Hj; apply elem_of_loop_range in Hj; lia).
      rewrite (loop_range_nil old nItems) by lia. cbn [fmap list_fmap app].
      apply vector_lifecycle_reads. by apply Forall_forall.
Qed.

(** ** The items of an [RVec] under a read *)

Lemma filter_ne_not_elem {A : Type} `{EqDecision A} (i : A) (l : list A) :
  i ∉ l -> filter (fun j => j <> i) l = l.
Proof.
  induction l as [|x l IH]; [done|]. rewrite not_elem_of_cons. intros [Hne Hnot].
  rewrite filter_cons_True by done. by rewrite IH.
Qed.

Lemma elem_of_items (begin b i : Z) (l : list Z) :
  (b, i) ∈ ((fun j => (begin, j)) <$> l) <-> b = begin /\ i ∈ l.
Proof.
  rewrite list_elem_of_fmap. split.
  - intros (j & [= -> ->] & Hj). done.
  - intros [-> Hi]. by exists i.
Qed.

Section RVecLifecycle.
Variable fItemSize : Z.
Variable heap : list (Z * Z).
Variable begin : Z.

#[local] Abbreviation items := (fmap (M := list) (fun i : Z => (begin, i))).

Lemma rvec_lifecycle_destroys (rest : list RVecReadEvent) (kept : list (Z * Z)) :
  forall (n : nat) (lo : Z),
  Forall (fun item => item.1 = begin -> item.2 < lo)%Z kept ->
  rvec_lifecycle fItemSize heap (kept ++ items (loop_range lo (lo + Z.of_nat n)))
    ((RVecDestroyValueBy begin <$> loop_range lo (lo + Z.of_nat n)) ++ rest)
  = rvec_lifecycle fItemSize heap kept rest.
Proof.
  induction n as [|n IH]; intros lo Hkept.
  - rewrite loop_range_nil by lia. by rewrite app_nil_r.
  - rewrite loop_range_cons by lia. cbn [fmap list_fmap app rvec_lifecycle].
    rewrite bool_decide_eq_true_2
      by (rewrite elem_of_app; right; apply list_elem_of_here).
    rewrite filter_app, filter_cons_False by (intros H; by apply H).
    rewrite !filter_ne_not_elem.
    + replace (lo + Z.of_nat (S n))%Z with (lo + 1 + Z.of_nat n)%Z by lia.
      apply (IH (lo + 1)%Z).
      eapply Forall_impl; [exact Hkept|]. simpl. intros item H Hb. specialize (H Hb). lia.
    + rewrite elem_of_items, elem_of_loop_range. lia.
    + intros Hin. eapply Forall_forall in Hkept; [|exact Hin]. simpl in Hkept.
      specialize (Hkept eq_refl). lia.
Qed.

Lemma rvec_lifecycle_generates (rest : list RVecReadEvent) (nbytes : Z) :
  (begin, nbytes) ∈ heap -> (0 < fItemSize)%Z ->
  forall (n : nat) (lo : Z),
  (0 <= lo)%Z -> ((lo + Z.of_nat n) * fItemSize <= nbytes)%Z ->
  rvec_lifecycle fItemSize heap (items (loop_range 0 lo))
    ((RVecGenerateValueBy begin <$> loop_range lo (lo + Z.of_nat n)) ++ rest)
  = rvec_lifecycle fItemSize heap (items (loop_range 0 (lo + Z.of_nat n))) rest.
Proof.
  intros Hheap Hsize.
  induction n as [|n IH]; intros lo Hlo Hfits.
  - rewrite (loop_range_nil lo) by lia. by rewrite Z.add_0_r.
  - rewrite (loop_range_cons lo) by lia. cbn [fmap list_fmap app rvec_lifecycle].
    rewrite bool_decide_eq_true_2.
    + replace (items (loop_range 0 lo) ++ [(begin, lo)])
        with (items (loop_range 0 (lo + 1)))
        by (by rewrite loop_range_snoc, fmap_app by lia).
      replace (lo + Z.of_nat (S n))%Z with (lo + 1 + Z.of_nat n)%Z by lia.
      apply IH; lia.
    + split.
      * apply Exists_exists. exists (begin, nbytes). simpl. split; [done|]. nia.
      * rewrite elem_of_items, elem_of_loop_range. lia.
Qed.

Lemma rvec_lifecycle_reads (live : list (Z * Z)) (start : RClusterIndex)
    (positions : list Z) :
  Forall (fun i => (begin, i) ∈ live) positions ->
  rvec_lifecycle fItemSize heap live
    ((fun i => RVecItemRead (RVectorField.advance start i) begin i) <$> positions)
  = Some (heap, live).
Proof.
  induction positions as [|i positions IH]; [done|].
  intros Hall. apply Forall_cons in Hall as [Hi Hall]. cbn [fmap list_fmap rvec_lifecycle].
  rewrite bool_decide_eq_true_2 by done. by apply IH.
Qed.

End RVecLifecycle.

Lemma to_int_small (n : Z) : (0 <= n < 2 ^ 31)%Z -> to_int n = n.
Proof. intros H. unfold to_int. rewrite Z.mod_small; lia. Qed.

(** X14: [RRVecField::ReadGlobalImpl], for an item field that is neither
    trivially constructible nor trivially destructible, on an [RVec] that
    owns its buffer (the first [size] items of a heap buffer with room for
    [capacity] items are constructed, or there is no buffer and the
    capacity is 0) and an entry of fewer than [2 ^ 31] items: the call
    returns, the events keep to the rules of [rvec_lifecycle], and
    afterwards the [RVec] again owns its buffer, with exactly the items of
    the entry constructed and no other buffer left on the heap.  The
    buffer is replaced only when the entry has more items than the
    capacity. *)
Theorem RRVecField_read_lifecycle
    (masks : TraitMasks) (itemTraits fItemSize : Z)
    (collectionStart : RClusterIndex) (nItems : Z) (rvec : RVecMembers) (allocated : Z) :
  Z.land itemTraits (kTraitTriviallyConstructible masks) = 0%Z ->
  Z.land itemTraits (kTraitTriviallyDestructible masks) = 0%Z ->
  (0 < fItemSize)%Z ->
  (0 <= rv_size rvec <= rv_capacity rvec)%Z ->
  (rv_begin rvec = 0%Z -> rv_capacity rvec = 0%Z) ->
  (0 <= nItems < 2 ^ 31)%Z -> (nItems * fItemSize < 2 ^ 64)%Z ->
  allocated <> 0%Z -> allocated <> rv_begin rvec ->
  exists events rvec',
    RRVecFieldValue.ReadGlobalImpl masks itemTraits fItemSize collectionStart nItems
      rvec allocated
    = Normal (events, rvec')
    /\ rvec_lifecycle fItemSize (owned_buffer fItemSize rvec) (owned_items rvec) events
       = Some (owned_buffer fItemSize rvec', owned_items rvec')
    /\ rv_size rvec' = nItems
    /\ rv_capacity rvec' = Z.max (rv_capacity rvec) nItems
    /\ (rv_begin rvec' = rv_begin rvec <-> (nItems <= rv_capacity rvec)%Z).
Proof.
  intros Hc Hd Hsize Hrvec Hnull Hn Hbytes Hallocated Hfresh.
  destruct rvec as [begin old capacity]. cbn [rv_begin rv_size rv_capacity] in *.
  unfold RRVecFieldValue.ReadGlobalImpl, RRVecField.GetRVecDataMembers.
  cbn [rv_begin rv_size rv_capacity].
  rewrite Hc, Hd, to_int_small by lia. cbn [Z.eqb].
  assert ((0 <=? old)%Z = true) as -> by (apply Z.leb_le; lia).
  assert ((-1 <=? capacity)%Z = true) as -> by (apply Z.leb_le; lia).
  cbn [negb rv_begin rv_size rv_capacity].
  destruct (capacity <? nItems)%Z eqn:Hrealloc;
    [apply Z.ltb_lt in Hrealloc | apply Z.ltb_ge in Hrealloc].
  - (* the buffer is replaced *)
    rewrite (proj2 (Z.eqb_neq allocated 0) Hallocated).
    eexists _, _. split; [reflexivity|].
    cbn [rv_begin rv_size rv_capacity].
    split; [|split; [reflexivity|split; [lia|]]].
    + unfold owned_items, owned_buffer. cbn [rv_begin rv_size rv_capacity].
      rewrite (bool_decide_eq_false_2 (allocated = 0%Z)) by done.
      rewrite (loop_range_nil nItems old) by lia. cbn [fmap list_fmap app].
      rewrite <- !app_assoc.
      pose proof (rvec_lifecycle_destroys fItemSize
                    (if bool_decide (begin = 0%Z) then []
                     else [(begin, (capacity * fItemSize)%Z)])
                    begin
                    ([RVecFree begin; RVecMalloc (wrap64 (nItems * fItemSize)) allocated]
                     ++ (RVecGenerateValueBy allocated <$> loop_range 0 old)
                     ++ (RVecGenerateValueBy allocated <$> loop_range old nItems)
                     ++ ((fun i => RVecItemRead (RVectorField.advance collectionStart i)
                                     allocated i) <$> loop_range 0 nItems))
                    [] (Z.to_nat old) 0%Z (Forall_nil_2 _)) as Hdestroy.
      rewrite Z.add_0_l, Z2Nat.id, app_nil_l in Hdestroy by lia.
      cbn [app] in Hdestroy |- *. rewrite Hdestroy. clear Hdestroy.
      cbn [app rvec_lifecycle].
      assert (wrap64 (nItems * fItemSize) = (nItems * fItemSize)%Z) as ->
        by (unfold wrap64; apply Z.mod_small; nia).
      assert (rvec_lifecycle fItemSize [(allocated, (nItems * fItemSize)%Z)] []
                ((RVecGenerateValueBy allocated <$> loop_range 0 old)
                 ++ (RVecGenerateValueBy allocated <$> loop_range old nItems)
                 ++ ((fun i => RVecItemRead (RVectorField.advance collectionStart i)
                                 allocated i) <$> loop_range 0 nItems))
              = Some ([(allocated, (nItems * fItemSize)%Z)],
                      (fun i => (allocated, i)) <$> loop_range 0 nItems)) as Hrest.
      { pose proof (rvec_lifecycle_generates fItemSize
                      [(allocated, (nItems * fItemSize)%Z)] allocated) as Hgenerate.
        pose proof (Hgenerate
                      ((RVecGenerateValueBy allocated <$> loop_range old nItems)
                       ++ ((fun i => RVecItemRead (RVectorField.advance collectionStart i)
                                       allocated i) <$> loop_range 0 nItems))
                      (nItems * fItemSize)%Z (list_elem_of_here _ _) Hsize
                      (Z.to_nat old) 0%Z) as Hfirst.
        rewrite Z.add_0_l, Z2Nat.id, (loop_range_nil 0 0) in Hfirst by lia.
        cbn [fmap list_fmap] in Hfirst. rewrite Hfirst by nia. clear Hfirst.
        pose proof (Hgenerate
                      ((fun i => RVecItemRead (RVectorField.advance collectionStart i)
                                   allocated i) <$> loop_range 0 nItems)
                      (nItems * fItemSize)%Z (list_elem_of_here _ _) Hsize
                      (Z.to_nat (nItems - old)) old) as Hsecond.
        replace (old + Z.of_nat (Z.to_nat (nItems - old)))%Z with nItems in Hsecond by lia.
        rewrite Hsecond by lia. clear Hsecond.
        apply rvec_lifecycle_reads. apply Forall_forall. intros i Hi.
        by apply elem_of_items. }
      destruct (bool_decide (begin = 0%Z)) eqn:Hbegin.
      * cbn [fmap list_fmap app]. rewrite bool_decide_eq_true_2.
        -- exact Hrest.
        -- split; [done | apply not_elem_of_nil].
      * apply bool_decide_eq_false in Hbegin.
        rewrite bool_decide_eq_true_2.
        -- cbn [filter list_filter]. rewrite decide_False by (simpl; intros H; by apply H).
           cbn [fmap list_fmap app]. rewrite bool_decide_eq_true_2.
           ++ exact Hrest.
           ++ split; [done | apply not_elem_of_nil].
        -- split; [apply list_elem_of_here | apply not_elem_of_nil].
    + split; [intros ->; done | lia].
  - (* the buffer is kept *)
    eexists _, _. split; [reflexivity|].
    cbn [rv_begin rv_size rv_capacity].
    split; [|split; [reflexivity|split; [lia|done]]].
    unfold owned_items, owned_buffer. cbn [rv_begin rv_size rv_capacity app].
    destruct (Z_lt_le_dec nItems old) as [Hshrink|Hgrow].
    + rewrite (loop_range_app 0 nItems old) at 1 by lia. rewrite fmap_app.
      pose proof (rvec_lifecycle_destroys fItemSize
                    (if bool_decide (begin = 0%Z) then []
                     else [(begin, (capacity * fItemSize)%Z)])
                    begin
                    ((RVecGenerateValueBy begin <$> loop_range old nItems)
                     ++ ((fun i => RVecItemRead (RVectorField.advance collectionStart i)
                                     begin i) <$> loop_range 0 nItems))
                    ((fun i => (begin, i)) <$> loop_range 0 nItems)
                    (Z.to_nat (old - nItems)) nItems) as Hdestroy.
      replace (nItems + Z.of_nat (Z.to_nat (old - nItems)))%Z with old in Hdestroy by lia.
      rewrite Hdestroy.
      * rewrite (loop_range_nil old nItems) by lia. cbn [fmap list_fmap app].
        apply rvec_lifecycle_reads. apply Forall_forall. intros i Hi.
        by apply elem_of_items.
      * apply Forall_forall. intros [b i] Hitem _. apply elem_of_items in Hitem as [_ Hi].
        apply elem_of_loop_range in Hi. simpl. lia.
    + rewrite (loop_range_nil nItems old) by lia. cbn [fmap list_fmap app].
      destruct (decide (old = nItems)) as [->|Hne].
      * rewrite (loop_range_nil nItems nItems) by lia. cbn [fmap list_fmap app].
        apply rvec_lifecycle_reads. apply Forall_forall. intros i Hi.
        by apply elem_of_items.
      * assert (begin <> 0%Z) as Hbegin by (intros H; specialize (Hnull H); lia).
        rewrite (bool_decide_eq_false_2 (begin = 0%Z)) by done.
        pose proof (rvec_lifecycle_generates fItemSize
                      [(begin, (capacity * fItemSize)%Z)] begin
                      ((fun i => RVecItemRead (RVectorField.advance collectionStart i)
                                   begin i) <$> loop_range 0 nItems)
                      (capacity * fItemSize)%Z (list_elem_of_here _ _) Hsize
                      (Z.to_nat (nItems - old)) old) as Hgenerate.
        replace (old + Z.of_nat (Z.to_nat (nItems - old)))%Z with nItems in Hgenerate by lia.
        rewrite Hgenerate by nia.
        apply rvec_lifecycle_reads. apply Forall_forall. intros i Hi.
        by apply elem_of_items.
Qed.

(** ** The size of an [RVec] *)

Lemma padded_mod (x a : Z) :
  (0 < a)%Z ->
  let r := (x mod a)%Z in
  let padding := if negb (r =? 0)%Z then (a - r)%Z else r in
  ((x + padding) mod a = 0)%Z /\ (0 <= padding < a)%Z.
Proof.
  intros Ha r padding. subst padding.
  pose proof (Z.mod_pos_bound x a Ha) as Hr. fold r in Hr.
  destruct (r =? 0)%Z eqn:Hzero; cbn [negb];
    [apply Z.eqb_eq in Hzero | apply Z.eqb_neq in Hzero].
  - rewrite Hzero, Z.add_0_r. split; [exact Hzero | lia].
  - split; [|lia].
    replace (x + (a - r))%Z with ((x / a + 1) * a)%Z.
    + apply Z_mod_mult.
    + pose proof (Z_div_mod_eq_full x a) as Heq. fold r in Heq. lia.
Qed.

(** X15: the value size [EvalValueSize] computes for an [RVec] over items
    of alignment [alignOfT] and size [sizeOfT] is the 16 bytes of the
    three data members, a padding that brings the inline buffer to a
    multiple of the item alignment, the inline buffer, and a padding that
    brings the size to a multiple of the alignment of the [RVec].  The
    inline buffer has room for at least 8 items and takes at most 1024
    bytes, unless an item exceeds 128 bytes: then there is no inline
    buffer. *)
Theorem RRVecField_EvalValueSize_layout (alignOfT sizeOfT : Z) :
  (0 < alignOfT < 2 ^ 32)%Z -> (0 < sizeOfT < 2 ^ 32)%Z ->
  exists nElements paddingEnd : Z,
    RRVecField.EvalValueSize alignOfT sizeOfT
    = (RRVecField.dataMemberSz + RRVecField.paddingMiddle alignOfT
       + nElements * sizeOfT + paddingEnd)%Z
    /\ (RRVecField.EvalValueSize alignOfT sizeOfT mod RRVecField.GetAlignment alignOfT = 0)%Z
    /\ ((RRVecField.dataMemberSz + RRVecField.paddingMiddle alignOfT) mod alignOfT = 0)%Z
    /\ (0 <= RRVecField.paddingMiddle alignOfT < alignOfT)%Z
    /\ (0 <= paddingEnd < RRVecField.GetAlignment alignOfT)%Z
    /\ (nElements * sizeOfT <= 1024)%Z
    /\ (sizeOfT <= 128 -> 8 <= nElements)%Z
    /\ (128 < sizeOfT -> nElements = 0)%Z.
Proof.
  intros Halign Hsize.
  set (elementsPerCacheLine := (48 / sizeOfT)%Z).
  assert (0 <= elementsPerCacheLine <= 48)%Z as Hepl.
  { subst elementsPerCacheLine. split; [apply Z.div_pos; lia|].
    apply Z.div_le_upper_bound; nia. }
  assert (elementsPerCacheLine * sizeOfT <= 48)%Z as Hinline.
  { subst elementsPerCacheLine. rewrite Z.mul_comm. apply Z.mul_div_le. lia. }
  assert (8 <= elementsPerCacheLine -> sizeOfT <= 6)%Z as Hsmall.
  { intros H. nia. }
  assert (128 < sizeOfT -> elementsPerCacheLine = 0)%Z as Hlarge.
  { intros H. subst elementsPerCacheLine. apply Z.div_small. lia. }
  set (nElements :=
         if (8 <=? elementsPerCacheLine)%Z then elementsPerCacheLine
         else if (1024 <? sizeOfT * 8)%Z then 0%Z else 8%Z).
  assert (0 <= nElements * sizeOfT <= 1024
          /\ (sizeOfT <= 128 -> 8 <= nElements) /\ (128 < sizeOfT -> nElements = 0))%Z
    as (Hstorage & Hsome & Hnone).
  { subst nElements.
    destruct (8 <=? elementsPerCacheLine)%Z eqn:H8;
      [apply Z.leb_le in H8 | apply Z.leb_gt in H8].
    - split; [nia|]. split; [lia|]. intros H. specialize (Hlarge H). lia.
    - destruct (1024 <? sizeOfT * 8)%Z eqn:Hbig;
        [apply Z.ltb_lt in Hbig | apply Z.ltb_ge in Hbig]; lia. }
  pose proof (padded_mod RRVecField.dataMemberSz alignOfT ltac:(lia)) as [Hmiddle Hpm].
  cbv zeta in Hmiddle, Hpm. fold (RRVecField.paddingMiddle alignOfT) in Hmiddle, Hpm.
  assert (0 < RRVecField.GetAlignment alignOfT <= Z.max 8 alignOfT)%Z as Halignment.
  { unfold RRVecField.GetAlignment, sizeof_voidp, sizeof_int32. lia. }
  pose proof (padded_mod
                (RRVecField.dataMemberSz + RRVecField.paddingMiddle alignOfT
                 + nElements * sizeOfT)
                (RRVecField.GetAlignment alignOfT) ltac:(lia)) as [Hend Hpe].
  cbv zeta in Hend, Hpe.
  match type of Hpe with (0 <= ?p < _)%Z => set (paddingEnd := p) in * end.
  assert (RRVecField.EvalValueSize alignOfT sizeOfT
          = (RRVecField.dataMemberSz + RRVecField.paddingMiddle alignOfT
             + nElements * sizeOfT + paddingEnd)%Z) as Hvalue.
  { unfold RRVecField.EvalValueSize. cbv zeta.
    change (64 - RRVecField.dataMemberSz)%Z with 48%Z.
    fold elementsPerCacheLine.
    assert (to_uint32 elementsPerCacheLine = elementsPerCacheLine) as ->
      by (unfold to_uint32; apply Z.mod_small; lia).
    assert (wrap64 (sizeOfT * 8) = (sizeOfT * 8)%Z) as ->
      by (unfold wrap64; apply Z.mod_small; lia).
    fold nElements.
    assert (wrap64 (nElements * sizeOfT) = (nElements * sizeOfT)%Z) as ->
      by (unfold wrap64; apply Z.mod_small; lia).
    fold (RRVecField.paddingMiddle alignOfT). fold paddingEnd.
    unfold wrap64. rewrite Z.mod_small; [lia|].
    unfold RRVecField.dataMemberSz, sizeof_voidp, sizeof_int32 in *. lia. }
  exists nElements, paddingEnd.
  split; [exact Hvalue|]. split; [by rewrite Hvalue|]. split; [exact Hmiddle|].
  split; [exact Hpm|]. split; [exact Hpe|]. split; [lia|]. split; [exact Hsome | exact Hnone].
Qed.

(** ** Appending [RVec] values and finding their items again *)

Section RVecWriter.
Variable Item : Type.
Variable itemAppend : Item -> Z.
Variable packedSize : Z.

#[local] Abbreviation AppendImpl := (RRVecFieldWriter.AppendImpl Item itemAppend packedSize).

Lemma contents_length (v : RVecMembers * (Z -> Item)) :
  (0 <= rv_size v.1)%Z -> Z.of_nat (length (contents v)) = rv_size v.1.
Proof.
  intros H. unfold contents, loop_range. rewrite !length_fmap, length_seq. lia.
Qed.

Lemma all_contents_cons (v : RVecMembers * (Z -> Item))
    (vs : list (RVecMembers * (Z -> Item))) :
  all_contents (v :: vs) = contents v ++ all_contents vs.
Proof. reflexivity. Qed.

Lemma all_contents_app (vs vs' : list (RVecMembers * (Z -> Item))) :
  all_contents (vs ++ vs') = all_contents vs ++ all_contents vs'.
Proof. unfold all_contents. by rewrite fmap_app, concat_app. Qed.

Lemma cumulative_lookup (vs : list (RVecMembers * (Z -> Item))) :
  Forall (fun v => 0 <= rv_size v.1)%Z vs ->
  forall (n : Z) (i : nat), (i < length vs)%nat ->
  cumulative n ((fun v => rv_size v.1) <$> vs) !! i
  = Some (n + Z.of_nat (length (all_contents (take (S i) vs))))%Z.
Proof.
  induction vs as [|v vs IH]; intros Hall n i Hi; simpl in Hi; [lia|].
  apply Forall_cons in Hall as [Hv Hall].
  change (take (S i) (v :: vs)) with (v :: take i vs).
  rewrite all_contents_cons, length_app.
  pose proof (contents_length v Hv) as Hlength.
  destruct i as [|i].
  - rewrite take_0. cbn -[Z.of_nat Z.add]. f_equal. lia.
  - cbn -[Z.of_nat Z.add all_contents take]. rewrite (IH Hall) by lia.
    f_equal. lia.
Qed.

Lemma rvec_appends (vs : list (RVecMembers * (Z -> Item))) :
  Forall (fun v => 0 <= rv_size v.1 /\ -1 <= rv_capacity v.1)%Z vs ->
  forall w : RCollectionWriter Item,
  (0 <= cw_fNWritten w)%Z ->
  (cw_fNWritten w + Z.of_nat (length (all_contents vs)) < 2 ^ 64)%Z ->
  for_each AppendImpl vs w
  = (Normal tt,
     {| cw_fNWritten := (cw_fNWritten w + Z.of_nat (length (all_contents vs)))%Z;
        cw_column0 := cw_column0 w
                      ++ cumulative (cw_fNWritten w) ((fun v => rv_size v.1) <$> vs);
        cw_items := cw_items w ++ all_contents vs |}).
Proof.
  induction vs as [|[rvec item_at] vs IH]; intros Hall [n column0 items] Hn Hbound;
    cbn [cw_fNWritten cw_column0 cw_items] in *.
  - simpl. by rewrite Z.add_0_r, !app_nil_r.
  - apply Forall_cons in Hall as [[Hsize Hcapacity] Hall]. cbn [fst] in Hsize, Hcapacity.
    rewrite all_contents_cons, length_app in Hbound |- *.
    pose proof (contents_length (rvec, item_at) Hsize) as Hlength. cbn [fst] in Hlength.
    simpl for_each. unfold mbind, Method_bind at 1.
    unfold RRVecFieldWriter.AppendImpl, RRVecField.GetRVecDataMembers,
      mbind, Method_bind, assign, mret, Method_ret.
    assert ((0 <=? rv_size rvec)%Z = true) as -> by (apply Z.leb_le; lia).
    assert ((-1 <=? rv_capacity rvec)%Z = true) as -> by (apply Z.leb_le; lia).
    cbn -[for_each wrap64 cumulative all_contents Z.of_nat Z.add loop_range].
    assert (wrap64 (n + rv_size rvec) = (n + rv_size rvec)%Z) as ->
      by (unfold wrap64; apply Z.mod_small; lia).
    rewrite (IH Hall); cbn [cw_fNWritten cw_column0 cw_items]; [|lia|lia].
    f_equal. f_equal.
    + lia.
    + by rewrite <- app_assoc.
    + by rewrite <- app_assoc.
Qed.

End RVecWriter.

(** X16: appending any list of [RVec] values to an [RVec] field in its
    first cluster writes to the index column the cumulative number of
    items after each value and hands the items of the values to the item
    field in order.  For every entry the index column then yields the
    number of items of the value appended for it, and the cluster indices
    at which [ReadGlobalImpl] reads the items of the entry are the
    positions of the items of that value among the items handed to the
    item field. *)
Theorem RRVecField_items_found_again
    (Item : Type) (itemAppend : Item -> Z) (packedSize : Z)
    (w0 : RCollectionWriter Item) (vs : list (RVecMembers * (Z -> Item))) :
  cw_column0 w0 = [] -> cw_items w0 = [] ->
  Forall (fun v => 0 <= rv_size v.1 /\ -1 <= rv_capacity v.1)%Z vs ->
  (Z.of_nat (length (all_contents vs)) < 2 ^ 64)%Z ->
  let appended :=
    (RRVecFieldWriter.CommitCluster Item ;;
     for_each (RRVecFieldWriter.AppendImpl Item itemAppend packedSize) vs) w0 in
  returns appended = true
  /\ cw_column0 appended.2 = cumulative 0 ((fun v => rv_size v.1) <$> vs)
  /\ cw_items appended.2 = all_contents vs
  /\ forall (i : nat) (v : RVecMembers * (Z -> Item)),
       vs !! i = Some v ->
       let info := ColumnSource.GetCollectionInfo 0 (cw_column0 appended.2) i in
       info.2 = rv_size v.1
       /\ forall j : Z,
            (0 <= j < rv_size v.1)%Z ->
            cw_items appended.2 !! Z.to_nat (fIndex (RVectorField.advance info.1 j))
            = Some (v.2 j).
Proof.
  intros Hcol0 Hitems Hall Hbound. cbv zeta.
  destruct w0 as [n0 column0 items]. simpl in Hcol0, Hitems. subst column0 items.
  assert ((RRVecFieldWriter.CommitCluster Item ;;
           for_each (RRVecFieldWriter.AppendImpl Item itemAppend packedSize) vs)
            {| cw_fNWritten := n0; cw_column0 := []; cw_items := [] |}
          = (Normal tt,
             {| cw_fNWritten := Z.of_nat (length (all_contents vs));
                cw_column0 := cumulative 0 ((fun v => rv_size v.1) <$> vs);
                cw_items := all_contents vs |})) as ->.
  { unfold mbind, Method_bind at 1. unfold RRVecFieldWriter.CommitCluster, assign.
    cbn [cw_column0 cw_items].
    rewrite rvec_appends by (cbn [cw_fNWritten]; first [done | lia]). reflexivity. }
  cbn [snd fst cw_column0 cw_items].
  split; [reflexivity|]. split; [reflexivity|]. split; [reflexivity|].
  intros i v Hi.
  assert (i < length vs)%nat as Hlt by (by eapply lookup_lt_Some).
  assert (Forall (fun v => 0 <= rv_size v.1)%Z vs) as Hsizes
    by (eapply Forall_impl; [exact Hall|]; simpl; tauto).
  assert (0 <= rv_size v.1)%Z as Hv
    by (eapply Forall_forall in Hsizes; [exact Hsizes | by eapply list_elem_of_lookup_2]).
  pose proof (take_drop_middle vs i v Hi) as Hsplit.
  assert (take (S i) vs = take i vs ++ [v]) as Htake by (by apply take_S_r).
  set (before := Z.of_nat (length (all_contents (take i vs)))).
  assert ((match i with
           | 0%nat => 0%Z
           | S k => default 0%Z (cumulative 0 ((fun v => rv_size v.1) <$> vs) !! k)
           end) = before) as Hstart.
  { subst before. destruct i as [|k]; [reflexivity|].
    rewrite (cumulative_lookup Item vs Hsizes) by lia. simpl. lia. }
  assert (default 0%Z (cumulative 0 ((fun v => rv_size v.1) <$> vs) !! i)
          = (before + rv_size v.1)%Z) as Hend.
  { subst before. rewrite (cumulative_lookup Item vs Hsizes) by done. simpl default.
    rewrite Htake, all_contents_app, all_contents_cons, !length_app. simpl.
    pose proof (contents_length Item v Hv). lia. }
  assert (all_contents vs
          = all_contents (take i vs) ++ contents v ++ all_contents (drop (S i) vs))
    as Hcontents.
  { rewrite <- Hsplit at 1. by rewrite all_contents_app, all_contents_cons. }
  assert (0 <= before /\ before + rv_size v.1 < 2 ^ 64)%Z as Hfits.
  { subst before. split; [lia|].
    rewrite Hcontents, !length_app in Hbound.
    pose proof (contents_length Item v Hv). lia. }
  unfold ColumnSource.GetCollectionInfo. rewrite Hstart, Hend. cbn [fst snd].
  split.
  - unfold wrap64. replace (before + rv_size v.1 - before)%Z with (rv_size v.1) by lia.
    apply Z.mod_small. lia.
  - intros j Hj. unfold RVectorField.advance. cbn [fIndex].
    assert (wrap64 (before + j) = (before + j)%Z) as ->
      by (unfold wrap64; apply Z.mod_small; lia).
    rewrite Hcontents. subst before.
    replace (Z.to_nat (Z.of_nat (length (all_contents (take i vs))) + j))
      with (length (all_contents (take i vs)) + Z.to_nat j)%nat by lia.
    rewrite lookup_app_r by lia.
    replace (length (all_contents (take i vs)) + Z.to_nat j
             - length (all_contents (take i vs)))%nat with (Z.to_nat j) by lia.
    pose proof (contents_length Item v Hv) as Hlength.
    rewrite lookup_app_l by lia.
    unfold contents, loop_range. rewrite !list_lookup_fmap.
    rewrite lookup_seq_lt by lia. simpl. f_equal. f_equal. lia.
Qed.

(** ** Bitsets *)

Section BitsetProperties.
Variable kBitsPerWord : Z.
Variable fN : Z.
Hypothesis Hbits : (0 < kBitsPerWord)%Z.
Hypothesis HfN : (0 <= fN)%Z.

#[local] Abbreviation to_Word_t := (RBitsetField.to_Word_t kBitsPerWord).
#[local] Abbreviation bit_of := (bitset_bit kBitsPerWord).

Lemma to_Word_t_bits (z p : Z) :
  (0 <= p)%Z -> Z.testbit (to_Word_t z) p = (p <? kBitsPerWord)%Z && Z.testbit z p.
Proof. intros Hp. unfold RBitsetField.to_Word_t. apply Z.testbit_mod_pow2. lia. Qed.

Lemma to_Word_t_range (z : Z) : (0 <= to_Word_t z < 2 ^ kBitsPerWord)%Z.
Proof. unfold RBitsetField.to_Word_t. apply Z.mod_pos_bound. apply Z.pow_pos_nonneg; lia. Qed.

Lemma shiftl_b2z_bits (b : bool) (m p : Z) :
  (0 <= m)%Z -> (0 <= p)%Z -> Z.testbit (Z.shiftl (Z.b2z b) m) p = b && (p =? m)%Z.
Proof.
  intros Hm Hp. rewrite Z.shiftl_spec by done.
  destruct (Z.eqb_spec p m) as [->|Hne].
  - rewrite Z.sub_diag. destruct b; reflexivity.
  - rewrite andb_false_r. destruct (Z_lt_le_dec p m).
    + apply Z.testbit_neg_r. lia.
    + destruct b; simpl.
      * replace 1%Z with (2 ^ 0)%Z by reflexivity. apply Z.pow2_bits_false. lia.
      * apply Z.bits_0.
Qed.

Lemma mask_test (word mask : Z) :
  (0 <= mask < kBitsPerWord)%Z ->
  negb (Z.land word (to_Word_t (Z.shiftl 1 mask)) =? 0)%Z = Z.testbit word mask.
Proof.
  intros Hmask.
  assert (to_Word_t (Z.shiftl 1 mask) = (2 ^ mask)%Z) as ->.
  { unfold RBitsetField.to_Word_t. rewrite Z.shiftl_1_l. apply Z.mod_small.
    split; [apply Z.pow_nonneg; lia | apply Z.pow_lt_mono_r; lia]. }
  destruct (Z.testbit word mask) eqn:Hbit.
  - apply negb_true_iff, Z.eqb_neq. intros Hzero.
    assert (Z.testbit (Z.land word (2 ^ mask)) mask = true) as Hone
      by (rewrite Z.land_spec, Hbit, Z.pow2_bits_true by lia; done).
    rewrite Hzero, Z.bits_0 in Hone. discriminate.
  - apply negb_false_iff, Z.eqb_eq. apply Z.bits_inj_0. intros p.
    rewrite Z.land_spec. destruct (Z.eq_dec mask p) as [<-|Hne].
    + by rewrite Hbit.
    + by rewrite Z.pow2_bits_false, andb_false_r.
Qed.

Lemma position_in_word (word mask : Z) :
  (0 <= mask < kBitsPerWord)%Z ->
  ((word * kBitsPerWord + mask) / kBitsPerWord = word
   /\ (word * kBitsPerWord + mask) mod kBitsPerWord = mask)%Z.
Proof.
  intros Hmask. split.
  - rewrite Z.add_comm, Z.div_add by lia. rewrite Z.div_small by lia. lia.
  - rewrite Z.add_comm, Z.mod_add by lia. apply Z.mod_small. lia.
Qed.

Lemma AppendImpl_word_bits (asULongArray : Z -> Z) (word : Z) :
  (0 <= word)%Z ->
  forall (steps : nat) (mask : Z),
  (0 <= mask)%Z -> (mask + Z.of_nat steps = kBitsPerWord)%Z ->
  (word * kBitsPerWord + mask <= fN)%Z -> (fN + kBitsPerWord < 2 ^ 64)%Z ->
  RBitsetField.AppendImpl_word kBitsPerWord fN steps (asULongArray word) mask
    (word * kBitsPerWord + mask)
  = (bit_of asULongArray
       <$> loop_range (word * kBitsPerWord + mask)
             (Z.min fN (word * kBitsPerWord + kBitsPerWord)),
     Z.min fN (word * kBitsPerWord + kBitsPerWord)).
Proof.
  intros Hword. induction steps as [|steps IH]; intros mask Hmask Hsteps Hi Hfits.
  - cbn [RBitsetField.AppendImpl_word]. rewrite loop_range_nil by lia.
    cbn [fmap list_fmap]. f_equal. lia.
  - cbn [RBitsetField.AppendImpl_word].
    assert ((mask <? kBitsPerWord)%Z = true) as -> by (apply Z.ltb_lt; lia).
    cbn [andb].
    destruct (word * kBitsPerWord + mask <? fN)%Z eqn:Hless;
      [apply Z.ltb_lt in Hless | apply Z.ltb_ge in Hless].
    + assert (wrap64 (word * kBitsPerWord + mask + 1)
              = (word * kBitsPerWord + (mask + 1))%Z) as ->
        by (unfold wrap64; rewrite Z.mod_small; nia).
      rewrite IH by lia.
      rewrite (loop_range_cons (word * kBitsPerWord + mask)) by lia.
      cbn [fmap list_fmap]. f_equal. f_equal.
      * rewrite mask_test by lia. unfold bitset_bit.
        destruct (position_in_word word mask ltac:(lia)) as [-> ->]. done.
      * do 2 f_equal. lia.
    + rewrite loop_range_nil by lia. cbn [fmap list_fmap]. f_equal. lia.
Qed.

Lemma AppendImpl_words_bits (asULongArray : Z -> Z) :
  (fN + kBitsPerWord < 2 ^ 64)%Z ->
  forall n : nat,
  (Z.of_nat n <= (fN + kBitsPerWord - 1) / kBitsPerWord)%Z ->
  foldl (fun '(appended, i) word =>
           let '(bits, i') :=
             RBitsetField.AppendImpl_word kBitsPerWord fN (Z.to_nat kBitsPerWord)
               (asULongArray word) 0 i in
           (appended ++ bits, i'))
        ([], 0%Z) (loop_range 0 (Z.of_nat n))
  = (bit_of asULongArray <$> loop_range 0 (Z.min fN (Z.of_nat n * kBitsPerWord)),
     Z.min fN (Z.of_nat n * kBitsPerWord)).
Proof.
  intros Hfits. induction n as [|n IH]; intros Hn.
  - cbn [Z.of_nat]. rewrite Z.mul_0_l, Z.min_r, !loop_range_nil by lia. reflexivity.
  - rewrite Nat2Z.inj_succ. unfold Z.succ. rewrite loop_range_snoc by lia.
    rewrite foldl_app, IH by lia. cbn [foldl].
    assert ((Z.of_nat n + 1) * kBitsPerWord <= fN + kBitsPerWord - 1)%Z as Hfull.
    { pose proof (Z.mul_div_le (fN + kBitsPerWord - 1) kBitsPerWord Hbits). nia. }
    rewrite (Z.min_r fN (Z.of_nat n * kBitsPerWord)) by lia.
    pose proof (AppendImpl_word_bits asULongArray (Z.of_nat n) ltac:(lia)
                  (Z.to_nat kBitsPerWord) 0%Z ltac:(lia) ltac:(lia) ltac:(lia) Hfits)
      as Hword.
    rewrite Z.add_0_r in Hword. rewrite Hword.
    replace ((Z.of_nat n + 1) * kBitsPerWord)%Z
      with (Z.of_nat n * kBitsPerWord + kBitsPerWord)%Z by lia.
    f_equal. rewrite <- fmap_app. f_equal. symmetry. apply loop_range_app. lia.
Qed.

Lemma AppendImpl_appended (asULongArray : Z -> Z) :
  (fN + kBitsPerWord < 2 ^ 64)%Z ->
  (RBitsetField.AppendImpl kBitsPerWord fN asULongArray).1
  = bit_of asULongArray <$> loop_range 0 fN.
Proof.
  intros Hfits. unfold RBitsetField.AppendImpl. cbv zeta. cbn [fst].
  assert (wrap64 (wrap64 (fN + kBitsPerWord) - 1) = (fN + kBitsPerWord - 1)%Z) as ->.
  { unfold wrap64. rewrite (Z.mod_small (fN + kBitsPerWord)) by lia.
    apply Z.mod_small. lia. }
  set (nWords := ((fN + kBitsPerWord - 1) / kBitsPerWord)%Z).
  assert (0 <= nWords)%Z as HnWords by (apply Z.div_pos; lia).
  pose proof (AppendImpl_words_bits asULongArray Hfits (Z.to_nat nWords)) as Hwords.
  rewrite Z2Nat.id in Hwords by lia. rewrite Hwords by (subst nWords; lia).
  assert (fN <= nWords * kBitsPerWord)%Z as Hcovers.
  { subst nWords.
    pose proof (Z.mod_pos_bound (fN + kBitsPerWord - 1) kBitsPerWord Hbits).
    pose proof (Z_div_mod_eq_full (fN + kBitsPerWord - 1) kBitsPerWord). nia. }
  rewrite Z.min_l by lia. reflexivity.
Qed.

(** X17: [RBitsetField::AppendImpl] appends exactly [fN] bits, bit [i]
    being bit [i mod kBitsPerWord] of word [i / kBitsPerWord] of the
    bitset, and reports [fN] bytes. *)
Theorem RBitsetField_AppendImpl_bits (asULongArray : Z -> Z) :
  (fN + kBitsPerWord < 2 ^ 64)%Z ->
  RBitsetField.AppendImpl kBitsPerWord fN asULongArray
  = (bit_of asULongArray <$> loop_range 0 fN, fN).
Proof.
  intros Hfits.
  rewrite (surjective_pairing (RBitsetField.AppendImpl kBitsPerWord fN asULongArray)).
  f_equal; [by apply AppendImpl_appended|].
  unfold RBitsetField.AppendImpl. cbv zeta. by destruct (foldl _ _ _).
Qed.

Lemma ReadGlobalImpl_bits (Read : Z -> bool) (globalIndex : Z) (asULongArray : Z -> Z) :
  (forall w, 0 <= asULongArray w < 2 ^ kBitsPerWord)%Z ->
  forall n : nat,
  let after :=
    foldl (fun (asULongArray : Z -> Z) i =>
             let elementValue := Read (wrap64 (wrap64 (globalIndex * fN) + i)) in
             let mask := to_Word_t (Z.shiftl 1 (i mod kBitsPerWord)) in
             let bit := to_Word_t (Z.shiftl (Z.b2z elementValue) (i mod kBitsPerWord)) in
             let word := (i / kBitsPerWord)%Z in
             fun w =>
               if bool_decide (w = word)
               then Z.lor (Z.land (asULongArray word) (to_Word_t (Z.lnot mask))) bit
               else asULongArray w)
          asULongArray (loop_range 0 (Z.of_nat n)) in
  (forall w, 0 <= after w < 2 ^ kBitsPerWord)%Z
  /\ forall j, (0 <= j)%Z ->
       bit_of after j
       = if (j <? Z.of_nat n)%Z then Read (wrap64 (wrap64 (globalIndex * fN) + j))
         else bit_of asULongArray j.
Proof.
  intros Hwords. induction n as [|n IH]; cbv zeta.
  - rewrite loop_range_nil by lia. cbn [foldl]. split; [exact Hwords|].
    intros j Hj. assert ((j <? Z.of_nat 0)%Z = false) as -> by (apply Z.ltb_ge; lia). done.
  - cbv zeta in IH. destruct IH as [Hrange Hbit].
    rewrite Nat2Z.inj_succ. unfold Z.succ. rewrite loop_range_snoc by lia.
    rewrite foldl_app. cbn [foldl].
    set (before := foldl _ asULongArray (loop_range 0 (Z.of_nat n))) in *.
    set (i := Z.of_nat n) in *.
    assert (0 <= i mod kBitsPerWord < kBitsPerWord)%Z as Hm by (apply Z.mod_pos_bound; lia).
    set (m := (i mod kBitsPerWord)%Z) in *.
    assert (forall b p, (0 <= p)%Z ->
              Z.testbit
                (Z.lor (Z.land (before (i / kBitsPerWord)%Z)
                          (to_Word_t (Z.lnot (to_Word_t (Z.shiftl 1 m)))))
                       (to_Word_t (Z.shiftl (Z.b2z b) m))) p
              = if (p =? m)%Z then b else Z.testbit (before (i / kBitsPerWord)%Z) p)
      as Hupdate.
    { intros b p Hp.
      rewrite Z.lor_spec, Z.land_spec, !to_Word_t_bits, Z.lnot_spec, to_Word_t_bits by lia.
      rewrite (shiftl_b2z_bits true), (shiftl_b2z_bits b) by lia. cbn [andb].
      destruct (Z.eqb_spec p m) as [->|Hne].
      - assert ((m <? kBitsPerWord)%Z = true) as -> by (apply Z.ltb_lt; lia).
        cbn [andb negb]. rewrite andb_false_r. destruct b; reflexivity.
      - rewrite !andb_false_r, orb_false_r. cbn [negb]. rewrite andb_true_r.
        destruct (p <? kBitsPerWord)%Z eqn:Hless; [by rewrite andb_true_r|].
        apply Z.ltb_ge in Hless. rewrite andb_false_r. symmetry.
        specialize (Hrange (i / kBitsPerWord)%Z).
        apply (proj1 (Z.bounded_iff_bits_nonneg kBitsPerWord
                        (before (i / kBitsPerWord)%Z) ltac:(lia) ltac:(lia)));
          lia. }
    split.
    + intros w. destruct (bool_decide (w = (i / kBitsPerWord)%Z)); [|apply Hrange].
      apply Z.bounded_iff_bits_nonneg'; [lia| |].
      * apply Z.lor_nonneg. split; [|apply to_Word_t_range].
        apply Z.land_nonneg. right. apply to_Word_t_range.
      * intros p Hp. rewrite Hupdate by lia.
        assert ((p =? m)%Z = false) as -> by (apply Z.eqb_neq; lia).
        specialize (Hrange (i / kBitsPerWord)%Z).
        apply (proj1 (Z.bounded_iff_bits_nonneg kBitsPerWord
                        (before (i / kBitsPerWord)%Z) ltac:(lia) ltac:(lia)));
          lia.
    + intros j Hj. unfold bitset_bit at 1.
      assert (0 <= j mod kBitsPerWord < kBitsPerWord)%Z as Hjm
        by (apply Z.mod_pos_bound; lia).
      destruct (bool_decide (j / kBitsPerWord = i / kBitsPerWord)%Z) eqn:Hsame;
        [apply bool_decide_eq_true in Hsame | apply bool_decide_eq_false in Hsame].
      * rewrite Hupdate by lia. rewrite <- Hsame.
        fold (bit_of before j). rewrite (Hbit j Hj).
        destruct (Z.eqb_spec (j mod kBitsPerWord) m) as [Hpos|Hpos].
        -- assert (j = i) as ->.
           { rewrite (Z_div_mod_eq_full j kBitsPerWord), (Z_div_mod_eq_full i kBitsPerWord).
             subst m. rewrite Hsame, Hpos. reflexivity. }
           assert ((i <? i + 1)%Z = true) as -> by (apply Z.ltb_lt; lia). reflexivity.
        -- assert (j <> i) as Hne by (intros ->; by apply Hpos).
           destruct (j <? i)%Z eqn:Hlt; [apply Z.ltb_lt in Hlt | apply Z.ltb_ge in Hlt].
           ++ assert ((j <? i + 1)%Z = true) as -> by (apply Z.ltb_lt; lia). reflexivity.
           ++ assert ((j <? i + 1)%Z = false) as -> by (apply Z.ltb_ge; lia). reflexivity.
      * fold (bit_of before j). rewrite (Hbit j Hj).
        assert (j <> i) as Hne by (intros ->; by apply Hsame).
        destruct (j <? i)%Z eqn:Hlt; [apply Z.ltb_lt in Hlt | apply Z.ltb_ge in Hlt].
        -- assert ((j <? i + 1)%Z = true) as -> by (apply Z.ltb_lt; lia). reflexivity.
        -- assert ((j <? i + 1)%Z = false) as -> by (apply Z.ltb_ge; lia). reflexivity.
Qed.

(** X18: when the bits [AppendImpl] appends for a bitset are entry
    [globalIndex] of the bit column, [ReadGlobalImpl] of that entry sets
    the first [fN] bits of the destination to the bits of the bitset that
    was appended and leaves every other bit of the destination as it was;
    the words stay within [kBitsPerWord] bits. *)
Theorem RBitsetField_round_trip
    (from to : Z -> Z) (earlier later : list bool) (globalIndex : Z) :
  (forall w, 0 <= to w < 2 ^ kBitsPerWord)%Z ->
  (0 <= globalIndex)%Z -> Z.of_nat (length earlier) = (globalIndex * fN)%Z ->
  (globalIndex * fN + fN < 2 ^ 64)%Z -> (fN + kBitsPerWord < 2 ^ 64)%Z ->
  let column := earlier ++ (RBitsetField.AppendImpl kBitsPerWord fN from).1 ++ later in
  let Read := fun index : Z => default false (column !! Z.to_nat index) in
  let read := RBitsetField.ReadGlobalImpl kBitsPerWord fN Read globalIndex to in
  (forall w, 0 <= read w < 2 ^ kBitsPerWord)%Z
  /\ forall j, (0 <= j)%Z ->
       bit_of read j = if (j <? fN)%Z then bit_of from j else bit_of to j.
Proof.
  intros Hto Hindex Hearlier Hentry Hfits column Read read.
  pose proof (ReadGlobalImpl_bits Read globalIndex to Hto (Z.to_nat fN)) as Hread.
  cbv zeta in Hread. rewrite Z2Nat.id in Hread by lia.
  fold (RBitsetField.ReadGlobalImpl kBitsPerWord fN Read globalIndex to) in Hread.
  fold read in Hread. destruct Hread as [Hrange Hbit].
  split; [exact Hrange|].
  intros j Hj. rewrite (Hbit j Hj).
  destruct (j <? fN)%Z eqn:Hless; [apply Z.ltb_lt in Hless | reflexivity].
  subst Read column. cbv beta.
  rewrite AppendImpl_appended by done.
  assert (wrap64 (wrap64 (globalIndex * fN) + j) = (globalIndex * fN + j)%Z) as ->.
  { unfold wrap64. rewrite (Z.mod_small (globalIndex * fN)) by nia.
    apply Z.mod_small. nia. }
  replace (Z.to_nat (globalIndex * fN + j)) with (length earlier + Z.to_nat j)%nat by lia.
  rewrite lookup_app_r by lia.
  replace (length earlier + Z.to_nat j - length earlier)%nat with (Z.to_nat j) by lia.
  rewrite lookup_app_l
    by (unfold loop_range; rewrite !length_fmap, length_seq; lia).
  unfold loop_range. rewrite !list_lookup_fmap, lookup_seq_lt by lia. simpl.
  f_equal. lia.
Qed.

End BitsetProperties.

(** ** The tag of a variant *)

(** X19: with [char] signed, as [to_char] has it, a tag written by
    [SetTag] is read back by [GetTag] exactly when it is at most 128: the
    tag 0 of a variant that holds nothing and the tags of the first 128
    alternatives survive, every larger tag is read back as a smaller one.
    [ReadGlobalImpl] of an entry with such a tag [t > 0] constructs and
    reads alternative [t - 1] and nothing else, and leaves the tag [t] in
    the destination. *)
Theorem RVariantField_tag_round_trip
    (Payload : Type) (subfieldGenerate : nat -> Payload -> Payload)
    (subfieldRead : nat -> RClusterIndex -> Payload -> Payload)
    (to : VariantValue Payload) (tag : Z) :
  (0 <= tag < 2 ^ 32)%Z ->
  (RVariantField.GetTag Payload (RVariantField.SetTag Payload to tag) = tag
   <-> (tag <= 128)%Z)
  /\ (0 < tag <= 128 ->
      forall variantIndex : RClusterIndex,
      let read := RVariantField.ReadGlobalImpl Payload subfieldGenerate subfieldRead
                    (variantIndex, tag) to in
      read.1 = [GenerateValueBy (Z.to_nat (tag - 1));
                SubfieldRead (Z.to_nat (tag - 1)) variantIndex]
      /\ RVariantField.GetTag Payload read.2 = tag
      /\ var_storage read.2
         = subfieldRead (Z.to_nat (tag - 1)) variantIndex
             (subfieldGenerate (Z.to_nat (tag - 1)) (var_storage to)))%Z.
Proof.
  intros Htag.
  assert (RVariantField.GetTag Payload (RVariantField.SetTag Payload to tag) = tag
          <-> (tag <= 128)%Z) as Hround.
  { unfold RVariantField.GetTag, RVariantField.SetTag, to_char, to_uint32.
    cbn [var_index].
    destruct (Z.eq_dec tag 0) as [->|Hpos]; [done|].
    rewrite (Z.mod_small (tag - 1)) by lia.
    destruct (Z_le_gt_dec tag 128) as [Hle|Hgt].
    - rewrite (Z.mod_small (tag - 1 + 2 ^ 7)) by lia.
      assert ((tag - 1 + 2 ^ 7 - 2 ^ 7 <? 0)%Z = false) as -> by (apply Z.ltb_ge; lia).
      rewrite Z.mod_small by lia. split; lia.
    - pose proof (Z.mod_pos_bound (tag - 1 + 2 ^ 7) (2 ^ 8) ltac:(lia)) as Hchar.
      split; [|lia]. intros Heq.
      destruct ((tag - 1 + 2 ^ 7) mod 2 ^ 8 - 2 ^ 7 <? 0)%Z eqn:Hneg;
        [apply Z.ltb_lt in Hneg | apply Z.ltb_ge in Hneg].
      + rewrite Z.mod_small in Heq by lia. lia.
      + rewrite Z.mod_small in Heq by lia. lia. }
  split; [exact Hround|].
  intros Hvalid variantIndex. cbv zeta.
  unfold RVariantField.ReadGlobalImpl.
  assert ((0 <? tag)%Z = true) as -> by (apply Z.ltb_lt; lia).
  cbn [fst snd]. split; [reflexivity|]. split; [|reflexivity].
  unfold RVariantField.GetTag, RVariantField.SetTag, to_char, to_uint32.
  cbn [var_index].
  rewrite (Z.mod_small (tag - 1)) by lia.
  rewrite (Z.mod_small (tag - 1 + 2 ^ 7)) by lia.
  assert ((tag - 1 + 2 ^ 7 - 2 ^ 7 <? 0)%Z = false) as -> by (apply Z.ltb_ge; lia).
  rewrite Z.mod_small by lia. lia.
Qed.

(** ** Type names taken apart and put together *)

Lemma append_cons (c : ascii) (a b : string) : String c a +:+ b = String c (a +:+ b).
Proof. done. Qed.

Lemma append_empty_l (s : string) : "" +:+ s = s.
Proof. done. Qed.

Ltac push_append := rewrite ?append_cons, ?append_empty_l.

Lemma length_append (a b : string) :
  String.length (a +:+ b) = (String.length a + String.length b)%nat.
Proof. induction a as [|x a IH]; [done|]. rewrite append_cons. cbn. by rewrite IH. Qed.

Lemma substring_prefix (t rest : string) :
  String.substring 0 (String.length t) (t +:+ rest) = t.
Proof.
  induction t as [|c t IH]; push_append; cbn.
  - by destruct rest.
  - by rewrite IH.
Qed.

Lemma substring_skip (pre s : string) (n m : nat) :
  String.substring (String.length pre + n) m (pre +:+ s) = String.substring n m s.
Proof. induction pre as [|c pre IH]; [done|]. rewrite append_cons. cbn. exact IH. Qed.

Lemma get_skip (pre s : string) (n : nat) :
  String.get (String.length pre + n) (pre +:+ s) = String.get n s.
Proof. induction pre as [|c pre IH]; [done|]. rewrite append_cons. cbn. exact IH. Qed.

Lemma join_types_from (acc : string) (types : list string) :
  foldl (fun result t => result +:+ t +:+ ",") acc types = acc +:+ join_types types.
Proof.
  unfold join_types. revert acc. induction types as [|t types IH]; intros acc; cbn.
  - by rewrite append_nil_r.
  - rewrite IH, (IH ("" +:+ t +:+ ",")), append_empty_l, !append_assoc. done.
Qed.

Lemma join_types_cons (t : string) (types : list string) :
  join_types (t :: types) = t +:+ "," +:+ join_types types.
Proof.
  unfold join_types at 1. cbn [foldl]. rewrite join_types_from.
  by rewrite append_empty_l, append_assoc.
Qed.

Lemma pop_back_append (a b : string) : b <> "" -> pop_back (a +:+ b) = a +:+ pop_back b.
Proof.
  intros Hb. induction a as [|c a IH]; [done|].
  rewrite !append_cons. cbn [pop_back]. rewrite IH.
  destruct (a +:+ b) eqn:Hab; [|done].
  destruct a; [|discriminate]. by destruct b.
Qed.

Section Tokens.
Import TypeName.

Lemma TokenizeTypeList_loop_tokens (rest pre running : string) (nestingLevel : Z)
    (result : list string) :
  TokenizeTypeList_loop (pre +:+ running +:+ rest) (String.length pre)
    (String.length pre + String.length running) rest nestingLevel result
  = result ++ tokens running rest nestingLevel.
Proof.
  revert pre running nestingLevel result.
  induction rest as [|c rest IH]; intros pre running nestingLevel result.
  - cbn [TokenizeTypeList_loop tokens]. unfold token.
    replace (String.length pre + String.length running - String.length pre)%nat
      with (String.length running) by lia.
    rewrite <- (Nat.add_0_r (String.length pre)) at 1.
    by rewrite substring_skip, substring_prefix.
  - assert (forall nestingLevel result,
              TokenizeTypeList_loop (pre +:+ running +:+ String c rest) (String.length pre)
                (S (String.length pre + String.length running)) rest nestingLevel result
              = result ++ tokens (running +:+ String c "") rest nestingLevel) as Hnext.
    { intros level res.
      specialize (IH pre (running +:+ String c "") level res).
      rewrite append_assoc, length_append in IH.
      rewrite !append_cons, !append_empty_l in IH. cbn in IH.
      replace (String.length pre + (String.length running + 1))%nat
        with (S (String.length pre + String.length running)) in IH by lia.
      exact IH. }
    cbn [TokenizeTypeList_loop tokens].
    destruct (Ascii.eqb c "<"%char); [apply Hnext|].
    destruct (Ascii.eqb c ">"%char); [apply Hnext|].
    destruct (Ascii.eqb c ","%char) eqn:Hcomma; [|apply Hnext].
    destruct (nestingLevel =? 0)%Z; cbn [andb]; [|apply Hnext].
    apply Ascii.eqb_eq in Hcomma as ->.
    specialize (IH (pre +:+ running +:+ ",") "" nestingLevel
                  (result ++ [token (pre +:+ running +:+ String "," rest)
                                (String.length pre)
                                (String.length pre + String.length running)])).
    rewrite !append_assoc, !length_append in IH.
    rewrite !append_cons, !append_empty_l in IH. cbn in IH.
    replace (String.length pre + (String.length running + 1) + 0)%nat
      with (S (String.length pre + String.length running)) in IH by lia.
    replace (String.length pre + (String.length running + 1))%nat
      with (String.length pre + String.length running + 1)%nat in IH by lia.
    rewrite IH. rewrite <- app_assoc. f_equal. cbn. f_equal.
    unfold token.
    replace (String.length pre + String.length running - String.length pre)%nat
      with (String.length running) by lia.
    rewrite <- (Nat.add_0_r (String.length pre)) at 1.
    by rewrite substring_skip, substring_prefix.
Qed.

Lemma TokenizeTypeList_tokens (templateType : string) :
  templateType <> "" -> TokenizeTypeList templateType = tokens "" templateType 0.
Proof.
  intros Hne. unfold TokenizeTypeList.
  destruct (String.eqb_spec templateType ""); [done|].
  exact (TokenizeTypeList_loop_tokens templateType "" "" 0 []).
Qed.

Lemma tokens_joined (rest running : string) (nestingLevel : Z) :
  join_types (tokens running rest nestingLevel) = running +:+ rest +:+ ",".
Proof.
  revert running nestingLevel. induction rest as [|c rest IH]; intros running level.
  - cbn [tokens]. by rewrite join_types_cons, append_nil_r.
  - assert (forall level, join_types (tokens (running +:+ String c "") rest level)
                          = running +:+ String c rest +:+ ",") as Hnext.
    { intros l. rewrite IH, append_assoc. done. }
    cbn [tokens].
    destruct (Ascii.eqb c "<"%char); [apply Hnext|].
    destruct (Ascii.eqb c ">"%char); [apply Hnext|].
    destruct (Ascii.eqb c ","%char) eqn:Hcomma; [|apply Hnext].
    destruct (level =? 0)%Z; cbn [andb]; [|apply Hnext].
    apply Ascii.eqb_eq in Hcomma as ->.
    rewrite join_types_cons, IH. done.
Qed.

Lemma nesting_snoc (type : string) (c : ascii) (from : Z) :
  nesting (type +:+ String c "") from
  = match nesting type from with
    | Some nestingLevel => nesting (String c "") nestingLevel
    | None => None
    end.
Proof.
  revert from. induction type as [|x type IH]; intros from.
  - reflexivity.
  - rewrite append_cons. cbn [nesting].
    destruct (Ascii.eqb x "<"%char); [apply IH|].
    destruct (Ascii.eqb x ">"%char); [apply IH|].
    destruct (Ascii.eqb x ","%char && (from =? 0)%Z); [done|apply IH].
Qed.

Lemma tokens_nesting (rest running : string) (nestingLevel : Z) :
  nesting running 0 = Some nestingLevel ->
  Forall (fun type => is_Some (nesting type 0)) (tokens running rest nestingLevel).
Proof.
  revert running nestingLevel. induction rest as [|c rest IH]; intros running level Hrun.
  - cbn. repeat constructor. by rewrite Hrun.
  - cbn [tokens].
    pose proof (nesting_snoc running c 0) as Hsnoc. rewrite Hrun in Hsnoc.
    cbn [nesting] in Hsnoc.
    destruct (Ascii.eqb c "<"%char); [by apply IH|].
    destruct (Ascii.eqb c ">"%char); [by apply IH|].
    destruct (Ascii.eqb c ","%char && (level =? 0)%Z) eqn:Hsplit; [|by apply IH].
    constructor; [by rewrite Hrun|].
    apply andb_true_iff in Hsplit as [_ Hzero]. apply Z.eqb_eq in Hzero as ->.
    by apply IH.
Qed.

Lemma tokens_type (type running rest : string) (from nestingLevel : Z) :
  nesting type from = Some nestingLevel ->
  tokens running (type +:+ rest) from = tokens (running +:+ type) rest nestingLevel.
Proof.
  revert running from. induction type as [|c type IH]; intros running from Hnest.
  - cbn in Hnest. injection Hnest as ->. by rewrite append_nil_r.
  - rewrite append_cons. cbn [tokens nesting] in *.
    assert (running +:+ String c type = (running +:+ String c "") +:+ type) as ->
      by (by rewrite append_assoc).
    destruct (Ascii.eqb c "<"%char); [by apply IH|].
    destruct (Ascii.eqb c ">"%char); [by apply IH|].
    destruct (Ascii.eqb c ","%char && (from =? 0)%Z); [done|by apply IH].
Qed.

Lemma tokens_type_list (types : list string) :
  types <> [] -> Forall (fun type => nesting type 0 = Some 0%Z) types ->
  tokens "" (pop_back (join_types types)) 0 = types.
Proof.
  induction types as [|t types IH]; [done|]. intros _ Hclosed.
  apply Forall_cons in Hclosed as [Ht Hclosed].
  rewrite join_types_cons.
  destruct types as [|t' types].
  - change (join_types []) with "". rewrite pop_back_append by done.
    change (pop_back ("," +:+ "")) with "".
    by rewrite (tokens_type t "" "" 0 0 Ht).
  - assert (join_types (t' :: types) <> "") as Hrest by (by apply join_types_not_empty).
    rewrite (pop_back_append t) by (rewrite append_cons; discriminate).
    rewrite (pop_back_append ",") by done.
    rewrite (tokens_type t "" _ 0 0 Ht). push_append. cbn [tokens]. cbn.
    f_equal. by apply IH.
Qed.

End Tokens.

(** X20: the tokens [TokenizeTypeList] returns, put together again with
    commas the way [GetTypeList] joins type names, are the string it was
    given; it returns no token only for the empty string, and no token
    holds a comma outside angle brackets. *)
Theorem TokenizeTypeList_joined (templateType : string) :
  pop_back (join_types (TypeName.TokenizeTypeList templateType)) = templateType
  /\ (TypeName.TokenizeTypeList templateType = [] <-> templateType = "")
  /\ Forall (fun type => is_Some (nesting type 0)) (TypeName.TokenizeTypeList templateType).
Proof.
  destruct (decide (templateType = "")) as [->|Hne]; [by repeat split|].
  rewrite TokenizeTypeList_tokens by done.
  split; [|split].
  - rewrite tokens_joined, append_empty_l, pop_back_append by done.
    change (pop_back ",") with "". apply append_nil_r.
  - split; [|done]. intros Hnil.
    pose proof (tokens_joined templateType "" 0) as Hjoin.
    rewrite Hnil, append_empty_l in Hjoin. change (join_types []) with "" in Hjoin.
    destruct templateType; discriminate.
  - by apply tokens_nesting.
Qed.

(** X21: [TokenizeTypeList] undoes [GetTypeList]: the type names of the
    items of a variant or tuple, joined with commas, are tokenized into
    the same type names, when no type name holds a comma outside angle
    brackets and each closes the brackets it opens; the one exception is
    a single item with the empty type name, which gives no token. *)
Theorem TokenizeTypeList_GetTypeList (types : list string) :
  types <> [] -> Forall (fun type => nesting type 0 = Some 0%Z) types ->
  TypeName.TokenizeTypeList (pop_back (join_types types))
  = if decide (types = [""]) then [] else types.
Proof.
  intros Hne Hclosed. destruct (decide (types = [""])) as [->|Hitem]; [done|].
  rewrite TokenizeTypeList_tokens; [by apply tokens_type_list|].
  destruct types as [|t [|t' types]]; [done| |].
  - rewrite join_types_cons. cbn. rewrite pop_back_append by done. cbn.
    rewrite append_nil_r. by intros ->.
  - rewrite join_types_cons, <- append_assoc.
    rewrite pop_back_append by (by apply join_types_not_empty).
    rewrite append_assoc. destruct t; discriminate.
Qed.
(** ** Array type names *)

Section ArrayTypes.
Import TypeName.

Lemma back_snoc (s : string) (c : ascii) : back (s +:+ String c "") = Some c.
Proof.
  unfold back. rewrite length_append. cbn [String.length].
  replace (String.length s + 1)%nat with (S (String.length s + 0)) by lia.
  by rewrite get_skip.
Qed.

Lemma get_characters (s : string) (n : nat) : String.get n s = characters_of s !! n.
Proof.
  revert n. induction s as [|c s IH]; intros n; [by destruct n|].
  destruct n as [|n]; [done|]. cbn. apply IH.
Qed.

Lemma characters_of_append (a b : string) :
  characters_of (a +:+ b) = characters_of a ++ characters_of b.
Proof. induction a as [|c a IH]; [done|]. rewrite append_cons. cbn. by rewrite IH. Qed.

Lemma find_last_of_unfold (ch : ascii) (typeName : string) (pos : nat) :
  find_last_of ch typeName pos
  = match String.get pos typeName with
    | Some c =>
        if Ascii.eqb c ch then Some pos
        else match pos with O => None | S pos' => find_last_of ch typeName pos' end
    | None => match pos with O => None | S pos' => find_last_of ch typeName pos' end
    end.
Proof. by destruct pos. Qed.

Lemma find_last_of_le (ch : ascii) (typeName : string) (pos p : nat) :
  find_last_of ch typeName pos = Some p ->
  (p <= pos)%nat /\ String.get p typeName = Some ch.
Proof.
  induction pos as [|pos IH]; rewrite find_last_of_unfold.
  - destruct (String.get 0 typeName) as [c|] eqn:Hget; [|done].
    destruct (Ascii.eqb c ch) eqn:Hc; [|done].
    apply Ascii.eqb_eq in Hc as ->. by intros [= <-].
  - destruct (String.get (S pos) typeName) as [c|] eqn:Hget.
    + destruct (Ascii.eqb c ch) eqn:Hc.
      * apply Ascii.eqb_eq in Hc as ->. by intros [= <-].
      * intros Hfound. destruct (IH Hfound). split; [lia|done].
    + intros Hfound. destruct (IH Hfound). split; [lia|done].
Qed.

Lemma find_last_of_bracket (pre tail : string) (j : nat) :
  Forall (fun c => c <> "["%char) (characters_of tail) ->
  find_last_of "[" (pre +:+ String "[" tail) (String.length pre + j)
  = Some (String.length pre).
Proof.
  intros Htail. induction j as [|j IH]; rewrite find_last_of_unfold.
  - rewrite get_skip. cbn. by rewrite Nat.add_0_r.
  - rewrite get_skip. cbn [String.get]. rewrite Nat.add_succ_r.
    destruct (String.get j tail) as [c|] eqn:Hget; [|exact IH].
    rewrite get_characters in Hget.
    pose proof (proj1 (Forall_lookup _ _) Htail j c Hget) as Hc.
    apply Ascii.eqb_neq in Hc. rewrite Hc. exact IH.
Qed.

Lemma pretty_N_char_digit (d : N) :
  (d < 10)%N ->
  is_digit (pretty_N_char d) = true
  /\ (Z.of_nat (nat_of_ascii (pretty_N_char d)) - 48)%Z = Z.of_N d.
Proof.
  intros Hd.
  assert (d = 0 \/ d = 1 \/ d = 2 \/ d = 3 \/ d = 4 \/ d = 5 \/ d = 6 \/ d = 7
          \/ d = 8 \/ d = 9)%N as Hcases by lia.
  repeat (destruct Hcases as [->|Hcases]; [by vm_compute|]).
  subst d. by vm_compute.
Qed.

Lemma pretty_N_go_digits (x : N) (s : string) :
  all_digits s -> all_digits (pretty_N_go x s).
Proof.
  revert s. induction (N.lt_wf_0 x) as [x _ IH]. intros s Hs.
  destruct (decide (x = 0%N)) as [->|Hx]; [by rewrite pretty_N_go_0|].
  rewrite pretty_N_go_step by lia. apply IH.
  - apply N.div_lt; lia.
  - constructor; [|exact Hs]. apply pretty_N_char_digit. apply N.mod_lt. lia.
Qed.

Lemma pretty_N_go_not_empty (x : N) (s : string) : s <> "" -> pretty_N_go x s <> "".
Proof.
  revert s. induction (N.lt_wf_0 x) as [x _ IH]. intros s Hs.
  destruct (decide (x = 0%N)) as [->|Hx]; [by rewrite pretty_N_go_0|].
  rewrite pretty_N_go_step by lia. apply IH; [apply N.div_lt; lia|done].
Qed.

Lemma pretty_N_go_value (x : N) (s : string) :
  exists m : Z, forall value : Z,
    from_chars_digits (pretty_N_go x s) value
    = from_chars_digits s (value * m + Z.of_N x)%Z.
Proof.
  revert s. induction (N.lt_wf_0 x) as [x _ IH]. intros s.
  destruct (decide (x = 0%N)) as [->|Hx].
  - exists 1%Z. intros value. rewrite pretty_N_go_0. f_equal. lia.
  - rewrite pretty_N_go_step by lia.
    destruct (IH (x / 10)%N ltac:(apply N.div_lt; lia)
                (String (pretty_N_char (x mod 10)) s)) as [m Hm].
    exists (10 * m)%Z. intros value. rewrite Hm. cbn [from_chars_digits].
    destruct (pretty_N_char_digit (x mod 10)%N ltac:(apply N.mod_lt; lia)) as [-> ->].
    f_equal. rewrite N2Z.inj_mod, N2Z.inj_div.
    pose proof (Z_div_mod_eq_full (Z.of_N x) 10). change (Z.of_N 10) with 10%Z. lia.
Qed.

Lemma to_string_digits (n : Z) : all_digits (RArrayField.to_string n).
Proof.
  unfold RArrayField.to_string, pretty, pretty_N.
  destruct (decide (Z.to_N n = 0%N)); [by repeat constructor|].
  apply pretty_N_go_digits. constructor.
Qed.

Lemma from_chars_to_string (n : Z) :
  (0 <= n < 2 ^ 64)%Z -> from_chars (RArrayField.to_string n) = Some n.
Proof.
  intros Hn. pose proof (to_string_digits n) as Hdigits.
  unfold RArrayField.to_string, pretty, pretty_N in *.
  destruct (decide (Z.to_N n = 0%N)) as [Hzero|Hpos].
  - assert (n = 0%Z) as -> by lia. by vm_compute.
  - assert (pretty_N_go (Z.to_N n) "" <> "") as Hne.
    { rewrite pretty_N_go_step by lia. by apply pretty_N_go_not_empty. }
    destruct (pretty_N_go_value (Z.to_N n) "") as [m Hm].
    unfold from_chars.
    destruct (pretty_N_go (Z.to_N n) "") as [|c digits] eqn:Hgo; [done|].
    apply Forall_cons in Hdigits as [-> _].
    cbv zeta. rewrite Hm. cbn [from_chars_digits]. rewrite Z.mul_0_l, Z.add_0_l.
    rewrite Z2N.id by lia.
    assert ((n <? 2 ^ 64)%Z = true) as -> by (apply Z.ltb_lt; lia). done.
Qed.

Lemma from_chars_digits_nonneg (s : string) (value : Z) :
  (0 <= value)%Z -> (0 <= from_chars_digits s value)%Z.
Proof.
  revert value. induction s as [|c s IH]; intros value Hvalue; [done|].
  cbn [from_chars_digits]. destruct (is_digit c) eqn:Hc; [|done].
  apply IH. unfold is_digit in Hc. apply andb_true_iff in Hc as [Hlow _].
  apply Nat.leb_le in Hlow. lia.
Qed.

Lemma from_chars_range (range : string) (size : Z) :
  from_chars range = Some size -> (0 <= size < 2 ^ 64)%Z.
Proof.
  unfold from_chars. destruct range as [|c range]; [done|].
  destruct (is_digit c) eqn:Hc; [|done].
  destruct (_ <? 2 ^ 64)%Z eqn:Hfits; [|done]. intros [= <-].
  apply Z.ltb_lt in Hfits. split; [|done]. by apply (from_chars_digits_nonneg (String c range)).
Qed.

Lemma dimensions_snoc (sizes : list Z) (n : Z) :
  dimensions (sizes ++ [n]) = dimensions sizes +:+ dimension n.
Proof. unfold dimensions. by rewrite foldl_app. Qed.

Lemma ParseArrayType_loop_round (rounds : nat) (pre : string) (n : Z) (sizeVec : list Z) :
  (0 <= n < 2 ^ 64)%Z ->
  ParseArrayType_loop (S rounds) (pre +:+ dimension n) sizeVec
  = ParseArrayType_loop rounds pre (n :: sizeVec).
Proof.
  intros Hn. unfold dimension. set (digits := RArrayField.to_string n).
  assert (pre +:+ "[" +:+ digits +:+ "]" = (pre +:+ "[" +:+ digits) +:+ "]") as Hback
    by (by rewrite !append_assoc).
  assert (String.length (pre +:+ "[" +:+ digits +:+ "]")
          = (String.length pre + (String.length digits + 2))%nat) as Hlength.
  { rewrite !length_append. cbn. lia. }
  cbn [ParseArrayType_loop]. rewrite Hback at 1. rewrite back_snoc. cbn [Ascii.eqb].
  cbv zeta. rewrite Hlength.
  replace (String.length pre + (String.length digits + 2) - 1)%nat
    with (String.length pre + (String.length digits + 1))%nat by lia.
  assert (Forall (fun c => c <> "["%char) (characters_of (digits +:+ "]"))) as Htail.
  { rewrite characters_of_append. apply Forall_app. split; [|by repeat constructor].
    eapply Forall_impl; [apply (to_string_digits n)|]. by intros c Hc ->. }
  rewrite !append_cons, !append_empty_l.
  rewrite (find_last_of_bracket pre (digits +:+ "]") _ Htail).
  replace (String.length pre + (String.length digits + 1) - (String.length pre + 1))%nat
    with (String.length digits) by lia.
  rewrite substring_skip. cbn [String.substring].
  rewrite substring_prefix. subst digits. rewrite from_chars_to_string by done.
  by rewrite substring_prefix.
Qed.

Lemma ParseArrayType_loop_dimensions (sizes : list Z) :
  forall (rounds : nat) (baseType : string) (sizeVec : list Z),
  Forall (fun n => 0 <= n < 2 ^ 64)%Z sizes ->
  ParseArrayType_loop (length sizes + rounds) (baseType +:+ dimensions sizes) sizeVec
  = ParseArrayType_loop rounds baseType (sizes ++ sizeVec).
Proof.
  induction sizes as [|n sizes IH] using rev_ind; intros rounds baseType sizeVec Hsizes.
  - unfold dimensions. cbn. by rewrite append_nil_r.
  - apply Forall_app in Hsizes as [Hsizes Hn]. apply Forall_cons in Hn as [Hn _].
    rewrite dimensions_snoc, <- append_assoc, length_app. cbn [length].
    replace (length sizes + 1 + rounds)%nat with (S (length sizes + rounds)) by lia.
    rewrite ParseArrayType_loop_round by exact Hn. rewrite IH by exact Hsizes.
    by rewrite <- app_assoc.
Qed.

Lemma length_dimensions (sizes : list Z) :
  (length sizes <= String.length (dimensions sizes))%nat.
Proof.
  induction sizes as [|n sizes IH] using rev_ind; [done|].
  rewrite dimensions_snoc, length_append, length_app. unfold dimension.
  rewrite append_cons. cbn. lia.
Qed.

Lemma substring_0_split (s : string) (p : nat) :
  exists suffix, s = String.substring 0 p s +:+ suffix
                 /\ (String.length (String.substring 0 p s) <= p)%nat.
Proof.
  revert p. induction s as [|c s IH]; intros p.
  - exists "". destruct p; (split; [reflexivity | cbn; lia]).
  - destruct p as [|p]; [exists (String c s); split; [reflexivity | cbn; lia]|].
    destruct (IH p) as (suffix & Hs & Hlen). exists suffix.
    cbn [String.substring String.length]. rewrite append_cons, <- Hs. split; [done|lia].
Qed.

Lemma length_characters_of (s : string) : length (characters_of s) = String.length s.
Proof. induction s as [|c s IH]; [done|]. cbn. by rewrite IH. Qed.

Lemma back_None (s : string) : back s = None -> s = "".
Proof.
  unfold back. destruct (String.length s) as [|n] eqn:Hlength.
  - intros _. by destruct s.
  - rewrite get_characters. intros Hnone. apply lookup_ge_None in Hnone.
    rewrite length_characters_of in Hnone. lia.
Qed.

Lemma ParseArrayType_loop_unfold (rounds : nat) (typeName : string) (sizeVec : list Z) :
  ParseArrayType_loop rounds typeName sizeVec
  = match back typeName with
    | None => Some (Fatal "typeName.back()")
    | Some c =>
        if Ascii.eqb c "]"%char then
          let posRBrace := (String.length typeName - 1)%nat in
          match find_last_of "["%char typeName posRBrace with
          | None => Some (Normal ("", []))
          | Some posLBrace =>
              match from_chars (String.substring (posLBrace + 1)
                                  (posRBrace - (posLBrace + 1)) typeName) with
              | None => Some (Normal ("", []))
              | Some size =>
                  match rounds with
                  | O => None
                  | S rounds' =>
                      ParseArrayType_loop rounds' (String.substring 0 posLBrace typeName)
                        (size :: sizeVec)
                  end
              end
          end
        else Some (Normal (typeName, sizeVec))
    end.
Proof. by destruct rounds. Qed.

Lemma ParseArrayType_loop_returns (rounds : nat) :
  forall (typeName name : string) (sizeVec : list Z),
  (String.length name <= rounds)%nat ->
  (exists suffix, typeName = name +:+ suffix) ->
  Forall (fun n => 0 <= n < 2 ^ 64)%Z sizeVec ->
  (sizeVec = [] -> name = typeName) ->
  (sizeVec <> [] -> back typeName = Some "]"%char) ->
  exists outcome,
    ParseArrayType_loop rounds name sizeVec = Some outcome /\ parsed typeName outcome.
Proof.
  induction rounds as [rounds IH] using lt_wf_ind.
  intros typeName name sizeVec Hlen Hprefix Hsizes Hfirst Hlater.
  rewrite ParseArrayType_loop_unfold.
  destruct (back name) as [c|] eqn:Hback.
  - destruct (Ascii.eqb c "]") eqn:Hc.
    + apply Ascii.eqb_eq in Hc as ->. cbv zeta.
      destruct (find_last_of _ _ _) as [posLBrace|] eqn:Hfind;
        [|eexists; split; [done|by left]].
      destruct (from_chars _) as [size|] eqn:Hsize;
        [|eexists; split; [done|by left]].
      assert (name <> "") as Hname by (by intros ->).
      assert (0 < String.length name)%nat as Hpos by (destruct name; [done|cbn; lia]).
      destruct rounds as [|rounds']; [lia|].
      apply find_last_of_le in Hfind as [Hfind _].
      destruct (substring_0_split name posLBrace) as (rest & Hsplit & Hshort).
      apply (IH rounds' ltac:(lia)).
      * lia.
      * destruct Hprefix as [suffix ->]. exists (rest +:+ suffix).
        rewrite <- append_assoc. by rewrite <- Hsplit.
      * constructor; [by eapply from_chars_range|done].
      * done.
      * intros _. destruct sizeVec as [|n sizeVec]; [by rewrite <- Hfirst|by apply Hlater].
    + apply Ascii.eqb_neq in Hc. eexists. split; [done|]. right.
      rewrite Hback. repeat split; try done. by intros [= ->].
  - apply back_None in Hback as ->. eexists. split; [done|]. cbn.
    destruct sizeVec as [|n sizeVec]; [left; by rewrite <- Hfirst|right; by apply Hlater].
Qed.

End ArrayTypes.

(** X22: [ParseArrayType] undoes what the constructor of [RClassField]
    does to the type name of an array member: from a base type that does
    not end in a closing bracket, followed by one [[n]] per dimension
    with [n] as [std::to_string] prints it, it returns the base type and
    the sizes in order. When the base type is empty, it ends up calling
    [back] on an empty view. *)
Theorem ParseArrayType_dimensions (baseType : string) (sizes : list Z) :
  TypeName.back baseType <> Some "]"%char ->
  Forall (fun n => 0 <= n < 2 ^ 64)%Z sizes ->
  TypeName.ParseArrayType (baseType +:+ dimensions sizes)
  = Some (if String.eqb baseType "" then Fatal "typeName.back()"
          else Normal (baseType, sizes)).
Proof.
  intros Hback Hsizes. unfold TypeName.ParseArrayType.
  pose proof (length_dimensions sizes) as Hlength.
  rewrite length_append.
  replace (String.length baseType + String.length (dimensions sizes))%nat
    with (length sizes
          + (String.length baseType + String.length (dimensions sizes) - length sizes))%nat
    by lia.
  rewrite ParseArrayType_loop_dimensions by done. rewrite app_nil_r.
  rewrite ParseArrayType_loop_unfold.
  destruct (TypeName.back baseType) as [c|] eqn:Hlast.
  - destruct (Ascii.eqb c "]") eqn:Hc; [apply Ascii.eqb_eq in Hc as ->; done|].
    destruct baseType; [done|]. done.
  - apply back_None in Hlast as ->. done.
Qed.

(** X23: [ParseArrayType] returns for every type name, after at most as
    many rounds of its loop as the name has characters. It returns the
    default tuple, or a base type that is a non-empty prefix of the name
    and does not end in a closing bracket, with sizes below [2^64]; the
    base type is the whole name exactly when there are no sizes, and
    there are sizes only for a name that ends in a closing bracket. The
    one other outcome is [back] called on an empty view, for the empty
    name and for a name that ends in a closing bracket. *)
Theorem ParseArrayType_returns (typeName : string) :
  exists outcome,
    TypeName.ParseArrayType typeName = Some outcome /\ parsed typeName outcome.
Proof.
  apply ParseArrayType_loop_returns; try done.
  exists "". by rewrite append_nil_r.
Qed.
(** ** Normalized type names *)

Section NormalizedNames.
Import TypeName.
Variable CleanType : string -> Z -> string.
Variable ResolveTypedef : string -> string.

Lemma find_Some_value (key second : string) (map : list (string * string)) :
  find key map = Some second -> second ∈ map.*2.
Proof.
  induction map as [|[first value] map IH]; [done|]. cbn [find].
  destruct (String.eqb first key).
  - intros [= ->]. apply list_elem_of_here.
  - intros Hfound. apply list_elem_of_further. by apply IH.
Qed.

(** The seven tests at the end of [GetNormalizedTypeName]. *)
Lemma std_added (normalizedType : string) :
  find normalizedType typeTranslationMap = None ->
  let qualified :=
    let normalizedType :=
      if String.eqb (String.substring 0 7 normalizedType) "vector<"
      then "std::" +:+ normalizedType else normalizedType in
    let normalizedType :=
      if String.eqb (String.substring 0 6 normalizedType) "array<"
      then "std::" +:+ normalizedType else normalizedType in
    let normalizedType :=
      if String.eqb (String.substring 0 8 normalizedType) "variant<"
      then "std::" +:+ normalizedType else normalizedType in
    let normalizedType :=
      if String.eqb (String.substring 0 5 normalizedType) "pair<"
      then "std::" +:+ normalizedType else normalizedType in
    let normalizedType :=
      if String.eqb (String.substring 0 6 normalizedType) "tuple<"
      then "std::" +:+ normalizedType else normalizedType in
    let normalizedType :=
      if String.eqb (String.substring 0 7 normalizedType) "bitset<"
      then "std::" +:+ normalizedType else normalizedType in
    let normalizedType :=
      if String.eqb (String.substring 0 11 normalizedType) "unique_ptr<"
      then "std::" +:+ normalizedType else normalizedType in
    normalizedType in
  left_alone qualified
  /\ (qualified = normalizedType \/ qualified = "std::" +:+ normalizedType).
Proof.
  intros Hfind. cbv zeta.
  assert (forall s, left_alone ("std::" +:+ s)) as Hstd.
  { intros s. change ("std::" +:+ s) with (String "s" (String "t" (String "d"
                        (String ":" (String ":" s))))).
    split; [by vm_compute|]. unfold std_templates. repeat constructor; by vm_compute. }
  repeat match goal with
         | |- context [String.eqb (String.substring 0 ?n normalizedType) ?t] =>
             destruct (String.eqb_spec (String.substring 0 n normalizedType) t)
         end.
  all: try (change ("std::" +:+ normalizedType)
              with (String "s" (String "t" (String "d" (String ":" (String ":"
                      normalizedType))))); cbn;
            change (String "s" (String "t" (String "d" (String ":" (String ":"
                      normalizedType)))))
              with ("std::" +:+ normalizedType);
            split; [apply Hstd | by right]).
  split; [|by left]. split; [done|]. unfold std_templates. by repeat constructor.
Qed.

Lemma values_no_keys :
  Forall (fun second => find second typeTranslationMap = None) typeTranslationMap.*2.
Proof. unfold typeTranslationMap. cbn [fmap list_fmap snd]. repeat constructor. Qed.

Lemma GetNormalizedTypeName_left_alone (typeName : string) :
  left_alone (GetNormalizedTypeName CleanType typeName).
Proof.
  unfold GetNormalizedTypeName. cbv zeta.
  destruct (find (CleanType typeName 2) typeTranslationMap) as [second|] eqn:Hfind.
  - apply find_Some_value in Hfind.
    apply std_added. revert second Hfind. apply Forall_forall. apply values_no_keys.
  - by apply std_added.
Qed.

Lemma GetNormalizedTypeName_again (normalizedType : string) :
  left_alone normalizedType -> CleanType normalizedType 2 = normalizedType ->
  GetNormalizedTypeName CleanType normalizedType = normalizedType.
Proof.
  intros [Hfind Htests] Hclean. unfold GetNormalizedTypeName. cbv zeta.
  rewrite Hclean, Hfind. unfold std_templates in Htests.
  repeat (apply Forall_cons in Htests as [?%String.eqb_neq Htests]).
  cbn [String.length] in *.
  repeat (match goal with
          | H : String.eqb _ _ = false |- _ => rewrite H
          end; cbv iota).
  reflexivity.
Qed.

End NormalizedNames.

(** X24: the name [GetNormalizedTypeName] returns is never a key of
    [typeTranslationMap] and never starts with one of the templates the
    function puts into namespace [std]. So the function returns such a
    name unchanged whenever [CleanType] does; and when the name starts
    with [std::], the two-argument [RFieldBase::Create] resolves no
    typedef in it and passes it on as canonical type and as alias. *)
Theorem GetNormalizedTypeName_normal
    (CleanType : string -> Z -> string) (ResolveTypedef : string -> string)
    (typeName : string) :
  let normalizedType := TypeName.GetNormalizedTypeName CleanType typeName in
  left_alone normalizedType
  /\ (CleanType normalizedType 2%Z = normalizedType ->
      TypeName.GetNormalizedTypeName CleanType normalizedType = normalizedType
      /\ (String.substring 0 5 normalizedType = "std::" ->
          TypeName.Create_type_names CleanType ResolveTypedef typeName
          = (normalizedType, normalizedType))).
Proof.
  intros normalizedType.
  pose proof (GetNormalizedTypeName_left_alone CleanType typeName) as Hnormal.
  fold normalizedType in Hnormal.
  split; [exact Hnormal|]. intros Hclean.
  pose proof (GetNormalizedTypeName_again CleanType normalizedType Hnormal Hclean) as Hagain.
  split; [exact Hagain|]. intros Hstd.
  unfold TypeName.Create_type_names, TypeName.GetCanonicalTypeName. cbv zeta.
  fold normalizedType. rewrite Hstd. cbn [String.eqb Ascii.eqb Bool.eqb].
  rewrite orb_true_r. cbn [orb]. by rewrite Hagain.
Qed.
(** ** Field names *)

Lemma index_dot (fieldName : string) :
  String.index 0 "." fieldName = None <-> "."%char ∉ characters_of fieldName.
Proof.
  induction fieldName as [|c fieldName IH].
  - split; [intros _; apply not_elem_of_nil|done].
  - cbn [String.index String.prefix characters_of].
    destruct (ascii_dec "." c) as [<-|Hc].
    + destruct fieldName; cbn; (split; [done|intros Hin; destruct Hin; apply list_elem_of_here]).
    + rewrite not_elem_of_cons, <- IH.
      destruct (String.index 0 "." fieldName); split; try done.
      by intros [_ ?].
Qed.

Lemma EnsureValidFieldName_Success (fieldName : string) :
  EnsureValidFieldName fieldName = Success tt
  <-> fieldName <> "" /\ "."%char ∉ characters_of fieldName.
Proof.
  unfold EnsureValidFieldName. destruct (String.eqb_spec fieldName "") as [->|Hne].
  - split; [done|]. by intros [? _].
  - rewrite <- index_dot. destruct (String.index 0 "." fieldName); split; try done.
    by intros [_ ?].
Qed.

Lemma cut_at_dots_name (name : string) :
  "."%char ∉ characters_of name -> cut_at_dots name = [name].
Proof.
  induction name as [|c name IH]; [done|]. cbn [characters_of cut_at_dots].
  rewrite not_elem_of_cons. intros [Hc Hname]. rewrite IH by done.
  apply not_eq_sym in Hc. apply Ascii.eqb_neq in Hc. by rewrite Hc.
Qed.

Lemma cut_at_dots_qualified (name result : string) :
  "."%char ∉ characters_of name ->
  cut_at_dots (name +:+ "." +:+ result) = name :: cut_at_dots result.
Proof.
  induction name as [|c name IH]; [done|]. cbn [characters_of].
  rewrite not_elem_of_cons. intros [Hc Hname].
  rewrite append_cons. cbn [cut_at_dots]. rewrite IH by done.
  apply not_eq_sym in Hc. apply Ascii.eqb_neq in Hc. by rewrite Hc.
Qed.

Lemma qualify_cut (named rest : list RFieldBase) (result : string) :
  Forall (fun parent => EnsureValidFieldName (fName parent) = Success tt) named ->
  (forall zero, head rest = Some zero -> fName zero = "") ->
  cut_at_dots (RFieldBase.qualify result (named ++ rest))
  = rev (fName <$> named) ++ cut_at_dots result.
Proof.
  intros Hnamed Hrest. revert result.
  induction Hnamed as [|parent named Hparent _ IH]; intros result.
  - destruct rest as [|zero rest]; [done|]. cbn.
    unfold RFieldBase.GetName. rewrite (Hrest zero eq_refl). done.
  - apply EnsureValidFieldName_Success in Hparent as [Hne Hdots].
    cbn [app RFieldBase.qualify]. unfold RFieldBase.GetName at 1.
    destruct (decide (fName parent = "")); [done|].
    rewrite IH. unfold RFieldBase.GetName. rewrite cut_at_dots_qualified by done.
    cbn [fmap list_fmap rev]. by rewrite <- app_assoc.
Qed.

(** X25: the check of [EnsureValidFieldName] makes qualified names
    unambiguous. Take two fields whose names and whose ancestors' names,
    up to the end of the chain of parents or to an ancestor without a
    name, all pass the check. If [GetQualifiedFieldName] returns the same
    string for both, the two fields and their ancestors have the same
    names, level by level. *)
Theorem qualified_names_unambiguous
    (f f' : RFieldBase) (named named' rest rest' : list RFieldBase) :
  Forall (fun field => EnsureValidFieldName (fName field) = Success tt) (f :: named) ->
  Forall (fun field => EnsureValidFieldName (fName field) = Success tt) (f' :: named') ->
  (forall zero, head rest = Some zero -> fName zero = "") ->
  (forall zero, head rest' = Some zero -> fName zero = "") ->
  RFieldBase.GetQualifiedFieldName (named ++ rest) f
  = RFieldBase.GetQualifiedFieldName (named' ++ rest') f' ->
  fName <$> (f :: named) = fName <$> (f' :: named').
Proof.
  intros Hnamed Hnamed' Hrest Hrest' Hsame.
  apply Forall_cons in Hnamed as [Hf Hnamed]. apply Forall_cons in Hnamed' as [Hf' Hnamed'].
  apply EnsureValidFieldName_Success in Hf as [_ Hf].
  apply EnsureValidFieldName_Success in Hf' as [_ Hf'].
  apply (f_equal cut_at_dots) in Hsame. unfold RFieldBase.GetQualifiedFieldName in Hsame.
  rewrite !qualify_cut in Hsame by done. unfold RFieldBase.GetName in Hsame.
  rewrite !cut_at_dots_name in Hsame by done.
  change (rev (fName <$> named) ++ [fName f]) with (rev (fName <$> named) ++ rev [fName f])
    in Hsame.
  change (rev (fName <$> named') ++ [fName f'])
    with (rev (fName <$> named') ++ rev [fName f']) in Hsame.
  rewrite <- !rev_app_distr in Hsame. apply (f_equal (@rev string)) in Hsame.
  by rewrite !rev_involutive in Hsame.
Qed.

(** ** Messages that do not name the field *)

Lemma not_occurs_in (s t : string) :
  s <> "" -> String.index 0 s t = None -> ~ occurs_in s t.
Proof.
  intros Hs Hindex (before & after & ->).
  apply (String.index_correct3 0 (String.length before) s _ Hindex Hs); [lia|].
  rewrite <- (Nat.add_0_r (String.length before)).
  by rewrite substring_skip, substring_prefix.
Qed.

(** ** The properties at concrete objects *)

Lemma SetColumnRepresentative_throws_witness :
  RFieldBase.SetColumnRepresentative Representations.RField_string [kIndex64; kChar]
    Samples.connected_string_field
  = (Throw "cannot set column representative once field is connected",
     Samples.connected_string_field)
  /\ throws (RFieldBase.SetColumnRepresentative Representations.RField_string [kBit]
               Samples.string_field) = true
  /\ (RFieldBase.SetColumnRepresentative Representations.RField_string [kBit]
        Samples.string_field).2 = Samples.string_field.
Proof.
  split; [|split].
  - apply (SetColumnRepresentative_throws Representations.RField_string [kIndex64; kChar]
             Samples.connected_string_field).
    discriminate.
  - apply (SetColumnRepresentative_throws Representations.RField_string [kBit]
             Samples.string_field).
    apply std_find_None. reflexivity.
  - apply (SetColumnRepresentative_throws Representations.RField_string [kBit]
             Samples.string_field).
    reflexivity.
Defined.

Lemma ConnectPageSource_incompatible_throws_witness :
  RFieldBase.GetQualifiedFieldName Samples.x_parents Samples.x_field = "hits.pos.x"
  /\ (exists what,
        RFieldBase.ConnectPageSource Representations.RField_int32
          (OneColumnField.GenerateColumnsImpl_desc Representations.RField_int32
             Samples.x_parents Samples.GetTypeName)
          (mret tt) Samples.descriptor Samples.x_field
        = (Throw what, Samples.x_field)
        /\ occurs_in "hits.pos.x" what)
  /\ (exists what,
        RFieldBase.ConnectPageSource Representations.RField_int32
          (OneColumnField.GenerateColumnsImpl_desc Representations.RField_int32
             Samples.x_parents Samples.GetTypeName)
          (mret tt) Samples.descriptor (set_fOnDiskId 3 Samples.x_field)
        = (Throw what, set_fOnDiskId 3 Samples.x_field)
        /\ occurs_in "hits.pos.x" what /\ occurs_in "Real32" what).
Proof.
  split; [reflexivity|]. split.
  - destruct (proj1 (ConnectPageSource_incompatible_throws
                       Representations.RField_int32 Samples.x_parents
                       Samples.GetTypeName Samples.descriptor Samples.x_field
                       (fun onDiskTypes =>
                          t ← subscript onDiskTypes 0;
                          emplace_back_column (RColumn_Create t 0))
                       (mret tt) eq_refl eq_refl) eq_refl)
      as (what & _ & Hconnect & Hname).
    exists what. split; [exact Hconnect | exact Hname].
  - destruct (proj2 (ConnectPageSource_incompatible_throws
                       Representations.RField_int32 Samples.x_parents
                       Samples.GetTypeName Samples.descriptor
                       (set_fOnDiskId 3 Samples.x_field)
                       (fun onDiskTypes =>
                          t ← subscript onDiskTypes 0;
                          emplace_back_column (RColumn_Create t 0))
                       (mret tt) eq_refl eq_refl))
      as (what & _ & Hconnect & Hname & Htypes).
    + apply std_find_None. reflexivity.
    + exists what. split; [exact Hconnect|]. split; [exact Hname|].
      apply (Htypes ltac:(discriminate) kReal32). apply list_elem_of_here.
Defined.

(** C8, as stated, fails.  A field with a fixed column representative and
    no on-disk id is connected to a page source: the exception is the one
    about the fixed representative, and its message does not contain the
    qualified field name.  And a field of a kind without columns, whose
    [GenerateColumnsImpl(desc)] makes no check, is connected without any
    exception although it has no on-disk id. *)
Lemma ConnectPageSource_incompatible_throws_counterexample :
  fOnDiskId (set_fColumnRepresentative (Some (SerializationRow 1)) Samples.x_field)
  = kInvalidDescriptorId
  /\ ~ (exists what after,
          RFieldBase.ConnectPageSource Representations.RField_int32
            (OneColumnField.GenerateColumnsImpl_desc Representations.RField_int32
               Samples.x_parents Samples.GetTypeName)
            (mret tt) Samples.descriptor
            (set_fColumnRepresentative (Some (SerializationRow 1)) Samples.x_field)
          = (Throw what, after)
          /\ occurs_in
               (RFieldBase.GetQualifiedFieldName Samples.x_parents
                  (set_fColumnRepresentative (Some (SerializationRow 1)) Samples.x_field))
               what)
  /\ fOnDiskId Samples.pos_field = kInvalidDescriptorId
  /\ (RFieldBase.ConnectPageSource Representations.RFieldBase_
        (fun _ => mret tt) (mret tt) Samples.descriptor Samples.pos_field).1
     = Normal tt.
Proof.
  split; [reflexivity|]. split; [|split; reflexivity].
  intros (what & after & Hconnect & Hname).
  injection Hconnect as <- _. revert Hname. by apply not_occurs_in.
Qed.

Lemma EntryToColumnElementIndex_walk_witness :
  RFieldBase.EntryToColumnElementIndex
    [RFieldBase.ctor Samples.masks "v" "std::vector<std::int32_t>" kCollection false 0;
     Samples.zero_field] Samples.x_field 7 = 0%Z
  /\ RFieldBase.EntryToColumnElementIndex Samples.x_parents Samples.x_field 7
     = wrap64 (7 * repetitions (Samples.x_field :: Samples.x_parents))
  /\ RFieldBase.EntryToColumnElementIndex
       [RArrayField.ctor Samples.masks "a" Samples.x_field 3; Samples.zero_field]
       Samples.x_field 1 = 3%Z.
Proof.
  split; [|split].
  - refine (proj1 (EntryToColumnElementIndex_walk _ Samples.x_field 7) _).
    apply Exists_cons_hd. by left.
  - refine (proj1 (proj1 (proj2 (EntryToColumnElementIndex_walk Samples.x_parents
                                   Samples.x_field 7)) _)).
    repeat constructor; intros [?|?]; discriminate.
  - refine (proj2 (proj2 (EntryToColumnElementIndex_walk [Samples.zero_field]
                            Samples.x_field 1)) Samples.masks "a" _ _).
    + discriminate.
    + repeat constructor. discriminate.
Defined.

Lemma Clone_isomorphic_witness :
  exists (F' : Field) (next' : nat),
    Cloning.Clone Samples.masks Samples.class_traits Samples.class_subfields
      Samples.collection_item Samples.tree "" 10 = (Normal F', next')
    /\ isomorphic Samples.tree F' = true
    /\ fTypeAlias (self F') = fTypeAlias (self Samples.tree)
    /\ fDescription (self F') = fDescription (self Samples.tree)
    /\ fColumnRepresentative (self F') = fColumnRepresentative (self Samples.tree)
    /\ (forall a, a ∈ addresses F' -> (10 <= a < next')%nat)
    /\ (within 0 10 (addresses Samples.tree) ->
        forall a, a ∈ addresses F' -> a ∉ addresses Samples.tree).
Proof.
  apply (Clone_isomorphic Samples.masks Samples.class_traits Samples.class_subfields
           Samples.collection_item Samples.tree "" 10).
  reflexivity.
Defined.

Lemma ConnectPageSource_fixed_representative_witness :
  RFieldBase.ConnectPageSource Representations.RField_string
    (RField_string.GenerateColumnsImpl_desc [] Samples.GetTypeName)
    (mret tt) Samples.descriptor
    (set_fColumnRepresentative (Some (SerializationRow 1)) Samples.string_field)
  = (Throw "fixed column representative only valid when connecting to a page sink",
     set_fColumnRepresentative (Some (SerializationRow 1)) Samples.string_field).
Proof.
  apply (ConnectPageSource_fixed_representative Representations.RField_string
           (RField_string.GenerateColumnsImpl_desc [] Samples.GetTypeName)
           (mret tt) Samples.descriptor).
  - reflexivity.
  - by eexists.
Defined.

Lemma string_field_appends_witness :
  str_column0
    ((RField_string.AppendImpl 8 "hello" ;; RField_string.AppendImpl 8 "" ;;
      RField_string.AppendImpl 8 Samples.three_bytes) RField_string.connected).2
  = [5; 5; 8]%Z.
Proof.
  exact (proj1 (proj2 (string_field_appends 8 Samples.three_bytes
                          RField_string.connected eq_refl))).
Defined.

Lemma nullable_field_encoding_witness :
  fColumns
    (nul_base (RNullableField.GenerateColumnsImpl Z 2 0%Z Samples.nullable_field).2)
  = [RColumn_Create kBit 0]
  /\ fColumns
       (nul_base (RNullableField.GenerateColumnsImpl Z 8 0%Z Samples.nullable_field).2)
     = [RColumn_Create kSplitIndex64 0]
  /\ nul_principal
       ((RNullableField.AppendNull Z (fun _ => 8%Z) ;;
         RNullableField.AppendValue Z (fun _ => 8%Z) 5%Z ;;
         RNullableField.AppendNull Z (fun _ => 8%Z) ;;
         RNullableField.AppendValue Z (fun _ => 8%Z) 6%Z)
          (RNullableField.GenerateColumnsImpl Z 8 0%Z Samples.nullable_field).2).2
     = [IndexValue 0; IndexValue 1; IndexValue 1; IndexValue 2].
Proof.
  split; [|split].
  - exact (proj1 (proj2 (proj2 (proj1 (nullable_field_encoding Z 2 0%Z (fun _ => 8%Z))
                                  Samples.nullable_field eq_refl eq_refl)))).
  - exact (proj1 (proj2 (proj2 (proj1 (nullable_field_encoding Z 8 0%Z (fun _ => 8%Z))
                                  Samples.nullable_field eq_refl eq_refl)))).
  - exact (proj1 (proj2 (proj2 (nullable_field_encoding Z 8 0%Z (fun _ => 8%Z))
                           (RNullableField.GenerateColumnsImpl Z 8 0%Z
                              Samples.nullable_field).2
                           5%Z 6%Z 0%Z eq_refl eq_refl eq_refl))).
Defined.

Lemma RVariantField_AppendImpl_counts_witness :
  var_column0
    (RVariantField.AppendImpl unit (fun _ _ => 4%Z) 16
       {| var_index := 1; var_storage := tt |}
       {| var_fNWritten := [3; 5]%Z; var_column0 := []; var_appended := [] |}).2
  = [{| sw_index := 5; sw_tag := 2 |}].
Proof.
  apply (RVariantField_AppendImpl_counts unit (fun _ _ => 4%Z) 16
           {| var_fNWritten := [3; 5]%Z; var_column0 := []; var_appended := [] |}
           {| var_index := 1; var_storage := tt |} 2 5);
    [reflexivity | lia | reflexivity | lia].
Defined.

Lemma RVariantField_counter_is_count_witness :
  var_fNWritten
    (appended_in_cluster (fun _ _ => 4%Z) 16
       [{| var_index := 1; var_storage := tt |}; {| var_index := 0; var_storage := tt |};
        {| var_index := 1; var_storage := tt |}]
       (RVariantField.connected unit 2)) !! 1%nat
  = Some 2%Z.
Proof.
  refine (RVariantField_counter_is_count unit (fun _ _ => 4%Z) 16 2 _
            (RVariantField.connected unit 2) _ _).
  - simpl. lia.
  - repeat constructor; vm_compute; intros; discriminate.
Defined.

Lemma RNullableField_uncompressed_is_sparse_witness :
  RNullableField.IsDense Z
    (RNullableField.GenerateColumnsImpl Z 2 0%Z
       (RNullableField.on_base Z
          (RFieldBase.AutoAdjustColumnTypes Representations.RNullableField
             {| GetCompression := 0; GetHasSmallClusters := false |})
          Samples.nullable_field).2).2
  = false.
Proof.
  refine (proj1 (proj2 (proj2
            (RNullableField_uncompressed_is_sparse Z 2 0%Z
               {| GetCompression := 0; GetHasSmallClusters := false |}
               Samples.nullable_field eq_refl eq_refl eq_refl _)))).
  discriminate.
Defined.

Lemma ConnectPageSink_string_field_witness :
  fPrincipalColumn
    (RFieldBase.ConnectPageSink Representations.RField_string []
       RField_string.GenerateColumnsImpl
       {| GetCompression := 505; GetHasSmallClusters := false |} 0
       Samples.string_field).2
  = Some 0%nat.
Proof.
  exact (proj1 (proj2
           (ConnectPageSink_string_field []
              {| GetCompression := 505; GetHasSmallClusters := false |} 0
              Samples.string_field Samples.string_field eq_refl eq_refl eq_refl))).
Defined.

Lemma SetColumnRepresentative_GetColumnRepresentative_witness :
  RFieldBase.GetColumnRepresentative Representations.RField_string
    (RFieldBase.SetColumnRepresentative Representations.RField_string [kIndex32; kChar]
       Samples.string_field).2
  = [kIndex32; kChar].
Proof.
  refine (proj1 (proj2 (SetColumnRepresentative_GetColumnRepresentative
                          Representations.RField_string [kIndex32; kChar]
                          Samples.string_field eq_refl _))).
  repeat constructor.
Defined.

Lemma ConnectPageSource_adopts_on_disk_types_witness :
  exists f',
    RFieldBase.ConnectPageSource Representations.RField_int64
      (OneColumnField.GenerateColumnsImpl_desc Representations.RField_int64 []
         Samples.GetTypeName)
      (mret tt)
      {| GetColumnIterable := fun _ => [kInt32]; GetTypeVersion := fun _ => 3%Z |}
      (Samples.leaf "n" "std::int64_t" 11)
    = (Normal tt, f')
    /\ RFieldBase.GetColumnRepresentative Representations.RField_int64 f' = [kInt32].
Proof.
  destruct (ConnectPageSource_adopts_on_disk_types Representations.RField_int64 []
              Samples.GetTypeName (mret tt)
              {| GetColumnIterable := fun _ => [kInt32]; GetTypeVersion := fun _ => 3%Z |}
              (Samples.leaf "n" "std::int64_t" 11) kInt32)
    as (f' & Hrun & _ & _ & Hrep & _).
  - reflexivity.
  - reflexivity.
  - discriminate.
  - reflexivity.
  - repeat constructor.
  - exists f'. split; [exact Hrun | exact Hrep].
Defined.

Lemma AutoAdjustColumnTypes_keeps_valid_witness :
  RFieldBase.GetColumnRepresentative Representations.RField_int32
    (RFieldBase.AutoAdjustColumnTypes Representations.RField_int32
       {| GetCompression := 0; GetHasSmallClusters := false |} Samples.x_field).2
  ∈ RColumnRepresentations.GetSerializationTypes Representations.RField_int32.
Proof.
  refine (proj1 (proj2 (proj2
            (AutoAdjustColumnTypes_keeps_valid Representations.RField_int32
               {| GetCompression := 0; GetHasSmallClusters := false |} Samples.x_field
               _ eq_refl eq_refl _)))).
  - repeat constructor.
  - discriminate.
Defined.

Lemma RNullableField_sparse_entries_witness :
  nul_principal
    (for_each (RUniquePtrField.AppendImpl Z (fun _ => 8%Z))
       [None; Some 5%Z; Some 6%Z; None; Some 7%Z] Samples.nullable_field).2
  = IndexValue <$> [0; 1; 2; 2; 3]%Z.
Proof.
  refine (proj1 (proj2 (RNullableField_sparse_entries Z (fun _ => 8%Z) 8
                          Samples.nullable_field
                          [None; Some 5%Z; Some 6%Z; None; Some 7%Z]
                          eq_refl eq_refl eq_refl _))).
  simpl. lia.
Defined.

Lemma RNullableField_dense_entries_witness :
  nul_items
    (for_each (RUniquePtrField.AppendImpl Z (fun _ => 2%Z)) [None; Some 5%Z; None]
       {| nul_base := set_fColumnRepresentative (Some (SerializationRow 4))
                        (nul_base Samples.nullable_field);
          nul_fNWritten := 0; nul_fDefaultItemValue := Some 0%Z;
          nul_principal := []; nul_items := [] |}).2
  = [0; 5; 0]%Z.
Proof.
  refine (proj1 (proj2 (proj2
            (RNullableField_dense_entries Z (fun _ => 2%Z) 2
               {| nul_base := set_fColumnRepresentative (Some (SerializationRow 4))
                                (nul_base Samples.nullable_field);
                  nul_fNWritten := 0; nul_fDefaultItemValue := Some 0%Z;
                  nul_principal := []; nul_items := [] |}
               0%Z [None; Some 5%Z; None] eq_refl eq_refl eq_refl _)))).
  simpl. lia.
Defined.

Lemma string_field_round_trip_witness :
  RField_string.read_back
    ((RField_string.CommitCluster ;;
      for_each (RField_string.AppendImpl 8) ["hello"; ""; Samples.three_bytes])
       RField_string.connected).2 2 "previous"
  = Samples.three_bytes.
Proof.
  refine (proj2 (proj2 (proj2
            (string_field_round_trip 8 RField_string.connected
               ["hello"; ""; Samples.three_bytes] eq_refl eq_refl _)))
            2%nat Samples.three_bytes "previous" eq_refl).
  simpl. lia.
Defined.

Lemma RVectorField_read_lifecycle_witness :
  vector_lifecycle 5 (loop_range 0 5)
    (RVectorField.ReadGlobalImpl Samples.masks 0 8 {| fClusterId := 0; fIndex := 10 |} 3
       (5 * 8))
  = Some (loop_range 0 3).
Proof.
  refine (proj2 (RVectorField_read_lifecycle Samples.masks 0 8
                   {| fClusterId := 0; fIndex := 10 |} 5 3 _ _ _) eq_refl eq_refl);
    lia.
Defined.

Lemma RRVecField_read_lifecycle_witness :
  exists events rvec',
    RRVecFieldValue.ReadGlobalImpl Samples.masks 0 8 {| fClusterId := 0; fIndex := 10 |} 5
      {| rv_begin := 4096; rv_size := 3; rv_capacity := 4 |} 8192
    = Normal (events, rvec')
    /\ rvec_lifecycle 8
         (owned_buffer 8 {| rv_begin := 4096; rv_size := 3; rv_capacity := 4 |})
         (owned_items {| rv_begin := 4096; rv_size := 3; rv_capacity := 4 |}) events
       = Some (owned_buffer 8 rvec', owned_items rvec').
Proof.
  destruct (RRVecField_read_lifecycle Samples.masks 0 8 {| fClusterId := 0; fIndex := 10 |} 5
              {| rv_begin := 4096; rv_size := 3; rv_capacity := 4 |} 8192)
    as (events & rvec' & Hrun & Hlife & _).
  - reflexivity.
  - reflexivity.
  - lia.
  - simpl. lia.
  - discriminate.
  - lia.
  - lia.
  - discriminate.
  - discriminate.
  - exists events, rvec'. split; [exact Hrun | exact Hlife].
Defined.

Lemma RRVecField_EvalValueSize_layout_witness :
  exists nElements paddingEnd : Z,
    RRVecField.EvalValueSize 8 8
    = (RRVecField.dataMemberSz + RRVecField.paddingMiddle 8 + nElements * 8 + paddingEnd)%Z
    /\ (RRVecField.EvalValueSize 8 8 mod RRVecField.GetAlignment 8 = 0)%Z.
Proof.
  destruct (RRVecField_EvalValueSize_layout 8 8) as (nElements & paddingEnd & Hsize & Hmod & _).
  - lia.
  - lia.
  - exists nElements, paddingEnd. split; [exact Hsize | exact Hmod].
Defined.

Lemma RRVecField_items_found_again_witness :
  cw_column0
    ((RRVecFieldWriter.CommitCluster Z ;;
      for_each (RRVecFieldWriter.AppendImpl Z (fun _ => 8%Z) 8)
        [ ({| rv_begin := 4096; rv_size := 2; rv_capacity := 4 |}, fun i => (10 + i)%Z);
          ({| rv_begin := 0; rv_size := 0; rv_capacity := 0 |}, fun i => i);
          ({| rv_begin := 8192; rv_size := 3; rv_capacity := 3 |}, fun i => (20 + i)%Z) ])
       {| cw_fNWritten := 0; cw_column0 := []; cw_items := [] |}).2
  = [2; 2; 5]%Z.
Proof.
  refine (proj1 (proj2
            (RRVecField_items_found_again Z (fun _ => 8%Z) 8
               {| cw_fNWritten := 0; cw_column0 := []; cw_items := [] |}
               [ ({| rv_begin := 4096; rv_size := 2; rv_capacity := 4 |},
                  fun i => (10 + i)%Z);
                 ({| rv_begin := 0; rv_size := 0; rv_capacity := 0 |}, fun i => i);
                 ({| rv_begin := 8192; rv_size := 3; rv_capacity := 3 |},
                  fun i => (20 + i)%Z) ]
               eq_refl eq_refl _ _))).
  - repeat constructor; simpl; lia.
  - simpl. lia.
Defined.

Lemma RBitsetField_AppendImpl_bits_witness :
  RBitsetField.AppendImpl 64 5 (fun _ => 22%Z)
  = ([false; true; true; false; true], 5%Z).
Proof.
  refine (RBitsetField_AppendImpl_bits 64 5 _ _ (fun _ => 22%Z) _); lia.
Defined.

Lemma RBitsetField_round_trip_witness :
  bitset_bit 64
    (RBitsetField.ReadGlobalImpl 64 5
       (fun index : Z =>
          default false
            (([true; true; true; true; true]
              ++ (RBitsetField.AppendImpl 64 5 (fun _ => 22%Z)).1 ++ [])
               !! Z.to_nat index))
       1 (fun _ => 255%Z)) 3
  = bitset_bit 64 (fun _ => 22%Z) 3.
Proof.
  refine (proj2 (RBitsetField_round_trip 64 5 _ _ (fun _ => 22%Z) (fun _ => 255%Z)
                   [true; true; true; true; true] [] 1 _ _ _ _ _) 3%Z _).
  - lia.
  - lia.
  - intros w. lia.
  - lia.
  - reflexivity.
  - lia.
  - lia.
  - lia.
Defined.

Lemma RVariantField_tag_round_trip_witness :
  RVariantField.GetTag unit
    (RVariantField.SetTag unit {| var_index := 0; var_storage := tt |} 129)
  = 129%Z
  <-> (129 <= 128)%Z.
Proof.
  refine (proj1 (RVariantField_tag_round_trip unit (fun _ p => p) (fun _ _ p => p)
                   {| var_index := 0; var_storage := tt |} 129 _)).
  lia.
Defined.

Lemma TokenizeTypeList_GetTypeList_witness :
  TypeName.TokenizeTypeList
    (pop_back (join_types ["std::int32_t"; "std::variant<double,std::vector<float>>"]))
  = ["std::int32_t"; "std::variant<double,std::vector<float>>"].
Proof.
  apply (TokenizeTypeList_GetTypeList
           ["std::int32_t"; "std::variant<double,std::vector<float>>"]).
  - discriminate.
  - repeat constructor.
Defined.
Lemma ParseArrayType_dimensions_witness :
  TypeName.ParseArrayType ("unsigned char" +:+ dimensions [1; 2; 3]%Z)
  = Some (Normal ("unsigned char", [1; 2; 3]%Z)).
Proof.
  apply (ParseArrayType_dimensions "unsigned char" [1; 2; 3]%Z).
  - vm_compute. discriminate.
  - repeat constructor; lia.
Defined.
Lemma GetNormalizedTypeName_normal_witness :
  TypeName.Create_type_names (fun typeName _ => typeName) (fun typeName => typeName)
    "vector<Double32_t>"
  = ("std::vector<Double32_t>", "std::vector<Double32_t>").
Proof.
  exact (proj2 (proj2 (GetNormalizedTypeName_normal (fun typeName _ => typeName)
                         (fun typeName => typeName) "vector<Double32_t>")
                  eq_refl) eq_refl).
Defined.

Lemma qualified_names_unambiguous_witness :
  fName <$> [Samples.x_field] ++ take 2 Samples.x_parents
  = fName <$> [Samples.x_field] ++ take 2 Samples.x_parents.
Proof.
  apply (qualified_names_unambiguous Samples.x_field Samples.x_field
           (take 2 Samples.x_parents) (take 2 Samples.x_parents)
           (drop 2 Samples.x_parents) (drop 2 Samples.x_parents)).
  - repeat constructor.
  - repeat constructor.
  - by intros zero [= <-].
  - by intros zero [= <-].
  - reflexivity.
Defined.
